(** * JsMutationObserver: a shallow embedding of [src/MutationObserver.js]

    The JavaScript module keeps all of its state in mutable objects that
    are shared by reference: record objects linked by their prototype,
    the arrays [records_] handed out by [takeRecords], the observers, the
    registrations stored in the side table and the listener lists of the
    DOM nodes.  The embedding makes these stores explicit in a [State]
    and threads it through a small state-and-exception monad, so that the
    identity tests ([===]) and the in-place updates of the source keep
    their meaning. *)

From stdpp Require Import base option list gmap strings.

Open Scope string_scope.
Open Scope list_scope.
Open Scope nat_scope.

(** ** References *)

(** Every kind of JavaScript object the module handles is named by a
    natural number; the kinds live in separate stores. *)
Abbreviation Node := nat.
Abbreviation Loc := nat.
Abbreviation ArrayRef := nat.
Abbreviation ObserverRef := nat.

(** ** Record objects *)

(** The values the module stores in the properties of a record. *)
Inductive Value :=
| VNull
| VString (s : string)
| VNode (n : Node).

#[global] Instance Value_eq_dec : EqDecision Value.
Proof. solve_decision. Defined.

(** An object: its prototype ([None] is [null]) and its own properties. *)
Record JsObject := {
  obj_proto : option Loc;
  obj_props : gmap string Value
}.

(** [Object.prototype] and the module-level [mutationRecordPrototype]
    are the first two objects of every heap. *)
Definition objectPrototype : Loc := 0.
Definition mutationRecordPrototype : Loc := 1.

Definition objectPrototype_obj : JsObject :=
  {| obj_proto := None; obj_props := ∅ |}.

Definition mutationRecordPrototype_obj : JsObject :=
  {| obj_proto := Some objectPrototype;
     obj_props :=
       <["type" := VNull]> (<["target" := VNull]> (<["addedNodes" := VNull]>
       (<["removedNodes" := VNull]> (<["previousSibling" := VNull]>
       (<["nextSibling" := VNull]> (<["attributeName" := VNull]>
       (<["attributeNamespace" := VNull]> (<["oldValue" := VNull]> ∅)))))))) |}.

(** ** Options, registrations, observers *)

(** [MutationObserverInit]: the options object given to [observe].  A
    missing [attributeFilter] is [None]. *)
Record MutationObserverInit := {
  childList : bool;
  attributes : bool;
  characterData : bool;
  subtree : bool;
  attributeOldValue : bool;
  characterDataOldValue : bool;
  attributeFilter : option (list string)
}.

#[global] Instance MutationObserverInit_eq_dec : EqDecision MutationObserverInit.
Proof. solve_decision. Defined.

(** A [Registration] object.  [reg_id] is the identity of the object: the
    DOM compares listeners by identity, and a registration is a listener. *)
Record Registration := {
  reg_id : nat;
  observer : ObserverRef;
  target : Node;
  options : MutationObserverInit
}.

#[global] Instance Registration_eq_dec : EqDecision Registration.
Proof. solve_decision. Defined.

Definition set_options (r : Registration) (o : MutationObserverInit) : Registration :=
  {| reg_id := reg_id r; observer := observer r; target := target r; options := o |}.

(** A [JsMutationObserver] object.  [callback_] is a function reference
    that the module stores and never calls; [records_] is a reference to
    an array, because [takeRecords] hands that array to the caller. *)
Record JsMutationObserver := {
  callback_ : nat;
  nodes_ : list Node;
  records_ : ArrayRef
}.

(** ** The DOM side: listeners *)

(** An object that can be passed as an event listener. *)
Inductive ObjRef :=
| RegistrationRef (id : nat)
| ObserverObjRef (o : ObserverRef).

#[global] Instance ObjRef_eq_dec : EqDecision ObjRef.
Proof. solve_decision. Defined.

(** One entry of a node's event listener list: type, callback, capture. *)
Definition EventListener : Type := string * ObjRef * bool.

(** ** The DOM side: mutation events *)

(** The fields of a [MutationEvent] that the handler reads.
    [namespaceURI] is [e.relatedNode.namespaceURI], with [None] for
    [null]. *)
Record MutationEvent := {
  ev_type : string;
  ev_target : Node;
  attrName : string;
  namespaceURI : option string;
  attrChange : nat;
  prevValue : string
}.

(** The DOM constant [MutationEvent.ADDITION]. *)
Definition ADDITION : nat := 2.

(** ** The state *)

(** [stopped] is the effect of the module on the events it is given: the
    events on which it has called [stopImmediatePropagation], in the
    order of the calls.  The DOM delivers such an event to no listener
    after the one that made the call. *)
Record State := {
  parentNode : gmap Node Node;
  eventListeners : gmap Node (list EventListener);
  stopped : list MutationEvent;
  heap : gmap Loc JsObject;
  next_loc : Loc;
  arrays : gmap ArrayRef (list Loc);
  next_array : ArrayRef;
  observers : gmap ObserverRef JsMutationObserver;
  next_observer : ObserverRef;
  registrationsTable : gmap Node (list Registration);
  next_registration : nat
}.

Definition set_eventListeners (f : gmap Node (list EventListener) → gmap Node (list EventListener))
    (s : State) : State :=
  {| parentNode := parentNode s; eventListeners := f (eventListeners s);
     stopped := stopped s;
     heap := heap s; next_loc := next_loc s;
     arrays := arrays s; next_array := next_array s;
     observers := observers s; next_observer := next_observer s;
     registrationsTable := registrationsTable s;
     next_registration := next_registration s |}.

Definition set_heap (h : gmap Loc JsObject) (n : Loc) (s : State) : State :=
  {| parentNode := parentNode s; eventListeners := eventListeners s;
     stopped := stopped s;
     heap := h; next_loc := n;
     arrays := arrays s; next_array := next_array s;
     observers := observers s; next_observer := next_observer s;
     registrationsTable := registrationsTable s;
     next_registration := next_registration s |}.

Definition set_arrays (a : gmap ArrayRef (list Loc)) (n : ArrayRef) (s : State) : State :=
  {| parentNode := parentNode s; eventListeners := eventListeners s;
     stopped := stopped s;
     heap := heap s; next_loc := next_loc s;
     arrays := a; next_array := n;
     observers := observers s; next_observer := next_observer s;
     registrationsTable := registrationsTable s;
     next_registration := next_registration s |}.

Definition set_observers (o : gmap ObserverRef JsMutationObserver) (n : ObserverRef)
    (s : State) : State :=
  {| parentNode := parentNode s; eventListeners := eventListeners s;
     stopped := stopped s;
     heap := heap s; next_loc := next_loc s;
     arrays := arrays s; next_array := next_array s;
     observers := o; next_observer := n;
     registrationsTable := registrationsTable s;
     next_registration := next_registration s |}.

Definition set_registrationsTable (t : gmap Node (list Registration)) (s : State) : State :=
  {| parentNode := parentNode s; eventListeners := eventListeners s;
     stopped := stopped s;
     heap := heap s; next_loc := next_loc s;
     arrays := arrays s; next_array := next_array s;
     observers := observers s; next_observer := next_observer s;
     registrationsTable := t;
     next_registration := next_registration s |}.

Definition set_next_registration (n : nat) (s : State) : State :=
  {| parentNode := parentNode s; eventListeners := eventListeners s;
     stopped := stopped s;
     heap := heap s; next_loc := next_loc s;
     arrays := arrays s; next_array := next_array s;
     observers := observers s; next_observer := next_observer s;
     registrationsTable := registrationsTable s;
     next_registration := n |}.

(** The state in which event [e] has been stopped. *)
Definition stop_event (e : MutationEvent) (s : State) : State :=
  {| parentNode := parentNode s; eventListeners := eventListeners s;
     stopped := stopped s ++ [e];
     heap := heap s; next_loc := next_loc s;
     arrays := arrays s; next_array := next_array s;
     observers := observers s; next_observer := next_observer s;
     registrationsTable := registrationsTable s;
     next_registration := next_registration s |}.

(** The state in which the module has just been loaded over a document
    with the given tree. *)
Definition initial (parents : gmap Node Node) : State :=
  {| parentNode := parents; eventListeners := ∅; stopped := [];
     heap := <[mutationRecordPrototype := mutationRecordPrototype_obj]>
             (<[objectPrototype := objectPrototype_obj]> ∅);
     next_loc := 2;
     arrays := ∅; next_array := 0;
     observers := ∅; next_observer := 0;
     registrationsTable := ∅;
     next_registration := 0 |}.

(** ** The monad *)

(** What a call can end with besides a value.  [SyntaxError] and
    [TypeError] are the JavaScript exceptions.  [BadRef] marks the use of
    a reference that names no object, which no JavaScript program can
    hold; [OutOfFuel] marks a loop cut by the fuel of the embedding. *)
Inductive Exn := SyntaxError | TypeError | BadRef | OutOfFuel.

#[global] Instance Exn_eq_dec : EqDecision Exn.
Proof. solve_decision. Defined.

Inductive Result (A : Type) :=
| Ok (a : A) (s : State)
| Throw (e : Exn) (s : State).
Arguments Ok {A} a s.
Arguments Throw {A} e s.

Definition M (A : Type) : Type := State → Result A.

Definition state_of {A} (r : Result A) : State :=
  match r with Ok _ s => s | Throw _ s => s end.

#[global] Instance M_ret : MRet M := λ A a s, Ok a s.
#[global] Instance M_bind : MBind M := λ A B f m s,
  match m s with
  | Ok a s' => f a s'
  | Throw e s' => Throw e s'
  end.

Definition ret {A} (a : A) : M A := mret a.
Definition skip : M unit := ret tt.
Definition throw {A} (e : Exn) : M A := λ s, Throw e s.
Definition gets {A} (f : State → A) : M A := λ s, Ok (f s) s.
Definition modify (f : State → State) : M unit := λ s, Ok tt (f s).

(** Dereference in a store; a miss is [BadRef]. *)
Definition deref {A} (store : State → option A) : M A := λ s,
  match store s with
  | Some a => Ok a s
  | None => Throw BadRef s
  end.

(** ** Objects and arrays *)

(** [Object.getPrototypeOf(l)]. *)
Definition getPrototypeOf (l : Loc) : M (option Loc) :=
  o ← deref (λ s, heap s !! l);
  ret (obj_proto o).

(** [Object.create(proto)]: a fresh object without own properties. *)
Definition Object_create (proto : Loc) : M Loc := λ s,
  let l := next_loc s in
  Ok l (set_heap (<[l := {| obj_proto := Some proto; obj_props := ∅ |}]> (heap s)) (S l) s).

(** [l.k = v]: the assignment defines or overwrites an own property. *)
Definition set_prop (l : Loc) (k : string) (v : Value) : M unit :=
  o ← deref (λ s, heap s !! l);
  modify (λ s, set_heap
    (<[l := {| obj_proto := obj_proto o; obj_props := <[k := v]> (obj_props o) |}]> (heap s))
    (next_loc s) s).

(** Reading [l.k]: the own property, else the prototype's, and so on up
    the chain; [fuel] bounds the length of the chain that is followed. *)
Fixpoint get_prop (fuel : nat) (h : gmap Loc JsObject) (l : Loc) (k : string) : option Value :=
  match fuel with
  | 0 => None
  | S fuel' =>
      match h !! l with
      | None => None
      | Some o =>
          match obj_props o !! k with
          | Some v => Some v
          | None =>
              match obj_proto o with
              | Some p => get_prop fuel' h p k
              | None => None
              end
          end
      end
  end.

(** [[]]: a fresh empty array. *)
Definition new_array : M ArrayRef := λ s,
  let a := next_array s in
  Ok a (set_arrays (<[a := []]> (arrays s)) (S a) s).

Definition array_read (a : ArrayRef) : M (list Loc) :=
  deref (λ s, arrays s !! a).

(** [a[i]] for an index inside the array. *)
Definition array_get (a : ArrayRef) (i : nat) : M Loc :=
  deref (λ s, arrays s !! a ≫= (.!! i)).

(** [a[i] = v].  Within the array the element is overwritten; at
    [i = a.length] JavaScript extends the array by one element.  An index
    beyond that would leave holes, which the module never produces. *)
Definition array_store (a : ArrayRef) (i : nat) (v : Loc) : M unit :=
  l ← array_read a;
  if decide (i < length l) then
    modify (λ s, set_arrays (<[a := <[i := v]> l]> (arrays s)) (next_array s) s)
  else if decide (i = length l) then
    modify (λ s, set_arrays (<[a := l ++ [v]]> (arrays s)) (next_array s) s)
  else throw BadRef.

(** ** Observers as objects *)

Definition get_observer (this : ObserverRef) : M JsMutationObserver :=
  deref (λ s, observers s !! this).

(** The allocation of the object that [new] initialises. *)
Definition alloc_observer (o : JsMutationObserver) : M ObserverRef := λ s,
  let this := next_observer s in
  Ok this (set_observers (<[this := o]> (observers s)) (S this) s).

(** [this.records_ = a]. *)
Definition set_records_ (this : ObserverRef) (a : ArrayRef) : M unit :=
  o ← get_observer this;
  modify (λ s, set_observers
    (<[this := {| callback_ := callback_ o; nodes_ := nodes_ o; records_ := a |}]> (observers s))
    (next_observer s) s).

(** [this.nodes_.push(node)]. *)
Definition nodes_push (this : ObserverRef) (node : Node) : M unit :=
  o ← get_observer this;
  modify (λ s, set_observers
    (<[this := {| callback_ := callback_ o; nodes_ := nodes_ o ++ [node];
                  records_ := records_ o |}]> (observers s))
    (next_observer s) s).

(** ** The side table *)

(** Modelled from the spec: the class [SideTable] is not part of
    [src/].  The spec gives its contract, [get(node)] returning the
    node's entry or nothing and [set(node, entry)]; the entry stored for
    [registrationsTable] is the node's array of registrations. *)
Definition SideTable_get (node : Node) : M (option (list Registration)) :=
  gets (λ s, registrationsTable s !! node).

Definition SideTable_set (node : Node) (entry : list Registration) : M unit :=
  modify (λ s, set_registrationsTable (<[node := entry]> (registrationsTable s)) s).

(** The array stored in the table is mutated in place by the module; the
    three mutations it performs act on the entry of [node]. *)
Definition push_registration (node : Node) (r : Registration) (s : State) : State :=
  set_registrationsTable (alter (λ l, l ++ [r]) node (registrationsTable s)) s.

Definition splice_registration (node : Node) (i : nat) (s : State) : State :=
  set_registrationsTable (alter (delete i) node (registrationsTable s)) s.

Definition replace_options (node : Node) (i : nat) (o : MutationObserverInit)
    (s : State) : State :=
  set_registrationsTable
    (alter (alter (λ r, set_options r o) i) node (registrationsTable s)) s.

(** [registrations.push(r)]. *)
Definition registrations_push (node : Node) (r : Registration) : M unit :=
  modify (push_registration node r).

(** [registrations.splice(i, 1)]. *)
Definition registrations_splice (node : Node) (i : nat) : M unit :=
  modify (splice_registration node i).

(** [registrations[i].options = o]. *)
Definition registration_set_options (node : Node) (i : nat) (o : MutationObserverInit)
    : M unit :=
  modify (replace_options node i o).

(** ** Event listeners of the DOM *)

(** The DOM is the platform, not the module.  Its two operations follow
    the DOM standard: [addEventListener] appends the listener unless an
    entry with the same type, callback and capture flag is present;
    [removeEventListener] removes the entry with that type, callback and
    capture flag if there is one. *)
Definition listeners_of (s : State) (node : Node) : list EventListener :=
  default [] (eventListeners s !! node).

Definition add_listener (node : Node) (entry : EventListener) (s : State) : State :=
  let l := listeners_of s node in
  if decide (entry ∈ l) then s
  else set_eventListeners (insert node (l ++ [entry])) s.

Definition remove_listener (node : Node) (entry : EventListener) (s : State) : State :=
  let l := listeners_of s node in
  if decide (entry ∈ l) then
    set_eventListeners (insert node (filter (λ x, x ≠ entry) l)) s
  else s.

Definition addEventListener (node : Node) (type : string) (listener : ObjRef)
    (capture : bool) : M unit :=
  modify (add_listener node (type, listener, capture)).

Definition removeEventListener (node : Node) (type : string) (listener : ObjRef)
    (capture : bool) : M unit :=
  modify (remove_listener node (type, listener, capture)).

(** [e.stopImmediatePropagation()], also of the DOM: the event is
    delivered to no further listener. *)
Definition stopImmediatePropagation (e : MutationEvent) : M unit :=
  modify (stop_event e).

(** [l.forEach(f)], also used for the [for] loops that run over an array
    which their body does not change. *)
Fixpoint forEach {A} (l : list A) (f : A → M unit) : M unit :=
  match l with
  | [] => skip
  | x :: l' => f x;; forEach l' f
  end.

(** ** [Registration.prototype] *)

(** [Registration.prototype.enqueue]. *)
Definition enqueue (this : Registration) (record : Loc) : M unit :=
  o ← get_observer (observer this);
  let records := records_ o in
  contents ← array_read records;
  let length := length contents in
  if decide (0 < length) then
    last ← array_get records (length - 1);
    if decide (record = last) then skip
    else
      proto_last ← getPrototypeOf last;
      if decide (Some record = proto_last) then skip
      else
        proto_record ← getPrototypeOf record;
        if decide (proto_record = Some last) then
          array_store records (length - 1) record
        else
          array_store records length record
  else
    array_store records length record.

(** [Registration.prototype.addListeners]: the listener is [this]. *)
Definition addListeners (this : Registration) : M unit :=
  (if attributes (options this) then
     addEventListener (target this) "DOMAttrModified" (RegistrationRef (reg_id this)) true
   else skip);;
  (if characterData (options this) then
     addEventListener (target this) "DOMCharacterDataModified"
       (RegistrationRef (reg_id this)) true
   else skip).

(** [Registration.prototype.removeListeners]: the listener named in the
    calls is [this.observer]. *)
Definition removeListeners (this : Registration) : M unit :=
  (if attributes (options this) then
     removeEventListener (target this) "DOMAttrModified" (ObserverObjRef (observer this)) true
   else skip);;
  (if characterData (options this) then
     removeEventListener (target this) "DOMCharacterDataModified"
       (ObserverObjRef (observer this)) true
   else skip).

(** ** The ancestor walk *)

(** The body of the inner loop for one registration found at [node]. *)
Definition visit (node target : Node) (callback : MutationObserverInit → option Loc)
    (registration : Registration) : M unit :=
  let options := options registration in
  if bool_decide (node ≠ target) && negb (subtree options) then skip
  else
    match callback options with
    | Some record => enqueue registration record
    | None => skip
    end.

(** The outer loop from [node] on; [None] is the [null] parent that ends
    it.  The DOM tree is a value of the state, so the loop takes fuel:
    one unit per visited node. *)
Fixpoint ancestor_loop (fuel : nat) (node : option Node) (target : Node)
    (callback : MutationObserverInit → option Loc) : M unit :=
  match node with
  | None => skip
  | Some n =>
      match fuel with
      | 0 => throw OutOfFuel
      | S fuel' =>
          registrations ← SideTable_get n;
          match registrations with
          | Some registrations => forEach registrations (visit n target callback)
          | None => skip
          end;;
          parent ← gets (λ s, parentNode s !! n);
          ancestor_loop fuel' parent target callback
      end
  end.

(** [forEachAncestorAndObserverEnqueueRecord]. *)
Definition forEachAncestorAndObserverEnqueueRecord (fuel : nat) (target : Node)
    (callback : MutationObserverInit → option Loc) : M unit :=
  ancestor_loop fuel (Some target) target callback.

(** ** [JsMutationObserver] *)

(** [new JsMutationObserver(callback)]. *)
Definition new_JsMutationObserver (callback : nat) : M ObserverRef :=
  records ← new_array;
  alloc_observer {| callback_ := callback; nodes_ := []; records_ := records |}.

(** [new Registration(observer, target, options)]. *)
Definition new_Registration (observer : ObserverRef) (target : Node)
    (options : MutationObserverInit) : M Registration := λ s,
  let id := next_registration s in
  Ok {| reg_id := id; observer := observer; target := target; options := options |}
     (set_next_registration (S id) s).

(** The test of [observe] on its options (steps 1.1 to 1.4). *)
Definition filter_nonempty (options : MutationObserverInit) : bool :=
  match attributeFilter options with
  | Some f => negb (bool_decide (length f = 0))
  | None => false
  end.

Definition config_invalid (options : MutationObserverInit) : bool :=
  negb (childList options) && negb (attributes options) && negb (characterData options)
  || attributeOldValue options && negb (attributes options)
  || filter_nonempty options && negb (attributes options)
  || characterDataOldValue options && negb (characterData options).

(** Step 2 of [observe], the loop over [registrations] from index [i] on:
    the first registration of [this] has its listeners removed and its
    options replaced, and the loop breaks. *)
Fixpoint observe_loop (this : ObserverRef) (node : Node) (options : MutationObserverInit)
    (registrations : list Registration) (i : nat) : M (option Registration) :=
  match registrations with
  | [] => ret None
  | registration :: rest =>
      if decide (observer registration = this) then
        removeListeners registration;;
        registration_set_options node i options;;
        ret (Some (set_options registration options))
      else observe_loop this node options rest (S i)
  end.

(** [JsMutationObserver.prototype.observe]. *)
Definition observe (this : ObserverRef) (target : Node) (options : MutationObserverInit)
    : M unit :=
  if config_invalid options then throw SyntaxError
  else
    found ← SideTable_get target;
    registrations ← match found with
                    | Some registrations => ret registrations
                    | None => SideTable_set target [];; ret []
                    end;
    registration ← observe_loop this target options registrations 0;
    registration ← match registration with
                   | Some registration => ret registration
                   | None =>
                       registration ← new_Registration this target options;
                       registrations_push target registration;;
                       nodes_push this target;;
                       ret registration
                   end;
    addListeners registration.

(** The loop of [disconnect] over the registrations of [node] from index
    [i] on: the first registration of [this] is removed, and the loop
    breaks. *)
Fixpoint disconnect_loop (this : ObserverRef) (node : Node)
    (registrations : list Registration) (i : nat) : M unit :=
  match registrations with
  | [] => skip
  | registration :: rest =>
      if decide (observer registration = this) then
        removeListeners registration;;
        registrations_splice node i
      else disconnect_loop this node rest (S i)
  end.

(** [JsMutationObserver.prototype.disconnect].  Reading [length] of a
    missing table entry is a [TypeError]. *)
Definition disconnect (this : ObserverRef) : M unit :=
  o ← get_observer this;
  forEach (nodes_ o) (λ node,
    found ← SideTable_get node;
    match found with
    | Some registrations => disconnect_loop this node registrations 0
    | None => throw TypeError
    end);;
  records ← new_array;
  set_records_ this records.

(** [JsMutationObserver.prototype.takeRecords]: the array that [records_]
    referred to is returned itself. *)
Definition takeRecords (this : ObserverRef) : M ArrayRef :=
  o ← get_observer this;
  let copyOfRecords := records_ o in
  records ← new_array;
  set_records_ this records;;
  ret copyOfRecords.

(** ** [Registration.prototype.handleEvent] *)

Definition value_of_namespace (namespace : option string) : Value :=
  match namespace with
  | Some ns => VString ns
  | None => VNull
  end.

(** [filter.indexOf(v)] on an array of strings: the first index whose
    element is strictly equal to [v], else [-1]. *)
Fixpoint indexOf_from (filter : list string) (v : Value) (i : Z) : Z :=
  match filter with
  | [] => (-1)%Z
  | x :: rest => if decide (VString x = v) then i else indexOf_from rest v (i + 1)%Z
  end.

Definition indexOf (filter : list string) (v : Value) : Z := indexOf_from filter v 0.

(** The callback that [handleEvent] gives to the walk for
    [DOMAttrModified]; it closes over [name], [namespace] and the two
    record objects. *)
Definition attributes_callback (name : string) (namespace : option string)
    (record recordWithOldValue : Loc) (options : MutationObserverInit) : option Loc :=
  if negb (attributes options) then None
  else if match attributeFilter options with
          | Some filter =>
              negb (bool_decide (length filter = 0))
              && bool_decide (indexOf filter (VString name) = (-1)%Z)
              && bool_decide (indexOf filter (value_of_namespace namespace) = (-1)%Z)
          | None => false
          end
  then None
  else if attributeOldValue options then Some recordWithOldValue
  else Some record.

(** The callback for [DOMCharacterDataModified]. *)
Definition characterData_callback (record recordWithOldValue : Loc)
    (options : MutationObserverInit) : option Loc :=
  if negb (characterData options) then None
  else if characterDataOldValue options then Some recordWithOldValue
  else Some record.

(** Steps 1 and 2 of the [DOMAttrModified] case: the two record objects. *)
Definition attributes_records (e : MutationEvent) : M (Loc * Loc) :=
  record ← Object_create mutationRecordPrototype;
  set_prop record "type" (VString "attributes");;
  set_prop record "target" (VNode (ev_target e));;
  set_prop record "attributeName" (VString (attrName e));;
  set_prop record "attributeNamespace" (value_of_namespace (namespaceURI e));;
  recordWithOldValue ← Object_create record;
  set_prop recordWithOldValue "oldValue"
    (if decide (attrChange e = ADDITION) then VNull else VString (prevValue e));;
  ret (record, recordWithOldValue).

(** Steps 1 and 2 of the [DOMCharacterDataModified] case. *)
Definition characterData_records (e : MutationEvent) : M (Loc * Loc) :=
  record ← Object_create mutationRecordPrototype;
  set_prop record "type" (VString "characterData");;
  set_prop record "target" (VNode (ev_target e));;
  recordWithOldValue ← Object_create record;
  set_prop recordWithOldValue "oldValue" (VString (prevValue e));;
  ret (record, recordWithOldValue).

(** The [switch] of [handleEvent] on the type of the event.  An event
    of another type falls through it. *)
Definition handleEvent_switch (fuel : nat) (e : MutationEvent) : M unit :=
  if decide (ev_type e = "DOMAttrModified") then
    records ← attributes_records e;
    forEachAncestorAndObserverEnqueueRecord fuel (ev_target e)
      (attributes_callback (attrName e) (namespaceURI e) records.1 records.2)
  else if decide (ev_type e = "DOMCharacterDataModified") then
    records ← characterData_records e;
    forEachAncestorAndObserverEnqueueRecord fuel (ev_target e)
      (characterData_callback records.1 records.2)
  else skip.

(** [handleEvent].  The handler does not read [this].  It stops the
    propagation of the event, whatever its type, and then runs the
    [switch]. *)
Definition handleEvent (fuel : nat) (e : MutationEvent) : M unit :=
  stopImmediatePropagation e;;
  handleEvent_switch fuel e.

(** ** Notions used by the statements *)

(** The prototype of [l] in a heap, [None] when it is [null] or [l]
    names no object. *)
Definition proto_of (h : gmap Loc JsObject) (l : Loc) : option Loc :=
  h !! l ≫= obj_proto.

(** Objects are created after their prototype, so prototype chains
    descend. *)
Definition proto_below (l : Loc) (o : JsObject) : Prop :=
  match obj_proto o with
  | Some p => p < l
  | None => True
  end.

#[global] Instance proto_below_dec l o : Decision (proto_below l o).
Proof. unfold proto_below. destruct (obj_proto o); apply _. Defined.

Definition heap_acyclic (h : gmap Loc JsObject) : Prop :=
  map_Forall proto_below h.

#[global] Instance heap_acyclic_dec h : Decision (heap_acyclic h).
Proof. unfold heap_acyclic. apply _. Defined.

(** The state in which array [a] holds [l]. *)
Definition store_array (a : ArrayRef) (l : list Loc) (s : State) : State :=
  set_arrays (<[a := l]> (arrays s)) (next_array s) s.

(** ** Sample runs *)

(** Options that watch attributes, with or without old values and
    subtree. *)
Definition watch_attributes (oldValue sub : bool) : MutationObserverInit :=
  {| childList := false; attributes := true; characterData := false;
     subtree := sub; attributeOldValue := oldValue;
     characterDataOldValue := false; attributeFilter := None |}.

(** A modification of attribute [id] on node 2. *)
Definition sample_event : MutationEvent :=
  {| ev_type := "DOMAttrModified"; ev_target := 2; attrName := "id";
     namespaceURI := None; attrChange := 1; prevValue := "old" |}.

(** The registration that the first [observe] of observer 0 on node 1
    creates. *)
Definition sample_registration : Registration :=
  {| reg_id := 0; observer := 0; target := 1; options := watch_attributes true true |}.

(** A document in which node 1 is the parent of node 2; one observer
    registered on node 1; the two records of [sample_event] created, and
    the base record queued. *)
Definition sample_queued : State :=
  state_of
    ((this ← new_JsMutationObserver 0;
      observe this 1 (watch_attributes true true);;
      records ← attributes_records sample_event;
      enqueue sample_registration records.1) (initial {[ 2 := 1 ]})).

(** The state a call ends in, whether it returns or throws. *)
Definition exec {A} (m : M A) (s : State) : State := state_of (m s).

(** The options break an invariant of the specification: none of the
    three change kinds is watched, or old attribute values are asked for
    without watching attributes, or a non-empty attribute filter is given
    without watching attributes, or old character data is asked for
    without watching character data. *)
Definition violates_invariants (options : MutationObserverInit) : Prop :=
  (childList options = false ∧ attributes options = false
   ∧ characterData options = false)
  ∨ (attributeOldValue options = true ∧ attributes options = false)
  ∨ ((∃ f, attributeFilter options = Some f ∧ f ≠ []) ∧ attributes options = false)
  ∨ (characterDataOldValue options = true ∧ characterData options = false).

(** Every state a call can end in is related to the one it started in. *)
Definition preserves {A} (R : relation State) (m : M A) : Prop :=
  ∀ s, R s (exec m s).

(** The relation of two states that agree on a component. *)
Definition frame {X} (f : State → X) : relation State := λ s s', f s' = f s.

(** ** The dispatch as the specification words it *)

(** [chain] lists the nodes from [node] upwards: the node, its parent,
    and so on, up to the node that has no parent. *)
Fixpoint is_chain (parents : gmap Node Node) (node : option Node) (chain : list Node)
    : Prop :=
  match chain with
  | [] => node = None
  | n :: chain' => node = Some n ∧ is_chain parents (parents !! n) chain'
  end.

(** A registration found at [node] is not skipped. *)
Definition applies (node target : Node) (r : Registration) : Prop :=
  node = target ∨ subtree (options r) = true.

#[global] Instance applies_dec node target r : Decision (applies node target r).
Proof. unfold applies. apply _. Defined.

(** The records to enqueue for the registrations found at [node], in
    their order: for every registration that is not skipped, the record
    that the builder returns for its options, if it returns one. *)
Definition dispatched_at (target : Node) (callback : MutationObserverInit → option Loc)
    (node : Node) (registrations : list Registration) : list (Registration * Loc) :=
  omap (λ r, if decide (applies node target r)
             then (λ record, (r, record)) <$> callback (options r)
             else None) registrations.

(** The same along a chain of nodes. *)
Definition dispatched (table : gmap Node (list Registration)) (target : Node)
    (callback : MutationObserverInit → option Loc) (chain : list Node)
    : list (Registration * Loc) :=
  chain ≫= λ node, dispatched_at target callback node (default [] (table !! node)).

(** Enqueuing a pair of a registration and a record. *)
Definition enqueue_pair (p : Registration * Loc) : M unit := enqueue p.1 p.2.

(** A document in which node 1 is the parent of node 2, with two
    observers registered on node 1: observer 0 for the subtree and with
    old values, observer 1 for node 1 alone. *)
Definition sample_observed : State :=
  state_of
    ((this ← new_JsMutationObserver 0;
      other ← new_JsMutationObserver 0;
      observe this 1 (watch_attributes true true);;
      observe other 1 (watch_attributes false false)) (initial {[ 2 := 1 ]})).

(** Options that watch the attributes named by the filter [["id"]]. *)
Definition watch_id : MutationObserverInit :=
  {| childList := false; attributes := true; characterData := false;
     subtree := false; attributeOldValue := false;
     characterDataOldValue := false; attributeFilter := Some ["id"] |}.

(** The attribute filter of the options, if it is not empty, lets the
    change of attribute [name] in [namespace] through. *)
Definition filter_passes (name : string) (namespace : option string)
    (options : MutationObserverInit) : Prop :=
  ∀ filter, attributeFilter options = Some filter → filter ≠ [] →
    name ∈ filter ∨ ∃ ns, namespace = Some ns ∧ ns ∈ filter.

(** The own property [k] of object [l]. *)
Definition own_prop (h : gmap Loc JsObject) (l : Loc) (k : string) : option Value :=
  h !! l ≫= λ o, obj_props o !! k.

(** Options that watch character data only. *)
Definition watch_characterData : MutationObserverInit :=
  {| childList := false; attributes := false; characterData := true;
     subtree := false; attributeOldValue := false;
     characterDataOldValue := false; attributeFilter := None |}.

(** Every listener on every node is a registration: the module passes
    nothing else to [addEventListener]. *)
Definition is_registration (entry : EventListener) : Prop :=
  match entry.1.2 with
  | RegistrationRef _ => True
  | ObserverObjRef _ => False
  end.

#[global] Instance is_registration_dec entry : Decision (is_registration entry).
Proof. unfold is_registration. destruct (entry.1.2); apply _. Defined.

Definition listeners_are_registrations (s : State) : Prop :=
  map_Forall (λ _ l, Forall is_registration l) (eventListeners s).

#[global] Instance listeners_are_registrations_dec s :
  Decision (listeners_are_registrations s).
Proof. unfold listeners_are_registrations. apply _. Defined.

(** ** Invariants and calls *)

(** Every node holds at most one registration of an observer. *)
Definition one_per_observer (s : State) : Prop :=
  map_Forall (λ _ regs, NoDup (observer <$> regs)) (registrationsTable s).

#[global] Instance one_per_observer_dec s : Decision (one_per_observer s).
Proof. unfold one_per_observer. apply _. Defined.

(** The relation of a state to the states in which a property that held
    in it still holds. *)
Definition keeps (I : State → Prop) : relation State := λ s s', I s → I s'.

(** The operations of the module: the constructor, the three methods of
    an observer, and the two entry points of a registration. *)
Inductive Call :=
| New (callback : nat)
| Observe (this : ObserverRef) (target : Node) (options : MutationObserverInit)
| Disconnect (this : ObserverRef)
| TakeRecords (this : ObserverRef)
| HandleEvent (fuel : nat) (e : MutationEvent)
| Enqueue (this : Registration) (record : Loc).

Definition call (c : Call) : M unit :=
  match c with
  | New callback => new_JsMutationObserver callback;; skip
  | Observe this target options => observe this target options
  | Disconnect this => disconnect this
  | TakeRecords this => takeRecords this;; skip
  | HandleEvent fuel e => handleEvent fuel e
  | Enqueue this record => enqueue this record
  end.

(** The state after a sequence of calls, each run in the state in which
    the previous one ended, whether it returned or threw. *)
Definition run_calls (calls : list Call) (s : State) : State :=
  foldl (λ s c, exec (call c) s) s calls.

(** [sample_observed] before the [observe] of observer 1. *)
Definition sample_first : State :=
  state_of
    ((this ← new_JsMutationObserver 0;
      other ← new_JsMutationObserver 0;
      observe this 1 (watch_attributes true true)) (initial {[ 2 := 1 ]})).

(** ** The queues *)

(** Array references are handed out in increasing order. *)
Definition arrays_allocated (s : State) : Prop :=
  map_Forall (λ a _, a < next_array s) (arrays s).

(** The queue of every observer is an array of the store. *)
Definition queues_allocated (s : State) : Prop :=
  map_Forall (λ _ o, is_Some (arrays s !! records_ o)) (observers s).

(** Two observers do not share their queue. *)
Definition queues_separate (s : State) : Prop :=
  map_Forall (λ this o,
    map_Forall (λ this' o', records_ o = records_ o' → this = this') (observers s))
    (observers s).

Definition queues_wf (s : State) : Prop :=
  arrays_allocated s ∧ queues_allocated s ∧ queues_separate s.

#[global] Instance queues_wf_dec s : Decision (queues_wf s).
Proof.
  unfold queues_wf, arrays_allocated, queues_allocated, queues_separate. apply _.
Defined.

(** Array [a] has been allocated and is the queue of no observer. *)
Definition retired (a : ArrayRef) (s : State) : Prop :=
  a < next_array s ∧ map_Forall (λ _ o, records_ o ≠ a) (observers s).

(** From a state in which [a] is retired to one in which it still is,
    with the same contents. *)
Definition untouched (a : ArrayRef) : relation State := λ s s',
  retired a s → retired a s' ∧ arrays s' !! a = arrays s !! a.

(** The state in which observer [this], which was [o], has got a fresh
    empty queue. *)
Definition fresh_queue (this : ObserverRef) (o : JsMutationObserver) (s : State) : State :=
  set_observers
    (<[this := {| callback_ := callback_ o; nodes_ := nodes_ o;
                  records_ := next_array s |}]> (observers s))
    (next_observer s)
    (set_arrays (<[next_array s := []]> (arrays s)) (S (next_array s)) s).

(** ** Node lists *)

(** The observer of registration [r], found at [node], lists [node]. *)
Definition lists_node (obs : gmap ObserverRef JsMutationObserver) (node : Node)
    (r : Registration) : Prop :=
  match obs !! observer r with
  | Some o => node ∈ nodes_ o
  | None => False
  end.

#[global] Instance lists_node_dec obs node r : Decision (lists_node obs node r).
Proof. unfold lists_node. destruct (obs !! observer r); apply _. Defined.

(** Every node that an observer lists has an entry in the table, and
    every registration is found at a node that its observer lists. *)
Definition nodes_listed_in (table : gmap Node (list Registration))
    (obs : gmap ObserverRef JsMutationObserver) : Prop :=
  map_Forall (λ _ o, Forall (λ node, is_Some (table !! node)) (nodes_ o)) obs
  ∧ map_Forall (λ node regs, Forall (lists_node obs node) regs) table.

Definition nodes_listed (s : State) : Prop :=
  nodes_listed_in (registrationsTable s) (observers s).

#[global] Instance nodes_listed_dec s : Decision (nodes_listed s).
Proof. unfold nodes_listed, nodes_listed_in. apply _. Defined.

(** Observer references are handed out in increasing order. *)
Definition observers_allocated (s : State) : Prop :=
  map_Forall (λ this _, this < next_observer s) (observers s).

#[global] Instance observers_allocated_dec s : Decision (observers_allocated s).
Proof. unfold observers_allocated. apply _. Defined.

(** The invariants of the states that the module reaches. *)
Definition wf (s : State) : Prop :=
  one_per_observer s ∧ listeners_are_registrations s ∧ queues_wf s
  ∧ nodes_listed s ∧ observers_allocated s.

#[global] Instance wf_dec s : Decision (wf s).
Proof. unfold wf. apply _. Defined.

(** The observer that a method is called on exists, and the record that
    [enqueue] is called with is an object. *)
Definition call_ok (c : Call) (s : State) : Prop :=
  match c with
  | Observe this _ _ | Disconnect this | TakeRecords this => is_Some (observers s !! this)
  | Enqueue _ record => is_Some (heap s !! record)
  | New _ | HandleEvent _ _ => True
  end.

(** The body of the [forEach] of [disconnect]. *)
Definition disconnect_node (this : ObserverRef) (node : Node) : M unit :=
  found ← SideTable_get node;
  match found with
  | Some registrations => disconnect_loop this node registrations 0
  | None => throw TypeError
  end.

(** The part of [wf] that ties observers, node lists and the table. *)
Definition registry_wf (s : State) : Prop :=
  nodes_listed s ∧ observers_allocated s.

(** Every call of a sequence is made on an observer that exists. *)
Fixpoint calls_ok (calls : list Call) (s : State) : Prop :=
  match calls with
  | [] => True
  | c :: calls' => call_ok c s ∧ calls_ok calls' (exec (call c) s)
  end.

(** The queue of observer [this], read through its array. *)
Definition queue_of (s : State) (this : ObserverRef) : option (list Loc) :=
  o ← observers s !! this; arrays s !! records_ o.

(** One observer with two registrations on the chain of node 2: on
    node 2 itself with options [own], and on its parent, node 1, for the
    subtree with options [above]. *)
Definition sample_chain (own above : MutationObserverInit) : State :=
  state_of
    ((this ← new_JsMutationObserver 0;
      observe this 2 own;;
      observe this 1 above) (initial {[ 2 := 1 ]})).

(** Every queued record is an object of the heap. *)
Definition queues_in_heap (s : State) : Prop :=
  map_Forall (λ _ l, Forall (λ x, is_Some (heap s !! x)) l) (arrays s).

#[global] Instance queues_in_heap_dec s : Decision (queues_in_heap s).
Proof. unfold queues_in_heap. apply _. Defined.

(** Prototype chains descend, and [mutationRecordPrototype] lies below
    the locations that are still free. *)
Definition heap_wf (s : State) : Prop :=
  heap_acyclic (heap s) ∧ mutationRecordPrototype < next_loc s.

#[global] Instance heap_wf_dec s : Decision (heap_wf s).
Proof. unfold heap_wf. apply _. Defined.

(** A registration is kept in the list of its own target. *)
Definition targets_match (s : State) : Prop :=
  map_Forall (λ node regs, Forall (λ r, target r = node) regs) (registrationsTable s).

#[global] Instance targets_match_dec s : Decision (targets_match s).
Proof. unfold targets_match. apply _. Defined.

(** ** One change, one record *)

(** Every object of the heap lies below the locations that are free. *)
Definition heap_allocated (s : State) : Prop :=
  map_Forall (λ l _, l < next_loc s) (heap s).

(** The queues hold objects created after [mutationRecordPrototype]:
    records, not the prototype object itself. *)
Definition queues_hold_records (s : State) : Prop :=
  map_Forall (λ _ l, Forall (λ x, mutationRecordPrototype < x) l) (arrays s).

(** The invariants of the heap and of the records in the queues. *)
Definition records_wf (s : State) : Prop :=
  heap_wf s ∧ heap_allocated s ∧ queues_in_heap s ∧ queues_hold_records s.

#[global] Instance records_wf_dec s : Decision (records_wf s).
Proof. unfold records_wf, heap_allocated, queues_hold_records. apply _. Defined.

(** The event is one of the two that [handleEvent] has a case for. *)
Definition is_mutation (e : MutationEvent) : Prop :=
  ev_type e = "DOMAttrModified" ∨ ev_type e = "DOMCharacterDataModified".

#[global] Instance is_mutation_dec e : Decision (is_mutation e).
Proof. unfold is_mutation. apply _. Defined.

(** The builder that [handleEvent] hands to the walk for event [e], over
    the two record objects it has created. *)
Definition builder_of (e : MutationEvent) (record recordWithOldValue : Loc)
    : MutationObserverInit → option Loc :=
  if decide (ev_type e = "DOMAttrModified") then
    attributes_callback (attrName e) (namespaceURI e) record recordWithOldValue
  else characterData_callback record recordWithOldValue.

(** The registrations and records that the walk for [e] in state [s]
    enqueues: the two records are the next two objects of the heap. *)
Definition dispatched_for (e : MutationEvent) (s : State) (chain : list Node)
    : list (Registration * Loc) :=
  dispatched (registrationsTable s) (ev_target e)
    (builder_of e (next_loc s) (S (next_loc s))) chain.

(** The records among them that go to the registrations of [this]. *)
Definition records_for (this : ObserverRef) (pairs : list (Registration * Loc))
    : list Loc :=
  (filter (λ p, observer p.1 = this) pairs).*2.

(** What a run of records of one change leaves at the end of a queue:
    nothing if there is none, the record with the old value if it is
    among them, else the base record. *)
Definition coalesced (record recordWithOldValue : Loc) (records : list Loc) : list Loc :=
  if decide (records = []) then []
  else if decide (recordWithOldValue ∈ records) then [recordWithOldValue]
  else [record].

(** The tail of a queue, made of records of the current change, after
    one more of them is enqueued. *)
Definition absorb (recordWithOldValue : Loc) (tail : list Loc) (record : Loc) : list Loc :=
  match tail with
  | [] => [record]
  | _ => if decide (record = recordWithOldValue) then [recordWithOldValue] else tail
  end.

(** The parent chain of [target] is finite and [fuel] covers it. *)
Definition walkable (s : State) (fuel : nat) (target : Node) (chain : list Node) : Prop :=
  is_chain (parentNode s) (Some target) chain ∧ length chain ≤ fuel.

(** A direct call of [enqueue] is made with a record: an object created
    after [mutationRecordPrototype]. *)
Definition enqueues_records (c : Call) : Prop :=
  match c with
  | Enqueue _ record => mutationRecordPrototype < record
  | _ => True
  end.

#[global] Instance enqueues_records_dec c : Decision (enqueues_records c).
Proof. destruct c; simpl; apply _. Defined.

(** The walk for [e] in state [s] meets a registration of [this] that is
    not skipped and for whose options the builder returns [record]. *)
Definition gets_record (e : MutationEvent) (s : State) (chain : list Node)
    (this : ObserverRef) (record : Loc) : Prop :=
  ∃ node r, node ∈ chain ∧ r ∈ default [] (registrationsTable s !! node)
            ∧ observer r = this ∧ applies node (ev_target e) r
            ∧ builder_of e (next_loc s) (S (next_loc s)) (options r) = Some record.

(** ** Listeners stay *)

(** From a state whose listeners are registrations to one whose
    listeners are registrations still, and in which every node has the
    listeners it had, in their order, and after them those that have been
    attached since. *)
Definition listeners_grow : relation State := λ s s',
  listeners_are_registrations s →
  listeners_are_registrations s'
  ∧ ∀ node, listeners_of s node `prefix_of` listeners_of s' node.

(** ** Reading records *)

(** The two objects that the module finds or makes when it is loaded,
    [Object.prototype] and [mutationRecordPrototype], are in the heap as
    they were made. *)
Definition prototypes_intact (s : State) : Prop :=
  heap s !! objectPrototype = Some objectPrototype_obj
  ∧ heap s !! mutationRecordPrototype = Some mutationRecordPrototype_obj.

(** The fields of a [MutationRecord] that the module never assigns. *)
Definition unset_fields : list string :=
  ["addedNodes"; "removedNodes"; "previousSibling"; "nextSibling"].

(** A change of the character data of node 2. *)
Definition sample_text_event : MutationEvent :=
  {| ev_type := "DOMCharacterDataModified"; ev_target := 2; attrName := "";
     namespaceURI := None; attrChange := 0; prevValue := "before" |}.

(** ** The walk and the queues *)

(** What [enqueue] of [record] makes of a queue, in heap [h]: an empty
    queue gets the record; a queue whose last entry is the record, or an
    object whose prototype is the record, stays as it is; a queue whose
    last entry is the prototype of the record gets the record in the
    place of that entry; any other queue gets the record at its end. *)
Definition enqueued (h : gmap Loc JsObject) (queue : list Loc) (record : Loc) : list Loc :=
  match last queue with
  | None => queue ++ [record]
  | Some l =>
      if decide (record = l) then queue
      else if decide (proto_of h l = Some record) then queue
      else if decide (proto_of h record = Some l)
           then <[length queue - 1 := record]> queue
           else queue ++ [record]
  end.

(** [sample_observed] with the two records of [sample_event] created:
    the base record at location 2 and the record with the old value at
    location 3. *)
Definition sample_walk : State :=
  exec (attributes_records sample_event) sample_observed.

(** An event of a type that [handleEvent] has no case for: the insertion
    of a node. *)
Definition sample_foreign_event : MutationEvent :=
  {| ev_type := "DOMNodeInserted"; ev_target := 2; attrName := "";
     namespaceURI := None; attrChange := 0; prevValue := "" |}.

(** * Properties *)

(** ** Running the monad *)

Lemma run_bind {A B} (m : M A) (f : A → M B) (s : State) :
  (m ≫= f) s = match m s with Ok a s' => f a s' | Throw e s' => Throw e s' end.
Proof. reflexivity. Qed.

Lemma run_deref {A} (store : State → option A) (s : State) (a : A) :
  store s = Some a → deref store s = Ok a s.
Proof. unfold deref. by intros ->. Qed.

(** [handleEvent] is its [switch], run once the event is stopped. *)
Lemma handleEvent_run fuel e s :
  handleEvent fuel e s = handleEvent_switch fuel e (stop_event e s).
Proof. unfold handleEvent. by rewrite run_bind. Qed.

Lemma run_getPrototypeOf l s o :
  heap s !! l = Some o → getPrototypeOf l s = Ok (obj_proto o) s.
Proof.
  intros H. unfold getPrototypeOf. by rewrite run_bind, (run_deref _ _ _ H).
Qed.

Lemma run_array_store_in a i v s l :
  arrays s !! a = Some l → i < length l →
  array_store a i v s = Ok tt (store_array a (<[i := v]> l) s).
Proof.
  intros H Hi. unfold array_store, array_read.
  rewrite run_bind, (run_deref _ _ _ H). by rewrite decide_True.
Qed.

Lemma run_array_store_end a v s l :
  arrays s !! a = Some l →
  array_store a (length l) v s = Ok tt (store_array a (l ++ [v]) s).
Proof.
  intros H. unfold array_store, array_read.
  rewrite run_bind, (run_deref _ _ _ H).
  rewrite decide_False by lia. by rewrite decide_True.
Qed.

(** ** Coalescing in [enqueue] *)

Lemma lookup_snoc_last {A} (init : list A) (x : A) :
  (init ++ [x]) !! (length (init ++ [x]) - 1) = Some x.
Proof.
  rewrite length_app. simpl.
  replace (length init + 1 - 1) with (length init + 0) by lia.
  by rewrite lookup_app_r, Nat.add_0_r, Nat.sub_diag by lia.
Qed.

Lemma insert_snoc_last {A} (init : list A) (x y : A) :
  <[length (init ++ [x]) - 1 := y]> (init ++ [x]) = init ++ [y].
Proof.
  rewrite length_app. simpl.
  replace (length init + 1 - 1) with (length init + 0) by lia.
  by rewrite insert_app_r.
Qed.

Lemma enqueue_empty this record s o :
  observers s !! observer this = Some o →
  arrays s !! records_ o = Some [] →
  enqueue this record s = Ok tt (store_array (records_ o) [record] s).
Proof.
  intros Ho Ha. unfold enqueue, get_observer, array_read.
  rewrite run_bind, (run_deref _ _ _ Ho). simpl.
  rewrite run_bind, (run_deref _ _ _ Ha). simpl.
  apply (run_array_store_end _ _ _ _ Ha).
Qed.

(** The four branches of [enqueue] on a non-empty queue, in the order of
    the source. *)
Lemma enqueue_nonempty this record s o init last olast orecord :
  observers s !! observer this = Some o →
  arrays s !! records_ o = Some (init ++ [last]) →
  heap s !! last = Some olast →
  heap s !! record = Some orecord →
  enqueue this record s =
    if decide (record = last) then Ok tt s
    else if decide (Some record = obj_proto olast) then Ok tt s
    else if decide (obj_proto orecord = Some last) then
      Ok tt (store_array (records_ o) (init ++ [record]) s)
    else Ok tt (store_array (records_ o) ((init ++ [last]) ++ [record]) s).
Proof.
  intros Ho Ha Hl Hr. unfold enqueue, get_observer, array_read.
  rewrite run_bind, (run_deref _ _ _ Ho). simpl.
  rewrite run_bind, (run_deref _ _ _ Ha). simpl.
  rewrite decide_True by (rewrite length_app; simpl; lia).
  unfold array_get. rewrite run_bind.
  erewrite run_deref; last by (rewrite Ha; simpl; apply lookup_snoc_last).
  destruct (decide (record = last)) as [->|Hne]; first done.
  rewrite run_bind, (run_getPrototypeOf _ _ _ Hl).
  destruct (decide (Some record = obj_proto olast)); first done.
  rewrite run_bind, (run_getPrototypeOf _ _ _ Hr).
  destruct (decide (obj_proto orecord = Some last)).
  - rewrite (run_array_store_in _ _ _ _ _ Ha) by (rewrite length_app; simpl; lia).
    by rewrite insert_snoc_last.
  - by rewrite (run_array_store_end _ _ _ _ Ha).
Qed.

(** In a heap whose prototype chains descend no object is its own
    prototype and no two objects are each other's. *)
Lemma acyclic_proto_lt h l p :
  heap_acyclic h → proto_of h l = Some p → p < l.
Proof.
  unfold proto_of. intros Hh Hp.
  destruct (h !! l) as [o|] eqn:Hl; simplify_eq/=.
  specialize (Hh l o Hl). unfold proto_below in Hh. by rewrite Hp in Hh.
Qed.

(** C1.  [enqueue] on the queue of the registration's observer: onto an
    empty queue the record is appended; a record identical to the last
    queued one, or the prototype (base) of the last queued one, is
    dropped and nothing changes; a record whose prototype (base) is the
    last queued one takes its place; any other record is appended.  The
    tests are on object identity: a record distinct from the last one is
    appended even when both objects have the same prototype and the same
    properties. *)
Theorem enqueue_coalesces (this : Registration) (record : Loc) (s : State)
    (o : JsMutationObserver) (contents : list Loc) :
  observers s !! observer this = Some o →
  arrays s !! records_ o = Some contents →
  heap_acyclic (heap s) →
  is_Some (heap s !! record) →
  Forall (λ l, is_Some (heap s !! l)) contents →
  (contents = [] →
     enqueue this record s = Ok tt (store_array (records_ o) [record] s))
  ∧ (∀ init last, contents = init ++ [last] →
       (record = last ∨ proto_of (heap s) last = Some record →
          enqueue this record s = Ok tt s)
       ∧ (proto_of (heap s) record = Some last →
          enqueue this record s = Ok tt (store_array (records_ o) (init ++ [record]) s))
       ∧ (record ≠ last → proto_of (heap s) last ≠ Some record →
          proto_of (heap s) record ≠ Some last →
          enqueue this record s
          = Ok tt (store_array (records_ o) (contents ++ [record]) s))
       ∧ (record ≠ last → heap s !! record = heap s !! last →
          enqueue this record s
          = Ok tt (store_array (records_ o) (contents ++ [record]) s))).
Proof.
  intros Ho Ha Hacyc [orecord Hr] Hall. split.
  { intros ->. by apply enqueue_empty. }
  intros init last ->.
  apply Forall_app in Hall as [_ Hlast].
  apply Forall_singleton in Hlast as [olast Hl].
  pose proof (enqueue_nonempty this record s o init last olast orecord Ho Ha Hl Hr) as E.
  assert (Hpl : proto_of (heap s) last = obj_proto olast)
    by (unfold proto_of; by rewrite Hl).
  assert (Hpr : proto_of (heap s) record = obj_proto orecord)
    by (unfold proto_of; by rewrite Hr).
  rewrite Hpl, Hpr. repeat split.
  - intros [->|Hp]; rewrite E.
    + by rewrite decide_True.
    + destruct (decide (record = last)); first done. by rewrite decide_True.
  - intros Hp. rewrite E.
    assert (last < record) by (apply (acyclic_proto_lt (heap s)); [done | unfold proto_of; simplify_option_eq; congruence]).
    rewrite decide_False by lia.
    destruct (decide (Some record = obj_proto olast)) as [Hq|_].
    + assert (record < last) by (apply (acyclic_proto_lt (heap s)); [done | unfold proto_of; simplify_option_eq; congruence]). lia.
    + by rewrite decide_True.
  - intros H1 H2 H3. rewrite E.
    rewrite decide_False by done. rewrite decide_False by congruence.
    by rewrite decide_False.
  - intros H1 Heq. rewrite E. rewrite decide_False by done.
    assert (orecord = olast) as -> by congruence.
    destruct (decide (Some record = obj_proto olast)) as [Hq|_].
    { assert (record < last) by (apply (acyclic_proto_lt (heap s)); [done | unfold proto_of; simplify_option_eq; congruence]).
      assert (record < record) by (apply (acyclic_proto_lt (heap s)); [done | unfold proto_of; simplify_option_eq; congruence]). lia. }
    destruct (decide (obj_proto olast = Some last)) as [Hq|_]; last done.
    assert (last < last) by (apply (acyclic_proto_lt (heap s)); [done | unfold proto_of; simplify_option_eq; congruence]). lia.
Qed.

Ltac by_compute := apply (bool_decide_unpack _); vm_compute; exact I.

(** On [sample_queued], whose queue holds the base record 2, enqueuing
    the extended record 3 replaces it. *)
Lemma enqueue_coalesces_witness :
  enqueue sample_registration 3 sample_queued
  = Ok tt (store_array 0 [3] sample_queued).
Proof.
  destruct (enqueue_coalesces sample_registration 3 sample_queued
              {| callback_ := 0; nodes_ := [1]; records_ := 0 |} [2]) as [_ H].
  - vm_compute. reflexivity.
  - vm_compute. reflexivity.
  - by_compute.
  - by_compute.
  - by_compute.
  - destruct (H [] 2 eq_refl) as (_ & H2 & _). apply H2. vm_compute. reflexivity.
Defined.

(** ** [observe] *)

Lemma removeListeners_total r s :
  removeListeners r s = Ok tt (exec (removeListeners r) s).
Proof.
  unfold exec, removeListeners, removeEventListener, skip, ret, modify.
  rewrite !run_bind.
  by destruct (attributes (options r)), (characterData (options r)).
Qed.

Lemma addListeners_total r s :
  addListeners r s = Ok tt (exec (addListeners r) s).
Proof.
  unfold exec, addListeners, addEventListener, skip, ret, modify.
  rewrite !run_bind.
  by destruct (attributes (options r)), (characterData (options r)).
Qed.

(** The loop of [observe] stops at the first registration of [this]. *)
Lemma observe_loop_run this node options regs i s :
  observe_loop this node options regs i s =
    match list_find (λ r, observer r = this) regs with
    | Some (j, r) =>
        Ok (Some (set_options r options))
           (replace_options node (i + j) options (exec (removeListeners r) s))
    | None => Ok None s
    end.
Proof.
  revert i. induction regs as [|r regs IH]; intros i; simpl; first done.
  destruct (decide (observer r = this)) as [Hr|Hr].
  - rewrite run_bind, removeListeners_total. simpl.
    by rewrite Nat.add_0_r.
  - rewrite IH. destruct (list_find _ regs) as [[j r']|]; simpl; last done.
    by rewrite Nat.add_succ_r.
Qed.

(** [observe] with options that pass the test. *)
Lemma observe_run this target options s :
  config_invalid options = false →
  observe this target options s =
    match registrationsTable s !! target ≫= list_find (λ r, observer r = this) with
    | Some (i, r) =>
        addListeners (set_options r options)
          (replace_options target i options (exec (removeListeners r) s))
    | None =>
        let s1 := match registrationsTable s !! target with
                  | Some _ => s
                  | None => set_registrationsTable (<[target := []]> (registrationsTable s)) s
                  end in
        let r := {| reg_id := next_registration s; observer := this;
                    target := target; options := options |} in
        (nodes_push this target;; addListeners r)
          (push_registration target r (set_next_registration (S (next_registration s)) s1))
    end.
Proof.
  intros Hv. unfold observe. rewrite Hv.
  unfold SideTable_get, SideTable_set, gets, modify. rewrite run_bind.
  destruct (registrationsTable s !! target) as [regs|] eqn:Ht; simpl.
  - rewrite run_bind. unfold ret at 1. simpl.
    rewrite run_bind, observe_loop_run.
    destruct (list_find _ regs) as [[j r]|]; simpl.
    + rewrite run_bind. reflexivity.
    + rewrite !run_bind. unfold new_Registration, registrations_push, modify. simpl.
      rewrite !run_bind.
      by match goal with |- context [nodes_push ?a ?b ?s] => destruct (nodes_push a b s) end.
  - rewrite !run_bind. simpl. rewrite !run_bind.
    unfold new_Registration, registrations_push, modify. simpl. rewrite !run_bind.
    cbn [next_registration set_registrationsTable].
    by match goal with |- context [nodes_push ?a ?b ?s] => destruct (nodes_push a b s) end.
Qed.

Lemma filter_nonempty_spec options :
  filter_nonempty options = true ↔ ∃ f, attributeFilter options = Some f ∧ f ≠ [].
Proof.
  unfold filter_nonempty. destruct (attributeFilter options) as [[|x f]|]; simpl.
  - split; [done | by intros (f & [= <-] & ?)].
  - split; [by eexists | done].
  - split; [done | by intros (f & ? & ?)].
Qed.

Lemma config_invalid_spec options :
  config_invalid options = true ↔ violates_invariants options.
Proof.
  unfold config_invalid, violates_invariants.
  rewrite <- filter_nonempty_spec.
  destruct (childList options), (attributes options), (characterData options),
    (attributeOldValue options), (characterDataOldValue options),
    (filter_nonempty options); simpl; intuition congruence.
Qed.

Lemma nodes_push_outcome this node s :
  (∃ s', nodes_push this node s = Ok tt s') ∨ nodes_push this node s = Throw BadRef s.
Proof.
  unfold nodes_push, get_observer, deref. rewrite run_bind.
  destruct (observers s !! this); [left; by eexists | by right].
Qed.

(** Past its test [observe] returns, or meets an observer reference that
    names no object. *)
Lemma observe_valid_outcome this target options s :
  config_invalid options = false →
  (∃ s', observe this target options s = Ok tt s')
  ∨ (∃ s', observe this target options s = Throw BadRef s').
Proof.
  intros Hv. rewrite (observe_run _ _ _ _ Hv).
  destruct (_ ≫= _) as [[i r]|].
  - left. rewrite addListeners_total. by eexists.
  - simpl. rewrite run_bind.
    match goal with |- context [nodes_push ?a ?b ?s] =>
      destruct (nodes_push_outcome a b s) as [[s' ->]| ->] end.
    + left. rewrite addListeners_total. by eexists.
    + right. by eexists.
Qed.

(** C4.  [observe] throws its [SyntaxError] exactly when the options
    break an invariant, and then the state is the one it was called in:
    no registration is installed, and the registrations and listeners
    that exist are as before. *)
Theorem observe_config_error (this : ObserverRef) (target : Node)
    (options : MutationObserverInit) (s s' : State) :
  observe this target options s = Throw SyntaxError s'
  ↔ violates_invariants options ∧ s' = s.
Proof.
  rewrite <- config_invalid_spec. split.
  - destruct (config_invalid options) eqn:Hv.
    + unfold observe. rewrite Hv. unfold throw. by intros [= ->].
    + intros E.
      destruct (observe_valid_outcome this target options s Hv) as [[s'' E']|[s'' E']];
        rewrite E' in E; discriminate.
  - intros [Hv ->]. unfold observe. by rewrite Hv.
Qed.

(** ** Relations kept by the monadic combinators *)

Section preserves.
Context (R : relation State) `{!Reflexive R, !Transitive R}.

Lemma preserves_ret {A} (a : A) : preserves R (ret a).
Proof. intros s. apply reflexivity. Qed.

Lemma preserves_skip : preserves R skip.
Proof. intros s. apply reflexivity. Qed.

Lemma preserves_throw {A} e : preserves R (@throw A e).
Proof. intros s. apply reflexivity. Qed.

Lemma preserves_gets {A} (f : State → A) : preserves R (gets f).
Proof. intros s. apply reflexivity. Qed.

Lemma preserves_deref {A} (store : State → option A) : preserves R (deref store).
Proof. intros s. unfold exec, deref. destruct (store s); apply reflexivity. Qed.

Lemma preserves_modify f : (∀ s, R s (f s)) → preserves R (modify f).
Proof. intros H s. apply H. Qed.

Lemma preserves_bind {A B} (m : M A) (f : A → M B) :
  preserves R m → (∀ a, preserves R (f a)) → preserves R (m ≫= f).
Proof.
  intros Hm Hf s. unfold exec. rewrite run_bind.
  specialize (Hm s). unfold exec in Hm.
  destruct (m s) as [a s'|e s']; simpl in *; last done.
  etrans; [exact Hm | apply Hf].
Qed.

Lemma preserves_forEach {A} (l : list A) (f : A → M unit) :
  (∀ x, preserves R (f x)) → preserves R (forEach l f).
Proof.
  intros Hf. induction l as [|x l IH]; simpl.
  - apply preserves_skip.
  - apply preserves_bind; [apply Hf | intros _; apply IH].
Qed.
End preserves.

#[global] Instance frame_refl {X} (f : State → X) : Reflexive (frame f).
Proof. by intros s. Qed.

#[global] Instance frame_trans {X} (f : State → X) : Transitive (frame f).
Proof. intros s1 s2 s3 H1 H2. unfold frame in *. congruence. Qed.

(** Breaks a goal [preserves R m] down along the structure of [m]. *)
Ltac preserves_step :=
  match goal with
  | |- preserves _ (_ ≫= _) => apply preserves_bind; [apply _ | | intros ?]
  | |- preserves _ (ret _) => apply preserves_ret; apply _
  | |- preserves _ skip => apply preserves_skip; apply _
  | |- preserves _ (throw _) => apply preserves_throw; apply _
  | |- preserves _ (gets _) => apply preserves_gets; apply _
  | |- preserves _ (deref _) => apply preserves_deref; apply _
  | |- preserves _ (forEach _ _) => apply preserves_forEach; [apply _ | apply _ | intros ?]
  | |- preserves _ (if ?b then _ else _) => destruct b
  | |- preserves _ (match ?x with Some _ => _ | None => _ end) => destruct x
  | |- preserves _ (modify _) => apply preserves_modify; intros ?
  end.

(** ** What the methods of a registration leave alone *)

(** [enqueue] writes to the arrays and to nothing else. *)
Lemma enqueue_frame {X} (f : State → X) :
  (∀ a n s, f (set_arrays a n s) = f s) →
  ∀ this record, preserves (frame f) (enqueue this record).
Proof.
  intros Hf this record.
  unfold enqueue, get_observer, array_get, array_store, array_read, getPrototypeOf.
  repeat preserves_step; try done; unfold frame; apply Hf.
Qed.

(** ** The ancestor walk *)

Lemma forEach_app {A} (l1 l2 : list A) (f : A → M unit) s :
  forEach (l1 ++ l2) f s = (forEach l1 f;; forEach l2 f) s.
Proof.
  revert s. induction l1 as [|x l1 IH]; intros s; simpl; first done.
  rewrite !run_bind. destruct (f x s) as [[] s'|]; last done.
  by rewrite IH, run_bind.
Qed.

(** The inner loop enqueues the records of [dispatched_at]. *)
Lemma visit_loop_run node target callback regs s :
  forEach regs (visit node target callback) s
  = forEach (dispatched_at target callback node regs) enqueue_pair s.
Proof.
  revert s. induction regs as [|r regs IH]; intros s; first done.
  simpl. rewrite run_bind. unfold visit at 1. unfold dispatched_at. simpl.
  destruct (decide (applies node target r)) as [Ha|Ha].
  - replace (bool_decide (node ≠ target) && negb (subtree (options r))) with false.
    2:{ destruct Ha as [-> | ->]; [by rewrite bool_decide_false by naive_solver|].
        by rewrite andb_false_r. }
    destruct (callback (options r)) as [record|]; simpl.
    + rewrite run_bind. unfold enqueue_pair at 1. simpl.
      destruct (enqueue r record s) as [[] s'|]; [apply IH | done].
    + apply IH.
  - replace (bool_decide (node ≠ target) && negb (subtree (options r))) with true.
    2:{ unfold applies in Ha.
        rewrite bool_decide_true by naive_solver.
        destruct (subtree (options r)); naive_solver. }
    apply IH.
Qed.

Lemma enqueue_pairs_frame {X} (f : State → X) l :
  (∀ a n s, f (set_arrays a n s) = f s) →
  preserves (frame f) (forEach l enqueue_pair).
Proof.
  intros Hf. apply preserves_forEach; [apply _ ..|].
  intros [r record]. by apply enqueue_frame.
Qed.

(** The walk enqueues the records of [dispatched] along the chain of the
    target, given fuel for every node of the chain. *)
Lemma ancestor_loop_run fuel node target callback chain s :
  is_chain (parentNode s) node chain →
  length chain ≤ fuel →
  ancestor_loop fuel node target callback s
  = forEach (dispatched (registrationsTable s) target callback chain) enqueue_pair s.
Proof.
  revert fuel node s. induction chain as [|n chain IH]; intros fuel node s Hc Hf.
  - simpl in Hc. subst node. by destruct fuel.
  - destruct Hc as [-> Hc]. destruct fuel as [|fuel]; simpl in Hf; first lia.
    simpl. unfold dispatched. simpl. rewrite forEach_app, !run_bind.
    unfold SideTable_get, gets. simpl.
    assert (E : match registrationsTable s !! n with
                | Some registrations => forEach registrations (visit n target callback)
                | None => skip
                end s
                = forEach (dispatched_at target callback n
                             (default [] (registrationsTable s !! n))) enqueue_pair s).
    { destruct (registrationsTable s !! n) as [regs|]; simpl; [|done].
      apply visit_loop_run. }
    rewrite run_bind, E.
    pose proof (enqueue_pairs_frame registrationsTable
      (dispatched_at target callback n (default [] (registrationsTable s !! n)))
      (λ _ _ _, eq_refl) s) as Ht.
    pose proof (enqueue_pairs_frame parentNode
      (dispatched_at target callback n (default [] (registrationsTable s !! n)))
      (λ _ _ _, eq_refl) s) as Hp.
    unfold frame, exec in Ht, Hp.
    destruct (forEach _ enqueue_pair s) as [[] s'|]; simpl in *; last done.
    rewrite run_bind. simpl.
    rewrite (IH fuel (parentNode s' !! n) s'); [by rewrite Ht | by rewrite Hp | lia].
Qed.

Lemma elem_of_dispatched table target callback chain r record :
  (r, record) ∈ dispatched table target callback chain
  ↔ ∃ node, node ∈ chain ∧ r ∈ default [] (table !! node)
            ∧ applies node target r ∧ callback (options r) = Some record.
Proof.
  unfold dispatched. rewrite list_elem_of_bind. unfold dispatched_at.
  split.
  - intros (node & Hin & Hnode). exists node.
    apply list_elem_of_omap in Hin as (r' & Hr' & Hsome).
    destruct (decide (applies node target r')); last done.
    destruct (callback (options r')) eqn:Hcb; simplify_eq/=. done.
  - intros (node & Hnode & Hr & Ha & Hcb). exists node. split; last done.
    apply list_elem_of_omap. exists r. split; first done.
    rewrite decide_True by done. by rewrite Hcb.
Qed.

(** ** The record builders *)

Lemma indexOf_from_spec filter v i :
  (0 ≤ i)%Z →
  indexOf_from filter v i = (-1)%Z ↔ ∀ x, x ∈ filter → VString x ≠ v.
Proof.
  revert i. induction filter as [|x filter IH]; intros i Hi; simpl.
  - split; [|done]. intros _ y Hy. by apply elem_of_nil in Hy.
  - destruct (decide (VString x = v)) as [Hx|Hx].
    + split; [lia|]. intros H. destruct (H x); [left | done].
    + rewrite IH by lia. split.
      * intros H y Hy. apply elem_of_cons in Hy as [->|Hy]; auto.
      * intros H y Hy. apply H. by right.
Qed.

Lemma indexOf_name filter name :
  indexOf filter (VString name) = (-1)%Z ↔ name ∉ filter.
Proof.
  unfold indexOf. rewrite indexOf_from_spec by done. split.
  - intros H Hin. by apply (H name).
  - intros H x Hx [= ->]. done.
Qed.

Lemma indexOf_namespace filter namespace :
  indexOf filter (value_of_namespace namespace) = (-1)%Z
  ↔ ¬ ∃ ns, namespace = Some ns ∧ ns ∈ filter.
Proof.
  unfold indexOf. rewrite indexOf_from_spec by done.
  destruct namespace as [ns|]; simpl; split.
  - intros H (ns' & [= <-] & Hin). by apply (H ns).
  - intros H x Hx [= ->]. apply H. eauto.
  - by intros _ (ns' & ? & _).
  - done.
Qed.

(** C5.  For a registration whose options [observe] accepts and whose
    attribute filter is not empty, the builder for an attribute change
    returns a record exactly when the local name of the attribute or its
    namespace URI is in the filter.  With the filter [["id"]] a change of
    [class] (outside a namespace called [id]) gives no record and a
    change of [id] gives one. *)
Theorem attribute_filter_rule (name : string) (namespace : option string)
    (record recordWithOldValue : Loc) (options : MutationObserverInit)
    (filter : list string) :
  config_invalid options = false →
  attributeFilter options = Some filter →
  filter ≠ [] →
  (is_Some (attributes_callback name namespace record recordWithOldValue options)
   ↔ name ∈ filter ∨ ∃ ns, namespace = Some ns ∧ ns ∈ filter)
  ∧ (filter = ["id"] → name = "class" → namespace ≠ Some "id" →
     attributes_callback name namespace record recordWithOldValue options = None)
  ∧ (filter = ["id"] → name = "id" →
     is_Some (attributes_callback name namespace record recordWithOldValue options)).
Proof.
  intros Hv Hf Hne.
  assert (Hfn : filter_nonempty options = true)
    by (apply filter_nonempty_spec; eauto).
  assert (Ha : attributes options = true).
  { unfold config_invalid in Hv. rewrite Hfn in Hv.
    destruct (attributes options); [done|].
    by rewrite !andb_true_r, !orb_true_r in Hv. }
  assert (Hiff : is_Some (attributes_callback name namespace record recordWithOldValue options)
                 ↔ name ∈ filter ∨ ∃ ns, namespace = Some ns ∧ ns ∈ filter).
  { unfold attributes_callback. rewrite Ha, Hf. simpl.
    rewrite (bool_decide_false (length filter = 0)) by (by destruct filter). simpl.
    destruct (bool_decide _) eqn:E1; simpl.
    - apply bool_decide_eq_true, indexOf_name in E1.
      destruct (bool_decide _) eqn:E2; simpl.
      + apply bool_decide_eq_true, indexOf_namespace in E2.
        split; [by intros [? [=]] | tauto].
      + apply bool_decide_eq_false in E2. rewrite indexOf_namespace in E2.
        split; [intros _; right | destruct (attributeOldValue options); by eexists].
        destruct namespace as [ns|].
        * destruct (decide (ns ∈ filter)); [eauto|].
          exfalso. apply E2. by intros (ns' & [= <-] & ?).
        * exfalso. apply E2. by intros (? & ? & _).
    - apply bool_decide_eq_false in E1. rewrite indexOf_name in E1.
      split; [intros _; left | destruct (attributeOldValue options); by eexists].
      by destruct (decide (name ∈ filter)) as [?|N]; [|destruct (E1 N)]. }
  split; [exact Hiff|]. split.
  - intros -> -> Hns. apply eq_None_not_Some. rewrite Hiff.
    intros [Hin | (ns & -> & Hin)]; apply list_elem_of_singleton in Hin;
      [discriminate | congruence].
  - intros -> ->. apply Hiff. left. by apply list_elem_of_singleton.
Qed.

Lemma attribute_filter_rule_witness :
  attributes_callback "class" None 2 3 watch_id = None
  ∧ is_Some (attributes_callback "id" None 2 3 watch_id).
Proof.
  split.
  - refine (proj1 (proj2 (attribute_filter_rule "class" None 2 3 watch_id ["id"] _ _ _))
              eq_refl eq_refl _); [reflexivity | reflexivity | discriminate | discriminate].
  - refine (proj2 (proj2 (attribute_filter_rule "id" None 2 3 watch_id ["id"] _ _ _))
              eq_refl eq_refl); [reflexivity | reflexivity | discriminate].
Defined.

Lemma attributes_callback_reportable name namespace record recordWithOldValue options :
  attributes options = true →
  filter_passes name namespace options →
  attributes_callback name namespace record recordWithOldValue options
  = Some (if attributeOldValue options then recordWithOldValue else record).
Proof.
  intros Ha Hp. unfold attributes_callback. rewrite Ha. simpl.
  destruct (attributeFilter options) as [filter|] eqn:Hf;
    [|by destruct (attributeOldValue options)].
  destruct (decide (filter = [])) as [->|Hne];
    [by destruct (attributeOldValue options)|].
  rewrite (bool_decide_false (length filter = 0)) by (by destruct filter). simpl.
  destruct (Hp filter Hf Hne) as [Hin|Hin].
  - rewrite (bool_decide_false (indexOf filter (VString name) = _))
      by (by rewrite indexOf_name; intros N; apply N).
    simpl. by destruct (attributeOldValue options).
  - rewrite (bool_decide_false (indexOf filter (value_of_namespace namespace) = _))
      by (by rewrite indexOf_namespace; intros N; apply N).
    rewrite andb_false_r. by destruct (attributeOldValue options).
Qed.

Lemma visit_applies node target callback r record :
  node = target ∨ subtree (options r) = true →
  callback (options r) = Some record →
  visit node target callback r = enqueue r record.
Proof.
  intros Ha Hcb. unfold visit. rewrite Hcb.
  replace (bool_decide (node ≠ target) && negb (subtree (options r))) with false; [done|].
  destruct Ha as [-> | ->]; [by rewrite bool_decide_false by naive_solver|].
  by rewrite andb_false_r.
Qed.

(** C8.  For one change and one registration that the walk does not
    skip: when the change is reportable under the options of the
    registration (attributes are watched and the filter lets the
    attribute through; or character data is watched), the builder
    returns one record, the one with the old value if the old-value
    option of that kind is set and the plain one otherwise, and the
    visit of the registration is one call of [enqueue] with it. *)
Theorem one_record_per_registration (e : MutationEvent) (record recordWithOldValue : Loc)
    (node target : Node) (r : Registration) :
  node = target ∨ subtree (options r) = true →
  (attributes (options r) = true →
   filter_passes (attrName e) (namespaceURI e) (options r) →
   let variant := if attributeOldValue (options r) then recordWithOldValue else record in
   attributes_callback (attrName e) (namespaceURI e) record recordWithOldValue (options r)
   = Some variant
   ∧ visit node target
       (attributes_callback (attrName e) (namespaceURI e) record recordWithOldValue) r
     = enqueue r variant)
  ∧ (characterData (options r) = true →
     let variant := if characterDataOldValue (options r) then recordWithOldValue
                    else record in
     characterData_callback record recordWithOldValue (options r) = Some variant
     ∧ visit node target (characterData_callback record recordWithOldValue) r
       = enqueue r variant).
Proof.
  intros Happ. split.
  - intros Ha Hp variant.
    pose proof (attributes_callback_reportable _ _ record recordWithOldValue _ Ha Hp) as E.
    split; [exact E | by apply visit_applies].
  - intros Hc variant.
    assert (E : characterData_callback record recordWithOldValue (options r) = Some variant).
    { unfold characterData_callback. rewrite Hc. simpl.
      by destruct (characterDataOldValue (options r)). }
    split; [exact E | by apply visit_applies].
Qed.

(** The registration of observer 0 on node 1, which tracks old values,
    gets the record with the old value for a change below node 1. *)
Lemma one_record_per_registration_witness :
  attributes_callback "id" None 2 3 (watch_attributes true true) = Some 3
  ∧ visit 1 2 (attributes_callback "id" None 2 3) sample_registration
    = enqueue sample_registration 3.
Proof.
  refine (proj1 (one_record_per_registration sample_event 2 3 1 2 sample_registration _)
            eq_refl _).
  - right. reflexivity.
  - intros filter Hf. discriminate Hf.
Defined.

(** ** The records that [handleEvent] creates *)

Lemma run_set_prop l k v s o :
  heap s !! l = Some o →
  set_prop l k v s
  = Ok tt (set_heap (<[l := {| obj_proto := obj_proto o;
                              obj_props := <[k := v]> (obj_props o) |}]> (heap s))
             (next_loc s) s).
Proof.
  intros H. unfold set_prop. by rewrite run_bind, (run_deref _ _ _ H).
Qed.

Lemma set_heap_set_heap h n h' n' s :
  set_heap h n (set_heap h' n' s) = set_heap h n s.
Proof. done. Qed.

Ltac run_set_props :=
  repeat (rewrite run_bind; erewrite run_set_prop;
          [|cbn [heap set_heap]; apply lookup_insert_eq];
          cbn [heap set_heap next_loc obj_proto obj_props];
          rewrite insert_insert_eq, ?set_heap_set_heap).

(** The two objects of an attribute change: the base record at the next
    free location, and after it the record with the old value, whose
    prototype is the base record and whose one own property is
    [oldValue]. *)
Lemma attributes_records_run e s :
  attributes_records e s
  = Ok (next_loc s, S (next_loc s))
      (set_heap
         (<[S (next_loc s) :=
              {| obj_proto := Some (next_loc s);
                 obj_props :=
                   {["oldValue" := if decide (attrChange e = ADDITION) then VNull
                                   else VString (prevValue e)]} |}]>
          (<[next_loc s :=
               {| obj_proto := Some mutationRecordPrototype;
                  obj_props :=
                    <["attributeNamespace" := value_of_namespace (namespaceURI e)]>
                    (<["attributeName" := VString (attrName e)]>
                    (<["target" := VNode (ev_target e)]>
                    {["type" := VString "attributes"]})) |}]> (heap s)))
         (S (S (next_loc s))) s).
Proof.
  unfold attributes_records, Object_create.
  rewrite run_bind. cbn beta iota zeta.
  run_set_props.
  rewrite run_bind. cbn beta iota zeta. cbn [heap set_heap next_loc].
  run_set_props.
  reflexivity.
Qed.

Lemma characterData_records_run e s :
  characterData_records e s
  = Ok (next_loc s, S (next_loc s))
      (set_heap
         (<[S (next_loc s) :=
              {| obj_proto := Some (next_loc s);
                 obj_props := {["oldValue" := VString (prevValue e)]} |}]>
          (<[next_loc s :=
               {| obj_proto := Some mutationRecordPrototype;
                  obj_props :=
                    <["target" := VNode (ev_target e)]>
                    {["type" := VString "characterData"]} |}]> (heap s)))
         (S (S (next_loc s))) s).
Proof.
  unfold characterData_records, Object_create.
  rewrite run_bind. cbn beta iota zeta.
  run_set_props.
  rewrite run_bind. cbn beta iota zeta. cbn [heap set_heap next_loc].
  run_set_props.
  reflexivity.
Qed.

(** The walk writes to the arrays and to nothing else. *)
Lemma ancestor_loop_frame {X} (f : State → X) fuel node target callback :
  (∀ a n s, f (set_arrays a n s) = f s) →
  preserves (frame f) (ancestor_loop fuel node target callback).
Proof.
  intros Hf. revert node. induction fuel as [|fuel IH]; intros [n|]; simpl;
    try (apply preserves_skip; apply _); try (apply preserves_throw; apply _).
  unfold SideTable_get.
  repeat preserves_step; try apply IH.
  unfold visit.
  repeat preserves_step. by apply enqueue_frame.
Qed.

(** C10.  For a [DOMAttrModified] event, [handleEvent], having stopped
    the event, creates the base record and the record with the old value
    (whose prototype is the base record) and walks with the builder over
    these two.  When the change is an addition the record with the old
    value has [oldValue] [null], whatever previous value the event
    reports; for any other change it has the previous value of the
    event. *)
Theorem addition_has_null_oldValue (fuel : nat) (e : MutationEvent) (s : State) :
  ev_type e = "DOMAttrModified" →
  let record := next_loc s in
  let recordWithOldValue := S (next_loc s) in
  let h := heap (exec (handleEvent fuel e) s) in
  handleEvent fuel e s
  = forEachAncestorAndObserverEnqueueRecord fuel (ev_target e)
      (attributes_callback (attrName e) (namespaceURI e) record recordWithOldValue)
      (exec (attributes_records e) (stop_event e s))
  ∧ proto_of h recordWithOldValue = Some record
  ∧ (attrChange e = ADDITION → own_prop h recordWithOldValue "oldValue" = Some VNull)
  ∧ (attrChange e ≠ ADDITION →
     own_prop h recordWithOldValue "oldValue" = Some (VString (prevValue e))).
Proof.
  intros Ht record recordWithOldValue h.
  assert (E : handleEvent fuel e s
              = forEachAncestorAndObserverEnqueueRecord fuel (ev_target e)
                  (attributes_callback (attrName e) (namespaceURI e) record
                     recordWithOldValue)
                  (exec (attributes_records e) (stop_event e s))).
  { rewrite handleEvent_run. unfold handleEvent_switch, exec.
    rewrite decide_True by done.
    by rewrite run_bind, attributes_records_run. }
  split; first exact E.
  assert (Hh : h = heap (exec (attributes_records e) (stop_event e s))).
  { subst h. unfold exec at 1. rewrite E.
    apply (ancestor_loop_frame heap fuel (Some (ev_target e)) (ev_target e) _
             (λ _ _ _, eq_refl)). }
  rewrite Hh. unfold exec. rewrite attributes_records_run.
  unfold proto_of, own_prop. cbn [state_of heap set_heap].
  rewrite lookup_insert_eq. cbn. rewrite lookup_singleton_eq.
  split; [done|]. split; intros Hc.
  - by rewrite decide_True.
  - by rewrite decide_False.
Qed.

(** An addition whose event reports a previous value all the same. *)
Lemma addition_has_null_oldValue_witness :
  own_prop
    (heap (exec (handleEvent 2
                   {| ev_type := "DOMAttrModified"; ev_target := 2; attrName := "id";
                      namespaceURI := None; attrChange := 2; prevValue := "stale" |})
             sample_observed))
    (S (next_loc sample_observed)) "oldValue"
  = Some VNull.
Proof.
  refine (proj1 (proj2 (proj2 (addition_has_null_oldValue 2
    {| ev_type := "DOMAttrModified"; ev_target := 2; attrName := "id";
       namespaceURI := None; attrChange := 2; prevValue := "stale" |}
    sample_observed _))) _); reflexivity.
Defined.

(** ** Listeners *)

Lemma set_eventListeners_id s :
  set_eventListeners (λ _, eventListeners s) s = s.
Proof. by destruct s. Qed.

(** Removing an observer from listener lists that hold registrations
    only removes nothing. *)
Lemma remove_listener_observer node type o capture s :
  listeners_are_registrations s →
  remove_listener node (type, ObserverObjRef o, capture) s = s.
Proof.
  intros Hl. unfold remove_listener, listeners_of.
  rewrite decide_False; [done|]. intros Hin.
  destruct (eventListeners s !! node) as [l|] eqn:E; simpl in Hin.
  - specialize (Hl node l E). rewrite Forall_forall in Hl.
    by apply Hl in Hin.
  - by apply elem_of_nil in Hin.
Qed.

(** So [removeListeners], which names the observer, changes nothing. *)
Lemma removeListeners_noop r s :
  listeners_are_registrations s → removeListeners r s = Ok tt s.
Proof.
  intros Hl. unfold removeListeners, removeEventListener, modify, skip, ret.
  rewrite run_bind.
  destruct (attributes (options r)), (characterData (options r)); simpl;
    by rewrite ?(remove_listener_observer _ _ _ _ _ Hl).
Qed.

(** C9, at a failing input.  On a node without listeners, [addListeners]
    for a registration that watches attributes attaches the registration
    as listener, and [removeListeners] for the same registration and
    options leaves it attached: the round trip does not give back the
    listener set it started from.  After [observe] and [disconnect] the
    listener of the removed registration is still on the node, and after
    a repeat [observe] that watches character data instead of attributes
    the attribute listener of the previous options is still there. *)
Theorem removeListeners_detaches_nothing :
  listeners_of (initial ∅) 1 = []
  ∧ listeners_of
      (exec (addListeners sample_registration;; removeListeners sample_registration)
         (initial ∅)) 1
    = [("DOMAttrModified", RegistrationRef 0, true)]
  ∧ listeners_of
      (exec (this ← new_JsMutationObserver 0;
             observe this 1 (watch_attributes true true);;
             disconnect this) (initial ∅)) 1
    = [("DOMAttrModified", RegistrationRef 0, true)]
  ∧ listeners_of
      (exec (this ← new_JsMutationObserver 0;
             observe this 1 (watch_attributes true true);;
             observe this 1 watch_characterData) (initial ∅)) 1
    = [("DOMAttrModified", RegistrationRef 0, true);
       ("DOMCharacterDataModified", RegistrationRef 0, true)].
Proof. repeat split; vm_compute; reflexivity. Qed.

(** ** One registration per observer and node *)

#[global] Instance keeps_refl I : Reflexive (keeps I).
Proof. intros s H. exact H. Qed.

#[global] Instance keeps_trans I : Transitive (keeps I).
Proof. intros s1 s2 s3 H1 H2 H. auto. Qed.

Lemma preserves_weaken {A} (R R' : relation State) (m : M A) :
  (∀ s s', R s s' → R' s s') → preserves R m → preserves R' m.
Proof. intros H Hm s. apply H, Hm. Qed.

Lemma map_Forall_alter {A} (P : nat → A → Prop) (f : A → A) i (m : gmap nat A) :
  map_Forall P m → (∀ x, m !! i = Some x → P i x → P i (f x)) →
  map_Forall P (alter f i m).
Proof.
  intros Hm Hf j y. rewrite lookup_alter. case_decide as Hij.
  - subst j. destruct (m !! i) as [x|] eqn:E; simpl; [|done].
    intros [= <-]. apply Hf; [done|]. by apply Hm.
  - apply Hm.
Qed.

(** Finishes a goal [preserves (frame f) m] for an [m] made of the
    primitives, when [f] reads components that they do not write. *)
Ltac frame_leaves :=
  repeat preserves_step; try done; try (intros ?; reflexivity).

Lemma listeners_frame_add {X} (f : State → X) r :
  (∀ g s, f (set_eventListeners g s) = f s) →
  preserves (frame f) (addListeners r).
Proof.
  intros Hf. unfold addListeners, addEventListener.
  repeat preserves_step; unfold frame, add_listener; try case_decide; by rewrite ?Hf.
Qed.

Lemma listeners_frame_remove {X} (f : State → X) r :
  (∀ g s, f (set_eventListeners g s) = f s) →
  preserves (frame f) (removeListeners r).
Proof.
  intros Hf. unfold removeListeners, removeEventListener.
  repeat preserves_step; unfold frame, remove_listener; try case_decide; by rewrite ?Hf.
Qed.

Lemma new_JsMutationObserver_frame {X} (f : State → X) callback :
  (∀ a n s, f (set_arrays a n s) = f s) →
  (∀ o n s, f (set_observers o n s) = f s) →
  preserves (frame f) (new_JsMutationObserver callback).
Proof.
  intros Ha Ho. unfold new_JsMutationObserver.
  apply preserves_bind; [apply _ | |intros a]; intros s; unfold frame, exec; simpl; auto.
Qed.

Lemma set_records__frame {X} (f : State → X) this a :
  (∀ o n s, f (set_observers o n s) = f s) →
  preserves (frame f) (set_records_ this a).
Proof.
  intros Ho. unfold set_records_, get_observer.
  repeat preserves_step. unfold frame. apply Ho.
Qed.

Lemma nodes_push_frame {X} (f : State → X) this node :
  (∀ o n s, f (set_observers o n s) = f s) →
  preserves (frame f) (nodes_push this node).
Proof.
  intros Ho. unfold nodes_push, get_observer.
  repeat preserves_step. unfold frame. apply Ho.
Qed.

Lemma fresh_queue_frame {X} (f : State → X) this :
  (∀ a n s, f (set_arrays a n s) = f s) →
  (∀ o n s, f (set_observers o n s) = f s) →
  preserves (frame f) (records ← new_array; set_records_ this records).
Proof.
  intros Ha Ho. apply preserves_bind; [apply _ | |intros a].
  - intros s. unfold frame, exec. simpl. apply Ha.
  - by apply set_records__frame.
Qed.

Lemma takeRecords_frame {X} (f : State → X) this :
  (∀ a n s, f (set_arrays a n s) = f s) →
  (∀ o n s, f (set_observers o n s) = f s) →
  preserves (frame f) (takeRecords this).
Proof.
  intros Ha Ho. unfold takeRecords, get_observer.
  preserves_step; [preserves_step|].
  apply preserves_bind; [apply _ | |intros records].
  - intros s. unfold frame, exec. simpl. apply Ha.
  - preserves_step; [by apply set_records__frame | preserves_step].
Qed.


Lemma handleEvent_frame {X} (f : State → X) fuel e :
  (∀ h n s, f (set_heap h n s) = f s) →
  (∀ a n s, f (set_arrays a n s) = f s) →
  (∀ e s, f (stop_event e s) = f s) →
  preserves (frame f) (handleEvent fuel e).
Proof.
  intros Hh Ha Hs. unfold handleEvent.
  apply preserves_bind; [apply _ | intros s; apply Hs | intros _].
  unfold handleEvent_switch, forEachAncestorAndObserverEnqueueRecord.
  repeat case_decide.
  - apply preserves_bind; [apply _ | |intros records].
    + intros s. unfold frame, exec. rewrite attributes_records_run. apply Hh.
    + by apply ancestor_loop_frame.
  - apply preserves_bind; [apply _ | |intros records].
    + intros s. unfold frame, exec. rewrite characterData_records_run. apply Hh.
    + by apply ancestor_loop_frame.
  - apply preserves_skip, _.
Qed.

Section disconnect_preserves.
Context (R : relation State) `{!Reflexive R, !Transitive R}.
Context (this : ObserverRef).
Hypothesis remove_ok : ∀ r, preserves R (removeListeners r).
Hypothesis splice_ok : ∀ node i s, R s (splice_registration node i s).
Hypothesis queue_ok : preserves R (records ← new_array; set_records_ this records).

Lemma disconnect_loop_preserves node regs i :
  preserves R (disconnect_loop this node regs i).
Proof using Type*.
  revert i. induction regs as [|r regs IH]; intros i; simpl.
  - by apply preserves_skip.
  - case_decide; [|apply IH].
    apply preserves_bind; [done | apply remove_ok | intros _].
    unfold registrations_splice. by apply preserves_modify.
Qed.

Lemma disconnect_preserves : preserves R (disconnect this).
Proof using Type*.
  unfold disconnect, get_observer, SideTable_get.
  apply preserves_bind; [done | by apply preserves_deref | intros o].
  apply preserves_bind; [done | | intros _; apply queue_ok].
  apply preserves_forEach; [done..|]. intros node.
  apply preserves_bind; [done | by apply preserves_gets | intros [regs|]].
  - apply disconnect_loop_preserves.
  - by apply preserves_throw.
Qed.
End disconnect_preserves.

Lemma one_per_observer_frame s s' :
  frame registrationsTable s s' → keeps one_per_observer s s'.
Proof. unfold frame, keeps, one_per_observer. by intros ->. Qed.

Lemma disconnect_one_per_observer this :
  preserves (keeps one_per_observer) (disconnect this).
Proof.
  apply disconnect_preserves; try apply _.
  - intros r. apply (preserves_weaken (frame registrationsTable));
      [apply one_per_observer_frame | by apply listeners_frame_remove].
  - intros node i s Hs. unfold one_per_observer, splice_registration. simpl.
    apply map_Forall_alter; [done|]. intros regs _ Hnd.
    rewrite list_fmap_delete. exact (sublist_NoDup _ _ Hnd (sublist_delete _ _)).
  - apply (preserves_weaken (frame registrationsTable));
      [apply one_per_observer_frame | by apply fresh_queue_frame].
Qed.

(** The table after an [observe] that passes the test: the options of
    the registration of [this] on [target] are replaced where it stands,
    or a new registration is appended to the list of [target]. *)
Lemma observe_table this target options s :
  config_invalid options = false →
  registrationsTable (exec (observe this target options) s)
  = match registrationsTable s !! target ≫= list_find (λ r, observer r = this) with
    | Some (i, r) =>
        alter (alter (λ r, set_options r options) i) target (registrationsTable s)
    | None =>
        <[target := default [] (registrationsTable s !! target)
                    ++ [{| reg_id := next_registration s; observer := this;
                           target := target; options := options |}]]>
          (registrationsTable s)
    end.
Proof.
  intros Hv. unfold exec. rewrite (observe_run _ _ _ _ Hv).
  destruct (_ ≫= _) as [[i r]|] eqn:E.
  - change (state_of (addListeners ?r ?s0)) with (exec (addListeners r) s0).
    rewrite (listeners_frame_add registrationsTable _ (λ _ _, eq_refl) _).
    unfold replace_options. simpl.
    by rewrite (listeners_frame_remove registrationsTable _ (λ _ _, eq_refl) _).
  - cbv zeta.
    match goal with |- registrationsTable (state_of (_ ?s0)) = _ =>
      assert (Hf : registrationsTable
                     (exec (nodes_push this target;;
                            addListeners {| reg_id := next_registration s; observer := this;
                                            target := target; options := options |}) s0)
                   = registrationsTable s0) end.
    { match goal with |- registrationsTable (exec ?m ?s0) = _ =>
        assert (Hm : preserves (frame registrationsTable) m) end.
      { apply preserves_bind; [apply _ | by apply nodes_push_frame | intros _].
        by apply listeners_frame_add. }
      apply Hm. }
    unfold exec in Hf. rewrite Hf. unfold push_registration. simpl.
    destruct (registrationsTable s !! target) as [regs|] eqn:Ht; simpl.
    + apply map_eq. intros j. rewrite lookup_alter, lookup_insert.
      case_decide; [subst; by rewrite Ht | done].
    + by rewrite alter_insert_eq.
Qed.

Lemma fmap_observer_alter options i (regs : list Registration) :
  observer <$> alter (λ r, set_options r options) i regs = observer <$> regs.
Proof.
  rewrite (list_fmap_alter observer _ id); [by apply list_alter_id|].
  by apply Forall_forall.
Qed.

Lemma observe_one_per_observer this target options :
  preserves (keeps one_per_observer) (observe this target options).
Proof.
  intros s Hs. destruct (config_invalid options) eqn:Hv.
  { unfold exec, observe. by rewrite Hv. }
  unfold one_per_observer. rewrite (observe_table _ _ _ _ Hv).
  destruct (registrationsTable s !! target) as [regs|] eqn:Ht; simpl.
  - destruct (list_find _ regs) as [[i r]|] eqn:Hfind.
    + apply map_Forall_alter; [done|]. intros regs' _ Hnd.
      by rewrite fmap_observer_alter.
    + apply map_Forall_insert_2; [|done].
      rewrite fmap_app. apply NoDup_app. split; [by apply (Hs target)|]. split.
      * intros o Ho Hin. apply list_elem_of_singleton in Hin. simpl in Hin. subst o.
        apply list_elem_of_fmap in Ho as (r & Hr & Hin).
        apply list_find_None in Hfind. rewrite Forall_forall in Hfind.
        by apply (Hfind r).
      * apply NoDup_singleton.
  - apply map_Forall_insert_2; [|done]. simpl. apply NoDup_singleton.
Qed.

(** Every operation keeps the invariant. *)
Lemma call_one_per_observer c : preserves (keeps one_per_observer) (call c).
Proof.
  destruct c as [callback|this target options|this|this|fuel e|this record]; simpl.
  - apply (preserves_weaken (frame registrationsTable)); [apply one_per_observer_frame|].
    apply preserves_bind; [apply _ | by apply new_JsMutationObserver_frame | intros _].
    apply preserves_skip, _.
  - apply observe_one_per_observer.
  - apply disconnect_one_per_observer.
  - apply (preserves_weaken (frame registrationsTable)); [apply one_per_observer_frame|].
    apply preserves_bind; [apply _ | by apply takeRecords_frame | intros _].
    apply preserves_skip, _.
  - apply (preserves_weaken (frame registrationsTable)); [apply one_per_observer_frame|].
    by apply handleEvent_frame.
  - apply (preserves_weaken (frame registrationsTable)); [apply one_per_observer_frame|].
    by apply enqueue_frame.
Qed.





(** ** Relations kept by the operations *)

(** [observe] keeps a relation that its steps keep. *)
Section observe_preserves.
Context (R : relation State) `{!Reflexive R, !Transitive R}.
Context (this : ObserverRef) (target : Node).
Hypothesis add_ok : ∀ r, preserves R (addListeners r).
Hypothesis remove_ok : ∀ r, preserves R (removeListeners r).
Hypothesis table_ok : ∀ t s, R s (set_registrationsTable t s).
Hypothesis next_ok : ∀ n s, R s (set_next_registration n s).
Hypothesis push_ok : preserves R (nodes_push this target).

Lemma observe_loop_preserves options regs i :
  preserves R (observe_loop this target options regs i).
Proof using Type*.
  revert i. induction regs as [|r regs IH]; intros i; simpl.
  - by apply preserves_ret.
  - case_decide; [|apply IH].
    apply preserves_bind; [done | apply remove_ok | intros _].
    apply preserves_bind; [done | | intros _; by apply preserves_ret].
    apply preserves_modify. intros s. apply table_ok.
Qed.

Lemma observe_preserves options : preserves R (observe this target options).
Proof using Type*.
  unfold observe. destruct (config_invalid options); [by apply preserves_throw|].
  apply preserves_bind; [done | by apply preserves_gets | intros found].
  apply preserves_bind; [done | | intros regs].
  { destruct found; [by apply preserves_ret|].
    apply preserves_bind; [done | | intros _; by apply preserves_ret].
    apply preserves_modify. intros s. apply table_ok. }
  apply preserves_bind; [done | apply observe_loop_preserves | intros [r|]].
  - apply preserves_bind; [done | by apply preserves_ret | intros r'; apply add_ok].
  - apply preserves_bind; [done | | intros r'; apply add_ok].
    apply preserves_bind; [done | intros s; apply next_ok | intros r].
    apply preserves_bind; [done | | intros _].
    { apply preserves_modify. intros s. apply table_ok. }
    apply preserves_bind; [done | apply push_ok | intros _; by apply preserves_ret].
Qed.
End observe_preserves.

(** [handleEvent] keeps a relation that writes to the heap and
    [enqueue] keep. *)
Section handleEvent_preserves.
Context (R : relation State) `{!Reflexive R, !Transitive R}.
Hypothesis heap_ok : ∀ h n s, R s (set_heap h n s).
Hypothesis stop_ok : ∀ e s, R s (stop_event e s).
Hypothesis enqueue_ok : ∀ r record, preserves R (enqueue r record).

Lemma ancestor_loop_preserves fuel node target callback :
  preserves R (ancestor_loop fuel node target callback).
Proof using Type*.
  revert node. induction fuel as [|fuel IH]; intros [n|]; simpl;
    try (by apply preserves_skip); try (by apply preserves_throw).
  apply preserves_bind; [done | by apply preserves_gets | intros found].
  apply preserves_bind; [done | | intros _].
  - destruct found as [regs|]; [|by apply preserves_skip].
    apply preserves_forEach; [done..|]. intros r. unfold visit.
    destruct (_ && _); [by apply preserves_skip|].
    destruct (callback _); [apply enqueue_ok | by apply preserves_skip].
  - apply preserves_bind; [done | by apply preserves_gets | intros parent; apply IH].
Qed.

Lemma handleEvent_preserves fuel e : preserves R (handleEvent fuel e).
Proof using Type*.
  unfold handleEvent.
  apply preserves_bind; [done | intros s; apply stop_ok | intros _].
  unfold handleEvent_switch, forEachAncestorAndObserverEnqueueRecord.
  repeat case_decide.
  - apply preserves_bind; [done | | intros records; apply ancestor_loop_preserves].
    intros s. unfold exec. rewrite attributes_records_run. apply heap_ok.
  - apply preserves_bind; [done | | intros records; apply ancestor_loop_preserves].
    intros s. unfold exec. rewrite characterData_records_run. apply heap_ok.
  - by apply preserves_skip.
Qed.
End handleEvent_preserves.

Lemma preserves_deref_bind {A B} (R : relation State) `{!Reflexive R}
    (store : State → option A) (f : A → M B) :
  (∀ s x, store s = Some x → R s (exec (f x) s)) →
  preserves R (deref store ≫= f).
Proof.
  intros H s. unfold exec. rewrite run_bind. unfold deref.
  destruct (store s) as [x|] eqn:E; [by apply H | done].
Qed.

(** ** [takeRecords] and the queues *)

Lemma takeRecords_run this s o :
  observers s !! this = Some o →
  takeRecords this s = Ok (records_ o) (fresh_queue this o s).
Proof.
  intros Ho. unfold takeRecords, get_observer.
  rewrite run_bind, (run_deref _ _ _ Ho). cbv zeta.
  rewrite run_bind. unfold new_array at 1. cbv beta zeta.
  rewrite run_bind. unfold set_records_, get_observer.
  rewrite run_bind. erewrite run_deref by exact Ho. reflexivity.
Qed.

Lemma takeRecords_missing this s :
  observers s !! this = None → takeRecords this s = Throw BadRef s.
Proof.
  intros Ho. unfold takeRecords, get_observer, deref. rewrite run_bind. by rewrite Ho.
Qed.

Lemma new_queue_run this s :
  (records ← new_array; set_records_ this records) s
  = match observers s !! this with
    | Some o => Ok tt (fresh_queue this o s)
    | None => Throw BadRef (set_arrays (<[next_array s := []]> (arrays s))
                              (S (next_array s)) s)
    end.
Proof.
  rewrite run_bind. unfold new_array at 1. cbv beta zeta.
  unfold set_records_, get_observer, deref. rewrite run_bind. simpl.
  by destruct (observers s !! this).
Qed.

Lemma run_deref_bind {A B} (store : State → option A) (f : A → M B) s :
  (deref store ≫= f) s
  = match store s with Some x => f x s | None => Throw BadRef s end.
Proof. rewrite run_bind. unfold deref. by destruct (store s). Qed.

Lemma getPrototypeOf_run l s :
  getPrototypeOf l s
  = match heap s !! l with Some o => Ok (obj_proto o) s | None => Throw BadRef s end.
Proof. unfold getPrototypeOf. rewrite run_deref_bind. by destruct (heap s !! l). Qed.

(** The states [array_store] can end in. *)
Lemma array_store_outcome b i v s :
  exec (array_store b i v) s = s
  ∨ ∃ l l', arrays s !! b = Some l ∧ exec (array_store b i v) s = store_array b l' s.
Proof.
  unfold exec, array_store, array_read. rewrite run_deref_bind.
  destruct (arrays s !! b) as [l|] eqn:Ha; [|by left].
  repeat case_decide; [right; by eexists _, _ ..| by left].
Qed.

(** [enqueue] changes the state by at most one [array_store] on the queue
    of the observer. *)
Lemma enqueue_is_store this record s o :
  observers s !! observer this = Some o →
  exec (enqueue this record) s = s
  ∨ ∃ i, exec (enqueue this record) s = exec (array_store (records_ o) i record) s.
Proof.
  intros Ho. unfold exec at 1 2. unfold enqueue, get_observer, array_read, array_get.
  rewrite run_deref_bind, Ho. cbv zeta.
  rewrite run_deref_bind.
  destruct (arrays s !! records_ o) as [l|] eqn:Ha; [|by left].
  case_decide; [|right; by eexists].
  rewrite run_deref_bind.
  destruct (arrays s !! records_ o ≫= _) as [last|]; [|by left].
  case_decide; [by left|].
  rewrite run_bind, getPrototypeOf_run. destruct (heap s !! last); [|by left].
  case_decide; [by left|].
  rewrite run_bind, getPrototypeOf_run. destruct (heap s !! record); [|by left].
  case_decide; right; by eexists.
Qed.

(** The states [enqueue] can end in: the one it started in, or that one
    with the queue of the observer rewritten. *)
Lemma enqueue_outcome this record s o :
  observers s !! observer this = Some o →
  exec (enqueue this record) s = s
  ∨ ∃ l l', arrays s !! records_ o = Some l
            ∧ exec (enqueue this record) s = store_array (records_ o) l' s.
Proof.
  intros Ho. destruct (enqueue_is_store this record s o Ho) as [E|[i E]]; [by left|].
  rewrite E. apply array_store_outcome.
Qed.

Lemma enqueue_missing this record s :
  observers s !! observer this = None → exec (enqueue this record) s = s.
Proof.
  intros Ho. unfold exec, enqueue, get_observer. by rewrite run_deref_bind, Ho.
Qed.

(** *** A retired array stays as it is *)

#[global] Instance untouched_refl a : Reflexive (untouched a).
Proof. by intros s H. Qed.

#[global] Instance untouched_trans a : Transitive (untouched a).
Proof.
  intros s1 s2 s3 H12 H23 H1.
  destruct (H12 H1) as [H2 E12]. destruct (H23 H2) as [H3 E23].
  split; [done | congruence].
Qed.

Lemma untouched_frame a s s' :
  frame (λ s, (arrays s, next_array s, observers s)) s s' → untouched a s s'.
Proof.
  unfold frame, untouched, retired. intros [= Ha Hn Ho]. rewrite Ha, Hn, Ho. tauto.
Qed.

Lemma untouched_fresh a k o s n :
  records_ o = next_array s →
  untouched a s
    (set_observers (<[k := o]> (observers s)) n
       (set_arrays (<[next_array s := []]> (arrays s)) (S (next_array s)) s)).
Proof.
  intros Hr [Hlt Hobs]. unfold retired. simpl. split; [split|].
  - lia.
  - apply map_Forall_insert_2; [lia | done].
  - apply lookup_insert_ne. lia.
Qed.

Lemma nodes_push_untouched a this node :
  preserves (untouched a) (nodes_push this node).
Proof.
  unfold nodes_push, get_observer. apply preserves_deref_bind; [apply _|].
  intros s o Ho [Hlt Hobs]. unfold exec, retired. simpl. split; [split|]; try done.
  apply map_Forall_insert_2; [|done]. simpl. by apply (Hobs this).
Qed.

Lemma enqueue_untouched a this record :
  preserves (untouched a) (enqueue this record).
Proof.
  intros s Hret. destruct (observers s !! observer this) as [o|] eqn:Ho.
  - destruct (enqueue_outcome this record s o Ho) as [->|(l & l' & Hl & ->)]; [done|].
    destruct Hret as [Hlt Hobs]. split; [done|].
    unfold store_array. simpl. apply lookup_insert_ne.
    by apply (Hobs (observer this)).
  - by rewrite (enqueue_missing _ _ _ Ho).
Qed.

Lemma new_queue_untouched a this :
  preserves (untouched a) (records ← new_array; set_records_ this records).
Proof.
  intros s. unfold exec. rewrite new_queue_run.
  destruct (observers s !! this) as [o|]; simpl.
  - by apply untouched_fresh.
  - intros [Hlt Hobs]. unfold retired. simpl. split; [split; [lia | done]|].
    apply lookup_insert_ne. lia.
Qed.

Lemma takeRecords_untouched a this :
  preserves (untouched a) (takeRecords this).
Proof.
  intros s. unfold exec. destruct (observers s !! this) as [o|] eqn:Ho.
  - rewrite (takeRecords_run _ _ _ Ho). simpl. by apply untouched_fresh.
  - by rewrite (takeRecords_missing _ _ Ho).
Qed.

Lemma new_JsMutationObserver_untouched a callback :
  preserves (untouched a) (new_JsMutationObserver callback).
Proof. intros s. unfold exec. simpl. by apply untouched_fresh. Qed.

(** No operation writes to a retired array or makes it a queue again. *)
Lemma call_untouched a c : preserves (untouched a) (call c).
Proof.
  assert (Hadd : ∀ r, preserves (untouched a) (addListeners r)).
  { intros r. apply (preserves_weaken (frame (λ s, (arrays s, next_array s, observers s))));
      [apply untouched_frame | by apply listeners_frame_add]. }
  assert (Hrem : ∀ r, preserves (untouched a) (removeListeners r)).
  { intros r. apply (preserves_weaken (frame (λ s, (arrays s, next_array s, observers s))));
      [apply untouched_frame | by apply listeners_frame_remove]. }
  destruct c as [callback|this target options|this|this|fuel e|this record]; simpl.
  - apply preserves_bind; [apply _ | apply new_JsMutationObserver_untouched | intros _].
    apply preserves_skip, _.
  - apply observe_preserves; try apply _; try done.
    apply nodes_push_untouched.
  - apply disconnect_preserves; try apply _; try done.
    apply new_queue_untouched.
  - apply preserves_bind; [apply _ | apply takeRecords_untouched | intros _].
    apply preserves_skip, _.
  - apply handleEvent_preserves; try apply _; try done.
    intros r record. apply enqueue_untouched.
  - apply enqueue_untouched.
Qed.

Lemma run_calls_untouched a calls s :
  retired a s →
  retired a (run_calls calls s) ∧ arrays (run_calls calls s) !! a = arrays s !! a.
Proof.
  revert s. induction calls as [|c calls IH]; intros s Hret; simpl; [done|].
  destruct (call_untouched a c s Hret) as [Hret' E].
  destruct (IH _ Hret') as [Hret'' E']. split; [done | congruence].
Qed.

(** C7.  [takeRecords] returns the array that was the queue, with all
    its records in their order, and gives the observer a new, empty
    queue; on an empty queue the returned array is empty.  A second call
    right after returns that new array, which is empty.  The array that
    the first call returned is the queue of no observer any more, and no
    later operation, [enqueue] included, changes it. *)
Theorem takeRecords_drains (this : ObserverRef) (s : State) (o : JsMutationObserver) :
  queues_wf s →
  observers s !! this = Some o →
  ∃ contents o1 s1,
    arrays s !! records_ o = Some contents
    ∧ takeRecords this s = Ok (records_ o) s1
    ∧ arrays s1 !! records_ o = Some contents
    ∧ observers s1 !! this = Some o1
    ∧ records_ o1 ≠ records_ o
    ∧ arrays s1 !! records_ o1 = Some []
    ∧ (∃ s2, takeRecords this s1 = Ok (records_ o1) s2
             ∧ arrays s2 !! records_ o1 = Some [])
    ∧ (∀ calls, arrays (run_calls calls s1) !! records_ o = Some contents).
Proof.
  intros (Halloc & Hqueues & Hsep) Ho.
  destruct (Hqueues this o Ho) as [contents Hc].
  pose proof (Halloc _ _ Hc) as Hlt. simpl in Hlt.
  set (o1 := {| callback_ := callback_ o; nodes_ := nodes_ o; records_ := next_array s |}).
  exists contents, o1, (fresh_queue this o s).
  assert (H1 : arrays (fresh_queue this o s) !! records_ o = Some contents).
  { unfold fresh_queue. simpl. rewrite lookup_insert_ne by lia. done. }
  assert (Ho1 : observers (fresh_queue this o s) !! this = Some o1).
  { unfold fresh_queue. simpl. by rewrite lookup_insert_eq. }
  split; [done|]. split; [by apply takeRecords_run|]. split; [done|].
  split; [done|]. split; [simpl; lia|]. split.
  { unfold fresh_queue. simpl. by rewrite lookup_insert_eq. }
  split.
  - eexists. split; [by apply takeRecords_run|].
    unfold fresh_queue. simpl. rewrite lookup_insert_ne by lia.
    by rewrite lookup_insert_eq.
  - intros calls.
    destruct (run_calls_untouched (records_ o) calls (fresh_queue this o s)) as [_ ->];
      [|done].
    split; [unfold fresh_queue; simpl; lia|].
    unfold fresh_queue. simpl. intros k ok. rewrite lookup_insert.
    case_decide as Hk.
    + intros [= <-]. simpl. lia.
    + intros Hok Heq. apply Hk. by apply (Hsep this o Ho k ok Hok).
Qed.

(** On [sample_queued], where the queue of observer 0 holds record 2:
    the call returns that array, and a later [enqueue] of record 3 for
    the same observer goes to the new queue. *)
Lemma takeRecords_drains_witness :
  ∃ s1, takeRecords 0 sample_queued = Ok 0 s1
        ∧ arrays s1 !! 0 = Some [2]
        ∧ arrays (run_calls [Enqueue sample_registration 3] s1) !! 0 = Some [2].
Proof.
  destruct (takeRecords_drains 0 sample_queued
              {| callback_ := 0; nodes_ := [1]; records_ := 0 |})
    as (contents & o1 & s1 & Hc & Hrun & H1 & _ & _ & _ & _ & Hlater).
  - by_compute.
  - vm_compute. reflexivity.
  - exists s1. vm_compute in Hc. injection Hc as <-.
    split; [exact Hrun|]. split; [exact H1 | apply Hlater].
Defined.

(** ** [disconnect] *)

Lemma filter_all {A} (P : A → Prop) `{!∀ x, Decision (P x)} (l : list A) :
  Forall P l → filter P l = l.
Proof.
  induction 1 as [|x l Hx _ IH]; [done|].
  rewrite filter_cons, decide_True by done. by rewrite IH.
Qed.

Lemma filter_idemp {A} (P : A → Prop) `{!∀ x, Decision (P x)} (l : list A) :
  filter P (filter P l) = filter P l.
Proof.
  apply filter_all, Forall_forall. intros x Hx.
  by apply list_elem_of_filter in Hx as [? _].
Qed.

(** Among registrations of distinct observers, deleting the first one of
    [this] leaves those of the other observers. *)
Lemma delete_first_filter this (regs : list Registration) j r :
  list_find (λ r, observer r = this) regs = Some (j, r) →
  NoDup (observer <$> regs) →
  delete j regs = filter (λ r, observer r ≠ this) regs.
Proof.
  revert j. induction regs as [|x regs IH]; intros j Hfind Hnd; [done|].
  rewrite fmap_cons in Hnd. apply NoDup_cons in Hnd as [Hx Hnd].
  simpl in Hfind. rewrite filter_cons. destruct (decide (observer x = this)) as [E|E].
  - injection Hfind as <- <-. simpl.
    rewrite decide_False by (intros N; by apply N).
    symmetry. apply filter_all, Forall_forall. intros y Hy Ey.
    apply Hx. rewrite E, <- Ey. by apply list_elem_of_fmap_2.
  - rewrite decide_True by done.
    destruct (list_find _ regs) as [[j' r']|] eqn:Hf; simplify_eq/=.
    f_equal. by apply IH.
Qed.

Lemma disconnect_loop_run this node regs i s :
  disconnect_loop this node regs i s
  = match list_find (λ r, observer r = this) regs with
    | Some (j, r) => Ok tt (splice_registration node (i + j) (exec (removeListeners r) s))
    | None => Ok tt s
    end.
Proof.
  revert i. induction regs as [|r regs IH]; intros i; simpl; first done.
  destruct (decide (observer r = this)) as [Hr|Hr].
  - rewrite run_bind, removeListeners_total. simpl. by rewrite Nat.add_0_r.
  - rewrite IH. destruct (list_find _ regs) as [[j r']|]; simpl; last done.
    by rewrite Nat.add_succ_r.
Qed.

(** One node of [disconnect]: the registration of [this] goes, the
    others stay, and nothing but the table and the listeners changes. *)
Lemma disconnect_node_run this node s regs :
  registrationsTable s !! node = Some regs →
  NoDup (observer <$> regs) →
  ∃ s', disconnect_node this node s = Ok tt s'
        ∧ registrationsTable s'
          = alter (filter (λ r, observer r ≠ this)) node (registrationsTable s)
        ∧ observers s' = observers s
        ∧ arrays s' = arrays s
        ∧ next_array s' = next_array s.
Proof.
  intros Ht Hnd. unfold disconnect_node, SideTable_get, gets. rewrite run_bind. simpl.
  rewrite Ht, disconnect_loop_run.
  destruct (list_find _ regs) as [[j r]|] eqn:Hfind.
  - eexists. split; [done|]. unfold splice_registration. simpl.
    rewrite (listeners_frame_remove registrationsTable _ (λ _ _, eq_refl) _).
    rewrite (listeners_frame_remove observers _ (λ _ _, eq_refl) _).
    rewrite (listeners_frame_remove arrays _ (λ _ _, eq_refl) _).
    rewrite (listeners_frame_remove next_array _ (λ _ _, eq_refl) _).
    split; [|done]. apply map_eq. intros k. rewrite !lookup_alter.
    case_decide; [|done]. rewrite Ht. simpl. f_equal.
    by apply (delete_first_filter this regs j r).
  - exists s. split; [done|]. split; [|done].
    apply map_eq. intros k. rewrite lookup_alter. case_decide; [|done].
    subst k. rewrite Ht. simpl. f_equal. symmetry.
    apply filter_all. apply list_find_None in Hfind. exact Hfind.
Qed.

(** The [forEach] of [disconnect] over nodes that have an entry. *)
Lemma disconnect_nodes_run this nodes s :
  one_per_observer s →
  Forall (λ node, is_Some (registrationsTable s !! node)) nodes →
  ∃ s', forEach nodes (disconnect_node this) s = Ok tt s'
        ∧ registrationsTable s'
          = foldl (λ t node, alter (filter (λ r, observer r ≠ this)) node t)
              (registrationsTable s) nodes
        ∧ observers s' = observers s
        ∧ arrays s' = arrays s
        ∧ next_array s' = next_array s.
Proof.
  revert s. induction nodes as [|node nodes IH]; intros s Hone Hall.
  - by exists s.
  - apply Forall_cons in Hall as [[regs Ht] Hall].
    destruct (disconnect_node_run this node s regs Ht (Hone _ _ Ht))
      as (s1 & Hrun & Htab & Hobs & Harr & Hnext).
    destruct (IH s1) as (s' & Hrun' & Htab' & Hobs' & Harr' & Hnext').
    + unfold one_per_observer. rewrite Htab.
      apply map_Forall_alter; [done|]. intros regs' _ Hnd.
      eapply sublist_NoDup; [exact Hnd|]. apply fmap_sublist, sublist_filter.
    + eapply Forall_impl; [exact Hall|]. intros k Hk. simpl in Hk.
      rewrite Htab, lookup_alter. case_decide; [subst|done].
      by apply fmap_is_Some.
    + exists s'. simpl. rewrite run_bind, Hrun. split; [done|].
      rewrite Htab', Htab. split; [done|]. split; [congruence|].
      split; congruence.
Qed.

Lemma foldl_alter_lookup {A} (f : A → A) (t : gmap nat A) nodes k :
  (∀ x, f (f x) = f x) →
  foldl (λ t node, alter f node t) t nodes !! k
  = if decide (k ∈ nodes) then f <$> t !! k else t !! k.
Proof.
  intros Hf. revert t. induction nodes as [|node nodes IH]; intros t; cbn [foldl].
  - destruct (decide (k ∈ [])) as [Hin|]; [by apply elem_of_nil in Hin | done].
  - rewrite IH, lookup_alter.
    destruct (decide (k ∈ nodes)) as [Hin|Hin];
      destruct (decide (k ∈ node :: nodes)) as [Hin'|Hin'];
      rewrite elem_of_cons in Hin';
      destruct (decide (node = k)) as [Hk|Hk]; try done;
      try (exfalso; intuition congruence).
    + subst. destruct (t !! k); simpl; [|done]. by rewrite Hf.
    + by subst.
Qed.

(** C2, as the code has it.  [disconnect] takes the registration of the
    observer out of the list of every node: the lists keep the
    registrations of the other observers, in their order, and lose
    nothing else.  The observer gets a new, empty queue.  Its node list
    is left as it was, and so are the other observers. *)
Theorem disconnect_removes_own (this : ObserverRef) (s : State) (o : JsMutationObserver) :
  one_per_observer s →
  nodes_listed s →
  observers s !! this = Some o →
  ∃ s', disconnect this s = Ok tt s'
        ∧ registrationsTable s'
          = filter (λ r, observer r ≠ this) <$> registrationsTable s
        ∧ observers s'
          = <[this := {| callback_ := callback_ o; nodes_ := nodes_ o;
                         records_ := next_array s |}]> (observers s)
        ∧ arrays s' = <[next_array s := []]> (arrays s).
Proof.
  intros Hone [Hnodes Hregs] Ho.
  destruct (disconnect_nodes_run this (nodes_ o) s Hone (Hnodes _ _ Ho))
    as (s1 & Hrun & Htab & Hobs & Harr & Hnext).
  unfold disconnect, get_observer. rewrite run_deref_bind, Ho. rewrite run_bind.
  change (forEach (nodes_ o) _ s) with (forEach (nodes_ o) (disconnect_node this) s).
  rewrite Hrun, new_queue_run, Hobs, Ho.
  eexists. split; [reflexivity|]. unfold fresh_queue. simpl.
  rewrite Htab, Hobs, Harr, Hnext. split; [|done].
  apply map_eq. intros k. rewrite lookup_fmap, foldl_alter_lookup by apply filter_idemp.
  case_decide as Hk; [done|].
  destruct (registrationsTable s !! k) as [regs|] eqn:Ht; simpl; [|done].
  f_equal. symmetry. apply filter_all, Forall_forall. intros r Hr Hthis.
  specialize (Hregs k regs Ht). rewrite Forall_forall in Hregs.
  specialize (Hregs r Hr). unfold lists_node in Hregs.
  rewrite Hthis, Ho in Hregs. done.
Qed.

(** Observer 0 of [sample_observed] disconnects: node 1 keeps the
    registration of observer 1. *)
Lemma disconnect_removes_own_witness :
  ∃ s', disconnect 0 sample_observed = Ok tt s'
        ∧ registrationsTable s' !! 1
          = Some [{| reg_id := 1; observer := 1; target := 1;
                     options := watch_attributes false false |}]
        ∧ arrays s' !! next_array sample_observed = Some [].
Proof.
  destruct (disconnect_removes_own 0 sample_observed
              {| callback_ := 0; nodes_ := [1]; records_ := 0 |})
    as (s' & Hrun & Htab & _ & Harr).
  - by_compute.
  - by_compute.
  - vm_compute. reflexivity.
  - exists s'. split; [exact Hrun|]. rewrite Htab, Harr. split.
    + vm_compute. reflexivity.
    + apply lookup_insert_eq.
Defined.

(** C2, as it is stated, at [sample_observed]: after [disconnect] the
    node list of observer 0 is not empty. *)
Lemma disconnect_keeps_node_list :
  ¬ (∀ s' o', disconnect 0 sample_observed = Ok tt s' →
              observers s' !! 0 = Some o' → nodes_ o' = []).
Proof.
  intros H.
  specialize (H (exec (disconnect 0) sample_observed)
                {| callback_ := 0; nodes_ := [1]; records_ := 2 |}).
  discriminate H; vm_compute; reflexivity.
Qed.

(** ** The invariants of the module *)

(** *** Listeners are registrations *)

Lemma add_listener_registrations node type id capture s :
  keeps listeners_are_registrations s
    (add_listener node (type, RegistrationRef id, capture) s).
Proof.
  intros Hl. unfold add_listener. case_decide; [done|].
  unfold listeners_are_registrations. simpl.
  apply map_Forall_insert_2; [|done].
  apply Forall_app. split; [|by apply Forall_singleton].
  unfold listeners_of. destruct (eventListeners s !! node) as [l|] eqn:E; simpl; [|done].
  by apply (Hl node).
Qed.

Lemma remove_listener_registrations node entry s :
  keeps listeners_are_registrations s (remove_listener node entry s).
Proof.
  intros Hl. unfold remove_listener. case_decide; [|done].
  unfold listeners_are_registrations. simpl.
  apply map_Forall_insert_2; [|done].
  unfold listeners_of. destruct (eventListeners s !! node) as [l|] eqn:E; simpl; [|done].
  apply Forall_forall. intros x Hx. apply list_elem_of_filter in Hx as [_ Hx].
  specialize (Hl node l E). rewrite Forall_forall in Hl. by apply Hl.
Qed.

Lemma listeners_registrations_frame s s' :
  frame eventListeners s s' → keeps listeners_are_registrations s s'.
Proof. unfold frame, keeps, listeners_are_registrations. by intros ->. Qed.

Lemma call_listeners_are_registrations c :
  preserves (keeps listeners_are_registrations) (call c).
Proof.
  assert (Hadd : ∀ r, preserves (keeps listeners_are_registrations) (addListeners r)).
  { intros r. unfold addListeners, addEventListener.
    repeat preserves_step; try done; apply add_listener_registrations. }
  assert (Hrem : ∀ r, preserves (keeps listeners_are_registrations) (removeListeners r)).
  { intros r. unfold removeListeners, removeEventListener.
    repeat preserves_step; try done; apply remove_listener_registrations. }
  destruct c as [callback|this target options|this|this|fuel e|this record]; simpl.
  - apply (preserves_weaken (frame eventListeners)); [apply listeners_registrations_frame|].
    apply preserves_bind; [apply _ | by apply new_JsMutationObserver_frame | intros _].
    apply preserves_skip, _.
  - apply observe_preserves; try apply _; try done; try (by intros ? ? ?).
    apply (preserves_weaken (frame eventListeners)); [apply listeners_registrations_frame|].
    by apply nodes_push_frame.
  - apply disconnect_preserves; try apply _; try done; try (by intros ? ? ? ?).
    apply (preserves_weaken (frame eventListeners)); [apply listeners_registrations_frame|].
    by apply fresh_queue_frame.
  - apply (preserves_weaken (frame eventListeners)); [apply listeners_registrations_frame|].
    apply preserves_bind; [apply _ | by apply takeRecords_frame | intros _].
    apply preserves_skip, _.
  - apply (preserves_weaken (frame eventListeners)); [apply listeners_registrations_frame|].
    by apply handleEvent_frame.
  - apply (preserves_weaken (frame eventListeners)); [apply listeners_registrations_frame|].
    by apply enqueue_frame.
Qed.

(** *** The queues are separate arrays of the store *)

Lemma queues_wf_frame s s' :
  frame (λ s, (arrays s, next_array s, observers s)) s s' → keeps queues_wf s s'.
Proof.
  unfold frame, keeps, queues_wf, arrays_allocated, queues_allocated, queues_separate.
  intros [= Ha Hn Ho]. by rewrite Ha, Hn, Ho.
Qed.

(** An observer gets a new array as its queue. *)
Lemma queues_wf_fresh k o s n :
  records_ o = next_array s →
  keeps queues_wf s
    (set_observers (<[k := o]> (observers s)) n
       (set_arrays (<[next_array s := []]> (arrays s)) (S (next_array s)) s)).
Proof.
  intros Hr (Halloc & Hqueues & Hsep).
  assert (Hlt : ∀ k' o', observers s !! k' = Some o' → records_ o' < next_array s).
  { intros k' o' Hk'. destruct (Hqueues _ _ Hk') as [l Hl]. apply (Halloc _ _ Hl). }
  unfold queues_wf, arrays_allocated, queues_allocated, queues_separate. simpl.
  split; [|split].
  - apply map_Forall_insert_2; [lia|].
    intros a l Hl. specialize (Halloc a l Hl). simpl in Halloc. lia.
  - apply map_Forall_insert_2; [rewrite Hr; by rewrite lookup_insert_eq|].
    intros k' o' Hk'. simpl. specialize (Hlt _ _ Hk').
    rewrite lookup_insert_ne by lia. by apply (Hqueues k').
  - intros k1 o1. rewrite lookup_insert. case_decide as H1.
    + intros [= <-] k2 o2. rewrite lookup_insert. case_decide as H2; [by subst|].
      intros Hk2 Heq. specialize (Hlt _ _ Hk2). lia.
    + intros Hk1 k2 o2. rewrite lookup_insert. case_decide as H2.
      * intros [= <-] Heq. specialize (Hlt _ _ Hk1). lia.
      * intros Hk2. by apply (Hsep k1 o1 Hk1 k2 o2).
Qed.

Lemma nodes_push_queues_wf this node :
  preserves (keeps queues_wf) (nodes_push this node).
Proof.
  unfold nodes_push, get_observer. apply preserves_deref_bind; [apply _|].
  intros s o Ho (Halloc & Hqueues & Hsep).
  unfold exec, queues_wf, arrays_allocated, queues_allocated, queues_separate. simpl.
  split; [done|]. split.
  - apply map_Forall_insert_2; [|done]. simpl. by apply (Hqueues this).
  - intros k1 o1. rewrite lookup_insert. case_decide as H1.
    + intros [= <-] k2 o2. rewrite lookup_insert. case_decide as H2; [by subst|].
      intros Hk2 Heq. subst k1. simpl in Heq. by apply (Hsep this o Ho k2 o2).
    + intros Hk1 k2 o2. rewrite lookup_insert. case_decide as H2.
      * intros [= <-] Heq. subst k2. simpl in Heq. by apply (Hsep k1 o1 Hk1 this o).
      * intros Hk2. by apply (Hsep k1 o1 Hk1 k2 o2).
Qed.

Lemma enqueue_queues_wf this record :
  preserves (keeps queues_wf) (enqueue this record).
Proof.
  intros s Hwf. destruct (observers s !! observer this) as [o|] eqn:Ho.
  - destruct (enqueue_outcome this record s o Ho) as [->|(l & l' & Hl & ->)]; [done|].
    destruct Hwf as (Halloc & Hqueues & Hsep).
    unfold queues_wf, arrays_allocated, queues_allocated, queues_separate, store_array.
    simpl. split; [|split; [|done]].
    + apply map_Forall_insert_2; [|done]. apply (Halloc _ _ Hl).
    + intros k ok Hk. simpl. rewrite lookup_insert. case_decide; [done|].
      by apply (Hqueues k).
  - by rewrite (enqueue_missing _ _ _ Ho).
Qed.

Lemma new_queue_queues_wf this :
  preserves (keeps queues_wf) (records ← new_array; set_records_ this records).
Proof.
  intros s. unfold exec. rewrite new_queue_run.
  destruct (observers s !! this) as [o|]; simpl.
  - by apply queues_wf_fresh.
  - intros (Halloc & Hqueues & Hsep).
    unfold queues_wf, arrays_allocated, queues_allocated, queues_separate. simpl.
    split; [|split; [|done]].
    + apply map_Forall_insert_2; [lia|].
      intros a l Hl. specialize (Halloc a l Hl). simpl in Halloc. lia.
    + intros k ok Hk. simpl. rewrite lookup_insert. case_decide; [done|].
      by apply (Hqueues k).
Qed.

Lemma call_queues_wf c : preserves (keeps queues_wf) (call c).
Proof.
  assert (Hadd : ∀ r, preserves (keeps queues_wf) (addListeners r)).
  { intros r. apply (preserves_weaken (frame (λ s, (arrays s, next_array s, observers s))));
      [apply queues_wf_frame | by apply listeners_frame_add]. }
  assert (Hrem : ∀ r, preserves (keeps queues_wf) (removeListeners r)).
  { intros r. apply (preserves_weaken (frame (λ s, (arrays s, next_array s, observers s))));
      [apply queues_wf_frame | by apply listeners_frame_remove]. }
  destruct c as [callback|this target options|this|this|fuel e|this record]; simpl.
  - apply preserves_bind; [apply _ | | intros _; apply preserves_skip, _].
    intros s. unfold exec. simpl. by apply queues_wf_fresh.
  - apply observe_preserves; try apply _; try done; try (by intros ? ? ?).
    apply nodes_push_queues_wf.
  - apply disconnect_preserves; try apply _; try done; try (by intros ? ? ? ?).
    apply new_queue_queues_wf.
  - apply preserves_bind; [apply _ | | intros _; apply preserves_skip, _].
    intros s. unfold exec. destruct (observers s !! this) as [o|] eqn:Ho.
    + rewrite (takeRecords_run _ _ _ Ho). simpl. by apply queues_wf_fresh.
    + by rewrite (takeRecords_missing _ _ Ho).
  - apply handleEvent_preserves; try apply _; try done; try (by intros ? ? ? ?);
      try (by intros ? ? ?).
    intros r record. apply enqueue_queues_wf.
  - apply enqueue_queues_wf.
Qed.

(** *** Node lists and the table agree *)

Lemma lists_node_insert obs this o o' node r :
  obs !! this = Some o →
  (∀ n, n ∈ nodes_ o → n ∈ nodes_ o') →
  lists_node obs node r → lists_node (<[this := o']> obs) node r.
Proof.
  intros Ho Hsub. unfold lists_node. rewrite lookup_insert.
  case_decide as E; [|done]. rewrite <- E, Ho. apply Hsub.
Qed.

Lemma lists_node_insert_new obs k o' node r :
  obs !! k = None →
  lists_node obs node r → lists_node (<[k := o']> obs) node r.
Proof.
  intros Hk. unfold lists_node. rewrite lookup_insert.
  case_decide as E; [|done]. by rewrite <- E, Hk.
Qed.

(** The table changes within the list of one node, to a list whose
    registrations name observers that the old list named. *)
Lemma nodes_listed_in_alter table obs f node :
  (∀ regs r, table !! node = Some regs → r ∈ f regs →
     ∃ r', r' ∈ regs ∧ observer r' = observer r) →
  nodes_listed_in table obs → nodes_listed_in (alter f node table) obs.
Proof.
  intros Hf [H1 H2]. split.
  - intros k o Hk. eapply Forall_impl; [apply (H1 k o Hk)|].
    intros n Hn. simpl in Hn. rewrite lookup_alter. case_decide; [subst|done].
    by apply fmap_is_Some.
  - apply map_Forall_alter; [done|]. intros regs Ht Hregs.
    apply Forall_forall. intros r Hr.
    destruct (Hf regs r Ht Hr) as (r' & Hr' & E).
    rewrite Forall_forall in Hregs. specialize (Hregs r' Hr').
    unfold lists_node in *. by rewrite <- E.
Qed.

(** An observer is changed without touching its node list. *)
Lemma nodes_listed_in_same_nodes table obs this o o' :
  obs !! this = Some o → nodes_ o' = nodes_ o →
  nodes_listed_in table obs → nodes_listed_in table (<[this := o']> obs).
Proof.
  intros Ho Hn [H1 H2]. split.
  - apply map_Forall_insert_2; [|done]. rewrite Hn. by apply (H1 this).
  - intros node regs Ht. eapply Forall_impl; [apply (H2 node regs Ht)|].
    intros r. apply (lists_node_insert _ _ o); [done|]. by rewrite Hn.
Qed.

(** A new observer comes with an empty node list. *)
Lemma nodes_listed_in_new table obs k o' :
  obs !! k = None → nodes_ o' = [] →
  nodes_listed_in table obs → nodes_listed_in table (<[k := o']> obs).
Proof.
  intros Hk Hn [H1 H2]. split.
  - apply map_Forall_insert_2; [|done]. rewrite Hn. constructor.
  - intros node regs Ht. eapply Forall_impl; [apply (H2 node regs Ht)|].
    intros r. by apply lists_node_insert_new.
Qed.

(** A registration of [this] is appended to the list of [target], and
    [target] to the node list of [this]. *)
Lemma nodes_listed_in_register table obs this o o' target r :
  obs !! this = Some o → nodes_ o' = nodes_ o ++ [target] → observer r = this →
  nodes_listed_in table obs →
  nodes_listed_in (<[target := default [] (table !! target) ++ [r]]> table)
    (<[this := o']> obs).
Proof.
  intros Ho Hn Hr [H1 H2].
  assert (Hkeep : ∀ n, is_Some (table !! n) →
            is_Some (<[target := default [] (table !! target) ++ [r]]> table !! n)).
  { intros n Hn'. rewrite lookup_insert. by case_decide. }
  assert (Hmono : ∀ n x, lists_node obs n x → lists_node (<[this := o']> obs) n x).
  { intros n x. apply (lists_node_insert _ _ o); [done|].
    intros m Hm. rewrite Hn. apply elem_of_app. by left. }
  split.
  - apply map_Forall_insert_2.
    + rewrite Hn. apply Forall_app. split.
      * eapply Forall_impl; [apply (H1 this o Ho)|]. intros n. apply Hkeep.
      * apply Forall_singleton. by rewrite lookup_insert_eq.
    + intros k ok Hk. eapply Forall_impl; [apply (H1 k ok Hk)|]. intros n. apply Hkeep.
  - apply map_Forall_insert_2.
    + apply Forall_app. split.
      * destruct (table !! target) as [regs|] eqn:Ht; simpl; [|constructor].
        eapply Forall_impl; [apply (H2 target regs Ht)|]. intros x. apply Hmono.
      * apply Forall_singleton. unfold lists_node. rewrite Hr, lookup_insert_eq, Hn.
        apply elem_of_app. right. by apply list_elem_of_singleton.
    + intros n regs Ht. eapply Forall_impl; [apply (H2 n regs Ht)|].
      intros x. apply Hmono.
Qed.

Lemma registry_wf_frame s s' :
  frame (λ s, (registrationsTable s, observers s, next_observer s)) s s' →
  keeps registry_wf s s'.
Proof.
  unfold frame, keeps, registry_wf, nodes_listed, observers_allocated.
  intros [= Ht Ho Hn]. by rewrite Ht, Ho, Hn.
Qed.

(** An existing observer is replaced by one with the same node list. *)
Lemma registry_wf_same_nodes this o o' s :
  observers s !! this = Some o → nodes_ o' = nodes_ o →
  ∀ s', registrationsTable s' = registrationsTable s →
        observers s' = <[this := o']> (observers s) →
        next_observer s' = next_observer s →
        registry_wf s → registry_wf s'.
Proof.
  intros Ho Hn s' Ht Hobs Hnext [Hl Ha].
  unfold registry_wf, nodes_listed, observers_allocated. rewrite Ht, Hobs, Hnext. split.
  - by apply (nodes_listed_in_same_nodes _ _ _ o).
  - apply map_Forall_insert_2; [|done]. apply (Ha _ _ Ho).
Qed.

Lemma new_queue_registry_wf this :
  preserves (keeps registry_wf) (records ← new_array; set_records_ this records).
Proof.
  intros s. unfold exec. rewrite new_queue_run.
  destruct (observers s !! this) as [o|] eqn:Ho; simpl; [|by intros ?].
  intros Hw.
  exact (registry_wf_same_nodes this o
             {| callback_ := callback_ o; nodes_ := nodes_ o; records_ := next_array s |}
             s Ho eq_refl (fresh_queue this o s) eq_refl eq_refl eq_refl Hw).
Qed.

Lemma takeRecords_registry_wf this :
  preserves (keeps registry_wf) (takeRecords this).
Proof.
  intros s. unfold exec. destruct (observers s !! this) as [o|] eqn:Ho.
  - rewrite (takeRecords_run _ _ _ Ho). simpl. intros Hw.
    exact (registry_wf_same_nodes this o
             {| callback_ := callback_ o; nodes_ := nodes_ o; records_ := next_array s |}
             s Ho eq_refl (fresh_queue this o s) eq_refl eq_refl eq_refl Hw).
  - by rewrite (takeRecords_missing _ _ Ho).
Qed.

Lemma new_JsMutationObserver_registry_wf callback :
  preserves (keeps registry_wf) (new_JsMutationObserver callback).
Proof.
  intros s [Hl Ha]. unfold exec, registry_wf, nodes_listed, observers_allocated. simpl.
  assert (Hnew : observers s !! next_observer s = None).
  { destruct (observers s !! next_observer s) eqn:E; [|done].
    specialize (Ha _ _ E). simpl in Ha. lia. }
  split.
  - by apply nodes_listed_in_new.
  - apply map_Forall_insert_2; [lia|].
    intros k o Hk. specialize (Ha k o Hk). simpl in Ha. lia.
Qed.

Lemma disconnect_registry_wf this :
  preserves (keeps registry_wf) (disconnect this).
Proof.
  apply disconnect_preserves; try apply _.
  - intros r.
    apply (preserves_weaken
             (frame (λ s, (registrationsTable s, observers s, next_observer s))));
      [apply registry_wf_frame | by apply listeners_frame_remove].
  - intros node i s [Hl Ha]. split; [|done].
    unfold nodes_listed, splice_registration. simpl.
    apply nodes_listed_in_alter; [|done].
    intros regs r _ Hr. exists r. split; [|done].
    eapply elem_of_sublist; [exact Hr | apply sublist_delete].
  - apply new_queue_registry_wf.
Qed.

Lemma nodes_push_then_add this target r s :
  observers (state_of ((nodes_push this target;; addListeners r) s))
  = match observers s !! this with
    | Some o => <[this := {| callback_ := callback_ o;
                              nodes_ := nodes_ o ++ [target];
                              records_ := records_ o |}]> (observers s)
    | None => observers s
    end.
Proof.
  rewrite run_bind. unfold nodes_push, get_observer. rewrite run_deref_bind.
  destruct (observers s !! this) as [o|]; [|done]. unfold modify.
  change (state_of (addListeners ?r ?s0)) with (exec (addListeners r) s0).
  by rewrite (listeners_frame_add observers _ (λ _ _, eq_refl) _).
Qed.

(** The observers after an [observe] that passes the test: a new
    registration adds the target to the node list of the observer. *)
Lemma observe_observers this target options s :
  config_invalid options = false →
  observers (exec (observe this target options) s)
  = match registrationsTable s !! target ≫= list_find (λ r, observer r = this) with
    | Some _ => observers s
    | None =>
        match observers s !! this with
        | Some o => <[this := {| callback_ := callback_ o;
                                  nodes_ := nodes_ o ++ [target];
                                  records_ := records_ o |}]> (observers s)
        | None => observers s
        end
    end.
Proof.
  intros Hv. unfold exec. rewrite (observe_run _ _ _ _ Hv).
  destruct (_ ≫= _) as [[i r]|] eqn:E.
  - change (state_of (addListeners ?r ?s0)) with (exec (addListeners r) s0).
    rewrite (listeners_frame_add observers _ (λ _ _, eq_refl) _).
    unfold replace_options. simpl.
    by rewrite (listeners_frame_remove observers _ (λ _ _, eq_refl) _).
  - cbv zeta. rewrite nodes_push_then_add.
    by destruct (registrationsTable s !! target).
Qed.

Lemma observe_next_observer this target options :
  preserves (frame next_observer) (observe this target options).
Proof.
  apply observe_preserves; try apply _; try done.
  - intros r. by apply listeners_frame_add.
  - intros r. by apply listeners_frame_remove.
  - unfold nodes_push, get_observer. repeat preserves_step. reflexivity.
Qed.

Lemma observe_registry_wf this target options s :
  is_Some (observers s !! this) →
  keeps registry_wf s (exec (observe this target options) s).
Proof.
  intros [o Ho] [Hl Ha]. destruct (config_invalid options) eqn:Hv.
  { unfold exec, observe. by rewrite Hv. }
  unfold registry_wf, nodes_listed, observers_allocated.
  rewrite (observe_next_observer this target options s).
  rewrite (observe_table _ _ _ _ Hv), (observe_observers _ _ _ _ Hv).
  destruct (_ ≫= _) as [[i r]|] eqn:E.
  - split; [|done]. apply nodes_listed_in_alter; [|done].
    intros regs r' _ Hr'.
    apply list_elem_of_lookup in Hr' as [j Hj].
    rewrite list_lookup_alter in Hj. case_decide.
    + apply fmap_Some in Hj as (x & Hx & ->).
      exists x. split; [by eapply list_elem_of_lookup_2 | reflexivity].
    + exists r'. split; [by eapply list_elem_of_lookup_2 | reflexivity].
  - rewrite Ho. split.
    + by apply (nodes_listed_in_register _ _ _ o).
    + apply map_Forall_insert_2; [|done]. apply (Ha _ _ Ho).
Qed.

Lemma call_registry_wf c s :
  call_ok c s → keeps registry_wf s (exec (call c) s).
Proof.
  assert (Hweak : ∀ m : M unit,
            preserves (frame (λ s, (registrationsTable s, observers s, next_observer s))) m →
            preserves (keeps registry_wf) m).
  { intros m. apply preserves_weaken, registry_wf_frame. }
  destruct c as [callback|this target options|this|this|fuel e|this record]; simpl;
    intros Hok.
  - apply (preserves_bind (keeps registry_wf));
      [apply new_JsMutationObserver_registry_wf | intros _; apply preserves_skip, _].
  - by apply observe_registry_wf.
  - apply disconnect_registry_wf.
  - apply (preserves_bind (keeps registry_wf));
      [apply takeRecords_registry_wf | intros _; apply preserves_skip, _].
  - apply Hweak. by apply handleEvent_frame.
  - apply Hweak. by apply enqueue_frame.
Qed.

(** The invariants hold when the module is loaded. *)
Lemma wf_initial parents : wf (initial parents).
Proof.
  unfold wf, one_per_observer, listeners_are_registrations, queues_wf, arrays_allocated,
    queues_allocated, queues_separate, nodes_listed, nodes_listed_in, observers_allocated.
  simpl. repeat split; apply map_Forall_empty.
Qed.

(** Every call on an observer that exists keeps the invariants, whether
    it returns or throws. *)
Lemma wf_call c s : wf s → call_ok c s → wf (exec (call c) s).
Proof.
  intros (H1 & H2 & H3 & H4 & H5) Hok.
  destruct (call_registry_wf c s Hok (conj H4 H5)) as [H4' H5'].
  split; [by apply call_one_per_observer|].
  split; [by apply call_listeners_are_registrations|].
  split; [by apply call_queues_wf|]. done.
Qed.

Lemma wf_run_calls calls s : wf s → calls_ok calls s → wf (run_calls calls s).
Proof.
  revert s. induction calls as [|c calls IH]; intros s Hwf Hok; simpl; [done|].
  destruct Hok as [Hc Hok]. apply IH; [by apply wf_call | done].
Qed.

(** ** Runs of the whole pipeline *)

(** One change seen through two registrations of one observer.  The
    registration on the changed node asks for no old value and is
    visited first, so the base record is queued; the registration on the
    parent asks for the old value, and the extended record takes the
    place of the base record. *)
Example base_then_extended :
  queue_of (exec (handleEvent 2 sample_event)
              (sample_chain (watch_attributes false false) (watch_attributes true true))) 0
  = Some [3].
Proof. vm_compute. reflexivity. Qed.

(** The other order: the extended record is queued first, and the base
    record that follows it is dropped. *)
Example extended_then_base :
  queue_of (exec (handleEvent 2 sample_event)
              (sample_chain (watch_attributes true false) (watch_attributes false true))) 0
  = Some [3].
Proof. vm_compute. reflexivity. Qed.

(** Two changes give two records, and [takeRecords] returns them oldest
    first. *)
Example takeRecords_fifo :
  ∃ s, (handleEvent 2 sample_event;; handleEvent 2 sample_event;; takeRecords 0)
         (sample_chain (watch_attributes false false) (watch_attributes false true))
       = Ok 0 s
       ∧ arrays s !! 0 = Some [2; 4] ∧ queue_of s 0 = Some [].
Proof. eexists. vm_compute. repeat split. Qed.

(** Without [subtree] the registration on the parent gets nothing for a
    change below it. *)
Example no_subtree_no_record :
  queue_of (exec (handleEvent 2 sample_event) sample_observed) 1 = Some []
  ∧ queue_of (exec (handleEvent 2 sample_event) sample_observed) 0 = Some [3].
Proof. vm_compute. split; reflexivity. Qed.

(** ** [handleEvent] returns *)

(** [enqueue] returns when the observer and its queue exist and the
    records at hand are objects. *)
Lemma enqueue_returns this record s o :
  observers s !! observer this = Some o →
  queues_allocated s → queues_in_heap s → is_Some (heap s !! record) →
  ∃ s', enqueue this record s = Ok tt s'
        ∧ (s' = s
           ∨ ∃ l', s' = store_array (records_ o) l' s
                   ∧ Forall (λ x, is_Some (heap s !! x)) l').
Proof.
  intros Ho Hqueues Hheap [orecord Hr].
  destruct (Hqueues _ _ Ho) as [contents Hc].
  pose proof (Hheap _ _ Hc) as Hall. simpl in Hall.
  destruct contents as [|x contents _] using rev_ind.
  - rewrite (enqueue_empty _ _ _ _ Ho Hc). eexists. split; [done|]. right.
    eexists. split; [done|]. by apply Forall_singleton.
  - apply Forall_app in Hall as [Hinit Hlast].
    apply Forall_singleton in Hlast as [olast Hl].
    rewrite (enqueue_nonempty _ _ _ _ _ _ _ _ Ho Hc Hl Hr).
    repeat case_decide; eexists; (split; [done|]); try (by left); right;
      eexists; (split; [done|]).
    + apply Forall_app. split; [done | by apply Forall_singleton].
    + apply Forall_app. split; [|by apply Forall_singleton].
      apply Forall_app. split; [done | by apply Forall_singleton].
Qed.

Lemma enqueue_pairs_return l s :
  queues_wf s → queues_in_heap s →
  Forall (λ p, is_Some (observers s !! observer p.1) ∧ is_Some (heap s !! p.2)) l →
  ∃ s', forEach l enqueue_pair s = Ok tt s'
        ∧ queues_wf s' ∧ queues_in_heap s' ∧ heap s' = heap s.
Proof.
  revert s. induction l as [|[r record] l IH]; intros s Hwf Hheap Hall.
  - by exists s.
  - apply Forall_cons in Hall as [[[o Ho] Hrec] Hall]. simpl in Ho, Hrec.
    destruct (enqueue_returns r record s o Ho (proj1 (proj2 Hwf)) Hheap Hrec)
      as (s1 & Hrun & Hs1).
    pose proof (enqueue_queues_wf r record s Hwf) as Hwf1.
    unfold exec in Hwf1. rewrite Hrun in Hwf1. simpl in Hwf1.
    assert (Hframe : observers s1 = observers s ∧ heap s1 = heap s
                     ∧ queues_in_heap s1).
    { destruct Hs1 as [->|(l' & -> & Hl')]; [done|].
      split; [done|]. split; [done|].
      unfold queues_in_heap, store_array. simpl. by apply map_Forall_insert_2. }
    destruct Hframe as (Hobs & Hh & Hheap1).
    destruct (IH s1 Hwf1 Hheap1) as (s' & Hrun' & Hwf' & Hheap' & Hh').
    { by rewrite Hobs, Hh. }
    exists s'. simpl. rewrite run_bind. unfold enqueue_pair at 1. simpl.
    rewrite Hrun. split; [done|]. split; [done|]. split; [done | congruence].
Qed.

(** In a state that satisfies the invariants, with fuel for the chain of
    the changed node, [handleEvent] returns, and the invariants of the
    queues hold after it. *)
Lemma handleEvent_switch_returns fuel e s chain :
  wf s → queues_in_heap s →
  is_chain (parentNode s) (Some (ev_target e)) chain →
  length chain ≤ fuel →
  ∃ s', handleEvent_switch fuel e s = Ok tt s' ∧ queues_wf s' ∧ queues_in_heap s'.
Proof.
  intros (_ & _ & Hq & [_ Hlisted] & _) Hheap Hchain Hfuel.
  assert (Hwalk : ∀ callback s1 n,
            parentNode s1 = parentNode s → registrationsTable s1 = registrationsTable s →
            observers s1 = observers s → queues_wf s1 → queues_in_heap s1 →
            is_Some (heap s1 !! n) → is_Some (heap s1 !! S n) →
            (∀ o record, callback o = Some record → record = n ∨ record = S n) →
            ∃ s', forEachAncestorAndObserverEnqueueRecord fuel (ev_target e) callback s1
                  = Ok tt s'
                  ∧ queues_wf s' ∧ queues_in_heap s').
  { intros callback s1 n Hp Ht Ho Hq1 Hheap1 Hn HSn Hcb.
    unfold forEachAncestorAndObserverEnqueueRecord.
    rewrite (ancestor_loop_run fuel _ _ _ chain) by (by rewrite ?Hp).
    destruct (enqueue_pairs_return
                (dispatched (registrationsTable s1) (ev_target e) callback chain) s1)
      as (s' & Hrun & Hq' & Hheap' & _); [done | done | | by exists s'].
    apply Forall_forall. intros [r record] Hin.
    apply elem_of_dispatched in Hin as (node & _ & Hr & _ & Hrec). simpl. split.
    - rewrite Ht in Hr.
      destruct (registrationsTable s !! node) as [regs|] eqn:Hnode; simpl in Hr;
        [|by apply elem_of_nil in Hr].
      specialize (Hlisted node regs Hnode). rewrite Forall_forall in Hlisted.
      specialize (Hlisted r Hr). unfold lists_node in Hlisted. rewrite Ho.
      by destruct (observers s !! observer r).
    - by destruct (Hcb _ _ Hrec) as [-> | ->]. }
  assert (Hgrow : ∀ h o1 o2 n,
            queues_in_heap s →
            queues_in_heap (set_heap (<[S n := o2]> (<[n := o1]> (heap s))) h s)).
  { intros h o1 o2 n Hs a l Ha. simpl in Ha. specialize (Hs a l Ha). simpl in Hs.
    eapply Forall_impl; [exact Hs|]. intros x Hx. simpl.
    rewrite !lookup_insert. by repeat case_decide. }
  unfold handleEvent_switch. repeat case_decide.
  - rewrite run_bind, attributes_records_run. simpl.
    apply (Hwalk _ _ (next_loc s)); try done.
    + by apply Hgrow.
    + simpl. rewrite lookup_insert_ne by lia. by rewrite lookup_insert_eq.
    + simpl. by rewrite lookup_insert_eq.
    + intros o record. unfold attributes_callback.
      repeat case_match; intros [= <-]; auto.
  - rewrite run_bind, characterData_records_run. simpl.
    apply (Hwalk _ _ (next_loc s)); try done.
    + by apply Hgrow.
    + simpl. rewrite lookup_insert_ne by lia. by rewrite lookup_insert_eq.
    + simpl. by rewrite lookup_insert_eq.
    + intros o record. unfold characterData_callback.
      repeat case_match; intros [= <-]; auto.
  - by exists s.
Qed.

Lemma handleEvent_returns fuel e s chain :
  wf s → queues_in_heap s →
  is_chain (parentNode s) (Some (ev_target e)) chain →
  length chain ≤ fuel →
  ∃ s', handleEvent fuel e s = Ok tt s' ∧ queues_wf s' ∧ queues_in_heap s'.
Proof.
  intros Hwf Hheap Hchain Hfuel. rewrite handleEvent_run.
  by apply (handleEvent_switch_returns fuel e (stop_event e s) chain).
Qed.

(** ** The heap in the states that the module reaches *)

Lemma heap_wf_frame s s' :
  frame (λ s, (heap s, next_loc s)) s s' → keeps heap_wf s s'.
Proof. unfold frame, keeps, heap_wf. intros [= Hh Hn]. by rewrite Hh, Hn. Qed.

Lemma heap_acyclic_records h n o1 p2 :
  heap_acyclic h → obj_proto o1 = Some mutationRecordPrototype →
  mutationRecordPrototype < n →
  heap_acyclic (<[S n := {| obj_proto := Some n; obj_props := p2 |}]> (<[n := o1]> h)).
Proof.
  intros Hh Ho1 Hn. apply map_Forall_insert_2; [unfold proto_below; simpl; lia|].
  apply map_Forall_insert_2; [|done]. unfold proto_below. by rewrite Ho1.
Qed.

Lemma handleEvent_heap_wf fuel e : preserves (keeps heap_wf) (handleEvent fuel e).
Proof.
  assert (Hwalk : ∀ target callback,
            preserves (keeps heap_wf) (ancestor_loop fuel (Some target) target callback)).
  { intros target callback. apply (preserves_weaken (frame (λ s, (heap s, next_loc s))));
      [apply heap_wf_frame | by apply ancestor_loop_frame]. }
  unfold handleEvent.
  apply preserves_bind; [apply _ | by intros s ? | intros _].
  unfold handleEvent_switch, forEachAncestorAndObserverEnqueueRecord. repeat case_decide.
  - apply preserves_bind; [apply _ | | intros records; apply Hwalk].
    intros s [Hh Hn]. unfold exec. rewrite attributes_records_run.
    split; simpl; [by apply heap_acyclic_records | lia].
  - apply preserves_bind; [apply _ | | intros records; apply Hwalk].
    intros s [Hh Hn]. unfold exec. rewrite characterData_records_run.
    split; simpl; [by apply heap_acyclic_records | lia].
  - apply preserves_skip, _.
Qed.

Lemma call_heap_wf c : preserves (keeps heap_wf) (call c).
Proof.
  assert (Hweak : ∀ m : M unit,
            preserves (frame (λ s, (heap s, next_loc s))) m → preserves (keeps heap_wf) m).
  { intros m. apply preserves_weaken, heap_wf_frame. }
  destruct c as [callback|this target options|this|this|fuel e|this record]; simpl.
  - apply Hweak.
    apply preserves_bind; [apply _ | by apply new_JsMutationObserver_frame | intros _].
    apply preserves_skip, _.
  - apply Hweak. apply observe_preserves; try apply _; try done.
    + intros r. by apply listeners_frame_add.
    + intros r. by apply listeners_frame_remove.
    + by apply nodes_push_frame.
  - apply Hweak. apply disconnect_preserves; try apply _; try done.
    + intros r. by apply listeners_frame_remove.
    + by apply fresh_queue_frame.
  - apply Hweak.
    apply preserves_bind; [apply _ | by apply takeRecords_frame | intros _].
    apply preserves_skip, _.
  - apply handleEvent_heap_wf.
  - apply Hweak. by apply enqueue_frame.
Qed.

(** The walk keeps a relation that [enqueue] keeps for the records that
    the builder can return. *)
Section walk_preserves.
Context (R : relation State) `{!Reflexive R, !Transitive R}.
Context (P : Loc → Prop) (callback : MutationObserverInit → option Loc).
Hypothesis callback_ok : ∀ o record, callback o = Some record → P record.
Hypothesis enqueue_ok : ∀ r record, P record → preserves R (enqueue r record).

Lemma walk_preserves fuel node target :
  preserves R (ancestor_loop fuel node target callback).
Proof using Type*.
  revert node. induction fuel as [|fuel IH]; intros [n|]; simpl;
    try (by apply preserves_skip); try (by apply preserves_throw).
  apply preserves_bind; [done | by apply preserves_gets | intros found].
  apply preserves_bind; [done | | intros _].
  - destruct found as [regs|]; [|by apply preserves_skip].
    apply preserves_forEach; [done..|]. intros r. unfold visit.
    destruct (_ && _); [by apply preserves_skip|].
    destruct (callback _) as [record|] eqn:E; [|by apply preserves_skip].
    apply enqueue_ok. by apply (callback_ok _ _ E).
  - apply preserves_bind; [done | by apply preserves_gets | intros parent; apply IH].
Qed.
End walk_preserves.

Lemma queues_in_heap_frame s s' :
  frame (λ s, (heap s, arrays s)) s s' → keeps queues_in_heap s s'.
Proof. unfold frame, keeps, queues_in_heap. intros [= Hh Ha]. by rewrite Hh, Ha. Qed.

(** A new empty array joins the store. *)
Lemma queues_in_heap_new_array s n :
  keeps queues_in_heap s (set_arrays (<[next_array s := []]> (arrays s)) n s).
Proof.
  intros Hs. unfold queues_in_heap. simpl. by apply map_Forall_insert_2.
Qed.

(** [enqueue] of an object keeps the queues in the heap, and keeps the
    objects that there are. *)
Lemma enqueue_queues_in_heap (locs : list Loc) this record :
  record ∈ locs →
  preserves (keeps (λ s, queues_in_heap s ∧ Forall (λ x, is_Some (heap s !! x)) locs))
    (enqueue this record).
Proof.
  intros Hin s [Hs Hlocs].
  assert (Hrec : is_Some (heap s !! record)).
  { rewrite Forall_forall in Hlocs. by apply Hlocs. }
  destruct (observers s !! observer this) as [o|] eqn:Ho;
    [|by rewrite (enqueue_missing _ _ _ Ho)].
  destruct (enqueue_is_store this record s o Ho) as [-> | [i ->]]; [done|].
  unfold exec, array_store, array_read. rewrite run_deref_bind.
  destruct (arrays s !! records_ o) as [l|] eqn:Hl; [|done].
  pose proof (Hs _ _ Hl) as Hall. simpl in Hall.
  repeat case_decide; simpl; try done; (split; [|done]);
    unfold queues_in_heap; simpl; (apply map_Forall_insert_2; [|done]).
  - apply Forall_insert; done.
  - apply Forall_app. split; [done | by apply Forall_singleton].
Qed.

Lemma handleEvent_queues_in_heap fuel e :
  preserves (keeps queues_in_heap) (handleEvent fuel e).
Proof.
  assert (Hwalk : ∀ callback s1 n,
            queues_in_heap s1 → is_Some (heap s1 !! n) → is_Some (heap s1 !! S n) →
            (∀ o record, callback o = Some record → record ∈ [n; S n]) →
            queues_in_heap
              (exec (forEachAncestorAndObserverEnqueueRecord fuel (ev_target e) callback) s1)).
  { intros callback s1 n Hs Hn HSn Hcb.
    apply (walk_preserves
             (keeps (λ s, queues_in_heap s ∧ Forall (λ x, is_Some (heap s !! x)) [n; S n]))
             (λ l, l ∈ [n; S n]) callback Hcb).
    - intros r record. apply enqueue_queues_in_heap.
    - split; [done|]. by repeat constructor. }
  assert (Hgrow : ∀ s h o1 o2 n,
            queues_in_heap s →
            queues_in_heap (set_heap (<[S n := o2]> (<[n := o1]> (heap s))) h s)).
  { intros s h o1 o2 n Hs a l Ha. simpl in Ha. specialize (Hs a l Ha). simpl in Hs.
    eapply Forall_impl; [exact Hs|]. intros x Hx. simpl.
    rewrite !lookup_insert. by repeat case_decide. }
  intros s0 Hs0. unfold exec. rewrite handleEvent_run.
  assert (Hs : queues_in_heap (stop_event e s0)) by exact Hs0.
  revert Hs. generalize (stop_event e s0). clear s0 Hs0. intros s Hs.
  unfold handleEvent_switch. repeat case_decide; [| |done].
  - rewrite run_bind, attributes_records_run. simpl.
    apply (Hwalk _ _ (next_loc s)).
    + by apply Hgrow.
    + simpl. rewrite lookup_insert_ne by lia. by rewrite lookup_insert_eq.
    + simpl. by rewrite lookup_insert_eq.
    + intros o record. unfold attributes_callback.
      repeat case_match; intros [= <-]; set_solver.
  - rewrite run_bind, characterData_records_run. simpl.
    apply (Hwalk _ _ (next_loc s)).
    + by apply Hgrow.
    + simpl. rewrite lookup_insert_ne by lia. by rewrite lookup_insert_eq.
    + simpl. by rewrite lookup_insert_eq.
    + intros o record. unfold characterData_callback.
      repeat case_match; intros [= <-]; set_solver.
Qed.

Lemma call_queues_in_heap c s :
  call_ok c s → keeps queues_in_heap s (exec (call c) s).
Proof.
  assert (Hweak : ∀ m : M unit,
            preserves (frame (λ s, (heap s, arrays s))) m →
            preserves (keeps queues_in_heap) m).
  { intros m. apply preserves_weaken, queues_in_heap_frame. }
  assert (Hqueue : ∀ this,
            preserves (keeps queues_in_heap)
              (records ← new_array; set_records_ this records)).
  { intros this s0. unfold exec. rewrite new_queue_run.
    destruct (observers s0 !! this); apply queues_in_heap_new_array. }
  destruct c as [callback|this target options|this|this|fuel e|this record]; simpl;
    intros Hok.
  - apply (preserves_bind (keeps queues_in_heap));
      [|intros _; apply preserves_skip, _].
    intros s0. apply queues_in_heap_new_array.
  - apply Hweak. apply observe_preserves; try apply _; try done.
    + intros r. by apply listeners_frame_add.
    + intros r. by apply listeners_frame_remove.
    + by apply nodes_push_frame.
  - apply disconnect_preserves; try apply _; try (by intros ? ? ? ?); [|apply Hqueue].
    intros r. apply Hweak. by apply listeners_frame_remove.
  - apply (preserves_bind (keeps queues_in_heap));
      [|intros _; apply preserves_skip, _].
    intros s0. unfold exec. destruct (observers s0 !! this) as [o|] eqn:Ho.
    + rewrite (takeRecords_run _ _ _ Ho). apply queues_in_heap_new_array.
    + by rewrite (takeRecords_missing _ _ Ho).
  - apply handleEvent_queues_in_heap.
  - intros Hs.
    apply (enqueue_queues_in_heap [record] this record); [by apply list_elem_of_singleton|].
    split; [done | by apply Forall_singleton].
Qed.

(** ** Reading a record *)

(** The record with the old value reads every property but [oldValue]
    through its prototype, the base record; the base record reads
    [oldValue] from [mutationRecordPrototype]. *)
Example extended_record_reads_base :
  let h := heap (exec (handleEvent 2 sample_event) sample_observed) in
  get_prop 3 h 3 "attributeName" = Some (VString "id")
  ∧ get_prop 3 h 3 "type" = Some (VString "attributes")
  ∧ get_prop 3 h 3 "target" = Some (VNode 2)
  ∧ get_prop 3 h 3 "oldValue" = Some (VString "old")
  ∧ get_prop 3 h 2 "oldValue" = Some VNull.
Proof. vm_compute. repeat split. Qed.

(** ** Each registration is dispatched once *)

Lemma targets_match_frame s s' :
  frame registrationsTable s s' → keeps targets_match s s'.
Proof. unfold frame, keeps, targets_match. by intros ->. Qed.

Lemma observe_targets_match this target options :
  preserves (keeps targets_match) (observe this target options).
Proof.
  intros s Hs. destruct (config_invalid options) eqn:Hv.
  { unfold exec, observe. by rewrite Hv. }
  unfold targets_match. rewrite (observe_table _ _ _ _ Hv).
  destruct (_ ≫= _) as [[i r]|] eqn:E.
  - apply map_Forall_alter; [done|]. intros regs _ Hregs.
    apply Forall_forall. intros x Hx.
    apply list_elem_of_lookup in Hx as [j Hj].
    rewrite Forall_forall in Hregs.
    rewrite list_lookup_alter in Hj. case_decide.
    + apply fmap_Some in Hj as (y & Hy & ->). simpl.
      apply Hregs. by eapply list_elem_of_lookup_2.
    + apply Hregs. by eapply list_elem_of_lookup_2.
  - apply map_Forall_insert_2; [|done]. apply Forall_app. split.
    + destruct (registrationsTable s !! target) as [regs|] eqn:Ht; simpl; [|constructor].
      by apply (Hs target).
    + by apply Forall_singleton.
Qed.

Lemma call_targets_match c : preserves (keeps targets_match) (call c).
Proof.
  assert (Hweak : ∀ m : M unit,
            preserves (frame registrationsTable) m → preserves (keeps targets_match) m).
  { intros m. apply preserves_weaken, targets_match_frame. }
  destruct c as [callback|this target options|this|this|fuel e|this record]; simpl.
  - apply Hweak.
    apply preserves_bind; [apply _ | by apply new_JsMutationObserver_frame | intros _].
    apply preserves_skip, _.
  - apply observe_targets_match.
  - apply disconnect_preserves; try apply _.
    + intros r. apply Hweak. by apply listeners_frame_remove.
    + intros node i s Hs. unfold targets_match, splice_registration. simpl.
      apply map_Forall_alter; [done|]. intros regs _ Hregs.
      apply Forall_forall. intros x Hx. rewrite Forall_forall in Hregs.
      apply Hregs. eapply elem_of_sublist; [exact Hx | apply sublist_delete].
    + apply Hweak. by apply fresh_queue_frame.
  - apply Hweak.
    apply preserves_bind; [apply _ | by apply takeRecords_frame | intros _].
    apply preserves_skip, _.
  - apply Hweak. by apply handleEvent_frame.
  - apply Hweak. by apply enqueue_frame.
Qed.

(** Two chains from one node are the same chain. *)
Lemma is_chain_inj parents node chain1 chain2 :
  is_chain parents node chain1 → is_chain parents node chain2 → chain1 = chain2.
Proof.
  revert node chain2. induction chain1 as [|n chain1 IH]; intros node [|m chain2]; simpl.
  - done.
  - by intros -> [? _].
  - by intros [-> _] ?.
  - intros [-> H1] [[= <-] H2]. f_equal. by apply (IH (parents !! n)).
Qed.

Lemma is_chain_suffix parents node chain1 n chain2 :
  is_chain parents node (chain1 ++ n :: chain2) → is_chain parents (parents !! n) chain2.
Proof.
  revert node. induction chain1 as [|m chain1 IH]; intros node; simpl.
  - by intros [_ H].
  - intros [_ H]. by apply (IH (parents !! m)).
Qed.

(** A chain visits no node twice. *)
Lemma is_chain_NoDup parents node chain :
  is_chain parents node chain → NoDup chain.
Proof.
  revert node. induction chain as [|n chain IH]; intros node; simpl; [constructor|].
  intros [_ H]. constructor; [|by apply (IH (parents !! n))].
  intros Hin. apply list_elem_of_split in Hin as (l1 & l2 & Hsplit).
  pose proof H as H'. rewrite Hsplit in H'. apply is_chain_suffix in H'.
  pose proof (is_chain_inj _ _ _ _ H H') as E.
  apply (f_equal length) in E. rewrite Hsplit, length_app in E. simpl in E. lia.
Qed.

Lemma dispatched_at_sublist target callback node regs :
  (dispatched_at target callback node regs).*1 `sublist_of` regs.
Proof.
  unfold dispatched_at. induction regs as [|r regs IH]; simpl; [constructor|].
  destruct (decide (applies node target r)); [|by constructor].
  destruct (callback (options r)); simpl; by constructor.
Qed.

(** No registration is dispatched twice in one walk. *)
Lemma dispatched_once s changed callback chain :
  one_per_observer s → targets_match s →
  is_chain (parentNode s) (Some changed) chain →
  NoDup (dispatched (registrationsTable s) changed callback chain).*1.
Proof.
  intros Hone Htargets Hchain. apply is_chain_NoDup in Hchain.
  unfold dispatched. induction Hchain as [|node chain Hnode Hnd IH]; [constructor|].
  rewrite bind_cons, fmap_app. apply NoDup_app. split; [|split; [|done]].
  - eapply sublist_NoDup; [|apply dispatched_at_sublist].
    destruct (registrationsTable s !! node) as [regs|] eqn:Ht; simpl; [|constructor].
    eapply NoDup_fmap_1, (Hone node regs Ht).
  - intros r Hr Hr'.
    assert (Hhere : target r = node).
    { eapply elem_of_sublist in Hr; [|apply dispatched_at_sublist].
      destruct (registrationsTable s !! node) as [regs|] eqn:Ht; simpl in Hr;
        [|by apply elem_of_nil in Hr].
      specialize (Htargets node regs Ht). rewrite Forall_forall in Htargets.
      by apply Htargets. }
    apply list_elem_of_fmap in Hr' as ([r' record] & -> & Hin).
    apply list_elem_of_bind in Hin as (node' & Hin & Hnode').
    assert (Hthere : target r' = node').
    { apply (list_elem_of_fmap_2 fst) in Hin. simpl in Hin.
      eapply elem_of_sublist in Hin; [|apply dispatched_at_sublist].
      destruct (registrationsTable s !! node') as [regs|] eqn:Ht; simpl in Hin;
        [|by apply elem_of_nil in Hin].
      specialize (Htargets node' regs Ht). rewrite Forall_forall in Htargets.
      by apply Htargets. }
    simpl in Hhere. congruence.
Qed.

(** ** The invariants together *)

(** The states that the module reaches from its load by calls on
    observers that exist, with [enqueue] called on objects: they satisfy
    the invariants under which the properties above are stated. *)
Lemma reachable_invariants parents calls :
  calls_ok calls (initial parents) →
  wf (run_calls calls (initial parents))
  ∧ heap_wf (run_calls calls (initial parents))
  ∧ queues_in_heap (run_calls calls (initial parents))
  ∧ targets_match (run_calls calls (initial parents)).
Proof.
  assert (Hinit : wf (initial parents) ∧ heap_wf (initial parents)
                  ∧ queues_in_heap (initial parents) ∧ targets_match (initial parents)).
  { split; [apply wf_initial|]. split; [|split; apply map_Forall_empty].
    split; [by_compute | simpl; unfold mutationRecordPrototype; lia]. }
  revert Hinit. generalize (initial parents).
  induction calls as [|c calls IH]; intros s Hinv Hok; [done|].
  destruct Hinv as (Hwf & Hheap & Hq & Ht). destruct Hok as [Hc Hok]. simpl.
  apply IH; [|done].
  split; [by apply wf_call|]. split; [by apply call_heap_wf|].
  split; [by apply call_queues_in_heap | by apply call_targets_match].
Qed.

(** * Further properties of the module *)

(** ** One change, one record for an observer *)

(** The walk of one change, seen from the queue of one observer.  [H]
    and [O] are the heap and the observers during the walk, [n] and
    [S n] the two records of the change, [Q] the queue of [this] when
    the walk starts. *)
Section one_change.
Context (H : gmap Loc JsObject) (O : gmap ObserverRef JsMutationObserver).
Context (n : Loc) (on osn : JsObject).
Context (this : ObserverRef) (o : JsMutationObserver) (Q : list Loc).
Hypothesis Hn : H !! n = Some on.
Hypothesis Hpn : obj_proto on = Some mutationRecordPrototype.
Hypothesis HSn : H !! S n = Some osn.
Hypothesis HpSn : obj_proto osn = Some n.
Hypothesis Hbase : mutationRecordPrototype < n.
Hypothesis Hthis : O !! this = Some o.
Hypothesis HQ :
  Forall (λ x, mutationRecordPrototype < x < n
               ∧ ∃ ox, H !! x = Some ox ∧ proto_below x ox) Q.

(** Any [enqueue] of the walk returns, keeps what the walk relies on,
    and writes to the queue of the observer of its registration only. *)
Lemma enqueue_step cur r record ok :
  heap cur = H → observers cur = O → queues_wf cur → queues_in_heap cur →
  O !! observer r = Some ok → is_Some (H !! record) →
  ∃ s', enqueue r record cur = Ok tt s'
        ∧ heap s' = H ∧ observers s' = O ∧ queues_wf s' ∧ queues_in_heap s'
        ∧ ∀ a, a ≠ records_ ok → arrays s' !! a = arrays cur !! a.
Proof using Type.
  intros Hh Ho Hwf Hheap Hok Hrec. rewrite <- Ho in Hok. rewrite <- Hh in Hrec.
  destruct (enqueue_returns r record cur ok Hok (proj1 (proj2 Hwf)) Hheap Hrec)
    as (s' & Hrun & Hs').
  pose proof (enqueue_queues_wf r record cur Hwf) as Hwf'.
  unfold exec in Hwf'. rewrite Hrun in Hwf'. simpl in Hwf'.
  exists s'. split; [done|].
  destruct Hs' as [-> | (l' & -> & Hl')]; [done|].
  split; [done|]. split; [done|]. split; [done|]. split.
  - unfold queues_in_heap, store_array. simpl. by apply map_Forall_insert_2.
  - intros a Ha. unfold store_array. simpl. by rewrite lookup_insert_ne.
Qed.

(** An [enqueue] for a registration of [this], on a queue that holds [Q]
    and after it at most one record of the change. *)
Lemma enqueue_own cur r record tail :
  heap cur = H → observers cur = O → observer r = this →
  arrays cur !! records_ o = Some (Q ++ tail) →
  tail = [] ∨ tail = [n] ∨ tail = [S n] →
  record = n ∨ record = S n →
  ∃ s', enqueue r record cur = Ok tt s'
        ∧ arrays s' !! records_ o = Some (Q ++ absorb (S n) tail record).
Proof using Type*.
  intros Hh Ho Hr Ha Htail Hrecord.
  assert (Hobs : observers cur !! observer r = Some o) by (by rewrite Ho, Hr).
  assert (Hrec : ∃ orecord, heap cur !! record = Some orecord
                   ∧ (record = n ∧ orecord = on ∨ record = S n ∧ orecord = osn)).
  { rewrite Hh. destruct Hrecord as [-> | ->]; eauto. }
  destruct Hrec as (orecord & Hrec & Hwhich).
  destruct Htail as [-> | [-> | ->]].
  - rewrite app_nil_r in Ha. simpl.
    destruct Q as [|last init _] using rev_ind.
    + rewrite (enqueue_empty _ _ _ _ Hobs Ha). eexists. split; [done|].
      unfold store_array. simpl. by rewrite lookup_insert_eq.
    + apply Forall_app in HQ as [_ Hlast].
      apply Forall_singleton in Hlast as ([Hlo Hhi] & olast & Hl & Hbelow).
      rewrite <- Hh in Hl.
      rewrite (enqueue_nonempty _ _ _ _ _ _ _ _ Hobs Ha Hl Hrec).
      rewrite decide_False by (destruct Hrecord; lia).
      rewrite decide_False.
      2:{ intros E. unfold proto_below in Hbelow. rewrite <- E in Hbelow.
          destruct Hrecord; lia. }
      rewrite decide_False.
      2:{ destruct Hwhich as [[_ ->] | [_ ->]]; rewrite ?Hpn, ?HpSn; intros [= E]; lia. }
      eexists. split; [done|]. unfold store_array. simpl. by rewrite lookup_insert_eq.
  - rewrite <- Hh in Hn.
    rewrite (enqueue_nonempty _ _ _ _ _ _ _ _ Hobs Ha Hn Hrec). simpl.
    destruct Hwhich as [[-> ->] | [-> ->]].
    + rewrite decide_True by done. rewrite decide_False by lia. by eexists.
    + rewrite decide_False by lia.
      rewrite decide_False by (rewrite Hpn; intros [= E]; unfold mutationRecordPrototype in *; lia).
      rewrite decide_True by done. rewrite decide_True by done.
      eexists. split; [done|]. unfold store_array. simpl. by rewrite lookup_insert_eq.
  - rewrite <- Hh in HSn.
    rewrite (enqueue_nonempty _ _ _ _ _ _ _ _ Hobs Ha HSn Hrec). simpl.
    destruct Hwhich as [[-> ->] | [-> ->]].
    + rewrite decide_False by lia.
      rewrite (decide_True (P := Some n = obj_proto osn)) by done.
      destruct (decide (n = S n)); by eexists.
    + rewrite decide_True by done. rewrite decide_True by done. by eexists.
Qed.

Lemma absorb_tail tail record :
  tail = [] ∨ tail = [n] ∨ tail = [S n] →
  record = n ∨ record = S n →
  absorb (S n) tail record = [] ∨ absorb (S n) tail record = [n]
  ∨ absorb (S n) tail record = [S n].
Proof using Type.
  intros [-> | [-> | ->]] [-> | ->]; simpl; try case_decide; auto.
Qed.

(** The enqueues of a walk, one after the other. *)
Lemma enqueue_pairs_own pairs cur tail :
  heap cur = H → observers cur = O → queues_wf cur → queues_in_heap cur →
  arrays cur !! records_ o = Some (Q ++ tail) →
  tail = [] ∨ tail = [n] ∨ tail = [S n] →
  Forall (λ p, is_Some (O !! observer p.1) ∧ (p.2 = n ∨ p.2 = S n)) pairs →
  ∃ s', forEach pairs enqueue_pair cur = Ok tt s'
        ∧ heap s' = H ∧ observers s' = O ∧ queues_wf s' ∧ queues_in_heap s'
        ∧ arrays s' !! records_ o
          = Some (Q ++ foldl (absorb (S n)) tail (records_for this pairs)).
Proof using Type*.
  revert cur tail. induction pairs as [|[r record] pairs IH];
    intros cur tail Hh Ho Hwf Hheap Ha Htail Hall.
  - by exists cur.
  - apply Forall_cons in Hall as [[[ok Hok] Hrecord] Hall]. simpl in Hok, Hrecord.
    assert (Hrec : is_Some (H !! record)) by (destruct Hrecord as [-> | ->]; eauto).
    destruct (enqueue_step cur r record ok Hh Ho Hwf Hheap Hok Hrec)
      as (s1 & Hrun & Hh1 & Ho1 & Hwf1 & Hheap1 & Hother).
    assert (Hnext : ∃ tail',
              (tail' = [] ∨ tail' = [n] ∨ tail' = [S n])
              ∧ arrays s1 !! records_ o = Some (Q ++ tail')
              ∧ foldl (absorb (S n)) tail (records_for this ((r, record) :: pairs))
                = foldl (absorb (S n)) tail' (records_for this pairs)).
    { unfold records_for. rewrite filter_cons. simpl.
      destruct (decide (observer r = this)) as [Hr|Hr].
      - destruct (enqueue_own cur r record tail Hh Ho Hr Ha Htail Hrecord)
          as (s1' & Hrun' & Ha').
        rewrite Hrun in Hrun'. injection Hrun' as <-.
        exists (absorb (S n) tail record). split; [by apply absorb_tail|]. done.
      - exists tail. split; [done|]. split; [|done].
        rewrite Hother; [done|]. intros E. apply Hr.
        destruct Hwf as (_ & _ & Hsep). unfold queues_separate in Hsep.
        rewrite Ho in Hsep.
        symmetry. by apply (Hsep this o Hthis (observer r) ok Hok). }
    destruct Hnext as (tail' & Htail' & Ha1 & ->).
    destruct (IH s1 tail' Hh1 Ho1 Hwf1 Hheap1 Ha1 Htail' Hall) as (s' & Hrun' & Hrest).
    exists s'. split; [|done]. simpl. rewrite run_bind.
    unfold enqueue_pair at 1. simpl. by rewrite Hrun.
Qed.
End one_change.

Lemma coalesced_ext record recordWithOldValue l1 l2 :
  l1 ≠ [] → l2 ≠ [] → (recordWithOldValue ∈ l1 ↔ recordWithOldValue ∈ l2) →
  coalesced record recordWithOldValue l1 = coalesced record recordWithOldValue l2.
Proof.
  intros H1 H2 Hiff. unfold coalesced.
  destruct (decide (l1 = [])); [done|]. destruct (decide (l2 = [])); [done|].
  destruct (decide (recordWithOldValue ∈ l1)), (decide (recordWithOldValue ∈ l2));
    tauto.
Qed.

(** Enqueuing records of one change one after the other leaves what
    [coalesced] says. *)
Lemma foldl_absorb n tail records :
  tail = [] ∨ tail = [n] ∨ tail = [S n] →
  Forall (λ x, x = n ∨ x = S n) records →
  foldl (absorb (S n)) tail records = coalesced n (S n) (tail ++ records).
Proof.
  intros Htail Hall. revert tail Htail.
  induction Hall as [|x records Hx _ IH]; intros tail Htail.
  - rewrite app_nil_r. unfold coalesced. simpl.
    destruct Htail as [-> | [-> | ->]]; [done| |].
    + rewrite decide_False by done. rewrite decide_False; [done|].
      intros Hin. apply list_elem_of_singleton in Hin. lia.
    + rewrite decide_False by done. rewrite decide_True; [done|].
      by apply list_elem_of_singleton.
  - simpl. rewrite IH by (by apply absorb_tail).
    apply coalesced_ext.
    + destruct Htail as [-> | [-> | ->]]; simpl; [done|by case_decide..].
    + destruct Htail as [-> | [-> | ->]]; done.
    + destruct Htail as [-> | [-> | ->]], Hx as [-> | ->]; simpl;
        try case_decide; try lia; cbn [app]; rewrite !elem_of_cons; intuition lia.
Qed.

(** The walk that [handleEvent] runs for a mutation event: over the two
    records that it has created at the next two locations of the heap. *)
Lemma handleEvent_walk fuel e s :
  is_mutation e →
  ∃ on osn,
    obj_proto on = Some mutationRecordPrototype
    ∧ obj_proto osn = Some (next_loc s)
    ∧ handleEvent fuel e s
      = forEachAncestorAndObserverEnqueueRecord fuel (ev_target e)
          (builder_of e (next_loc s) (S (next_loc s)))
          (set_heap (<[S (next_loc s) := osn]> (<[next_loc s := on]> (heap s)))
             (S (S (next_loc s))) (stop_event e s)).
Proof.
  intros Hmut. rewrite handleEvent_run. unfold handleEvent_switch, builder_of.
  destruct (decide (ev_type e = "DOMAttrModified")) as [Ha|Ha].
  - rewrite run_bind, attributes_records_run. eexists _, _. by repeat split.
  - rewrite decide_True by (by destruct Hmut).
    rewrite run_bind, characterData_records_run. eexists _, _. by repeat split.
Qed.

(** The builder of an event returns one of the two records. *)
Lemma builder_of_record e record recordWithOldValue options r :
  builder_of e record recordWithOldValue options = Some r →
  r = record ∨ r = recordWithOldValue.
Proof.
  unfold builder_of, attributes_callback, characterData_callback.
  repeat case_match; intros [= <-]; auto.
Qed.

(** One change, seen from the queue of one observer: [handleEvent]
    returns, and the queue is what it was, followed by what [coalesced]
    says of the records dispatched to the registrations of the
    observer. *)
Lemma handleEvent_queue fuel e s chain this queue :
  wf s → records_wf s → is_mutation e → walkable s fuel (ev_target e) chain →
  queue_of s this = Some queue →
  ∃ s', handleEvent fuel e s = Ok tt s'
        ∧ queue_of s' this
          = Some (queue ++ coalesced (next_loc s) (S (next_loc s))
                             (records_for this (dispatched_for e s chain))).
Proof.
  intros (_ & _ & Hq & [_ Hlisted] & _) ([Hacyc Hbase] & Halloc & Hheap & Hrec)
    Hmut [Hchain Hfuel] Hqueue.
  unfold queue_of in Hqueue.
  destruct (observers s !! this) as [o|] eqn:Hthis; simpl in Hqueue; [|done].
  destruct (handleEvent_walk fuel e s Hmut) as (on & osn & Hpn & HpSn & ->).
  unfold dispatched_for.
  set (n := next_loc s) in *.
  set (H := <[S n := osn]> (<[n := on]> (heap s))).
  unfold forEachAncestorAndObserverEnqueueRecord.
  rewrite (ancestor_loop_run fuel _ _ _ chain) by done.
  cbn [registrationsTable set_heap stop_event].
  set (pairs := dispatched (registrationsTable s) (ev_target e)
                  (builder_of e n (S n)) chain).
  assert (Hpairs : Forall (λ p, is_Some (observers s !! observer p.1)
                                ∧ (p.2 = n ∨ p.2 = S n)) pairs).
  { apply Forall_forall. intros [r record] Hin.
    apply elem_of_dispatched in Hin as (node & _ & Hr & _ & Hcb). simpl. split.
    - destruct (registrationsTable s !! node) as [regs|] eqn:Hnode; simpl in Hr;
        [|by apply elem_of_nil in Hr].
      specialize (Hlisted node regs Hnode). rewrite Forall_forall in Hlisted.
      specialize (Hlisted r Hr). unfold lists_node in Hlisted.
      by destruct (observers s !! observer r).
    - by apply builder_of_record in Hcb. }
  assert (Hold : ∀ x, is_Some (heap s !! x) → H !! x = heap s !! x).
  { intros x [ox Hx]. pose proof (Halloc _ _ Hx) as Hlt. simpl in Hlt.
    unfold H. rewrite !lookup_insert_ne by (fold n in Hlt; lia). done. }
  destruct (enqueue_pairs_own H (observers s) n on osn this o queue) with
    (pairs := pairs) (cur := set_heap H (S (S n)) (stop_event e s)) (tail := @nil Loc)
    as (s' & Hrun & _ & Ho & _ & _ & Ha); try done.
  - unfold H. rewrite lookup_insert_ne by lia. by rewrite lookup_insert_eq.
  - unfold H. by rewrite lookup_insert_eq.
  - apply Forall_forall. intros x Hx.
    pose proof (Hrec _ _ Hqueue) as Hrecx. simpl in Hrecx.
    rewrite Forall_forall in Hrecx. specialize (Hrecx x Hx).
    pose proof (Hheap _ _ Hqueue) as Hheapx. simpl in Hheapx.
    rewrite Forall_forall in Hheapx. specialize (Hheapx x Hx).
    pose proof Hheapx as [ox Hox].
    pose proof (Halloc _ _ Hox) as Hlt. simpl in Hlt. fold n in Hlt.
    split; [lia|]. exists ox. split; [by rewrite Hold|].
    by apply (Hacyc x ox).
  - intros a l Hl. specialize (Hheap a l Hl). simpl in Hheap.
    eapply Forall_impl; [exact Hheap|]. intros x Hx. simpl. by rewrite Hold.
  - by rewrite app_nil_r.
  - by left.
  - exists s'. split; [done|]. unfold queue_of. rewrite Ho, Hthis. simpl.
    rewrite Ha. f_equal. f_equal. apply foldl_absorb; [by left|].
    unfold records_for. apply Forall_fmap, Forall_forall.
    intros [r record] Hin%list_elem_of_filter.
    rewrite Forall_forall in Hpairs. destruct Hin as [_ Hin].
    by destruct (Hpairs (r, record) Hin).
Qed.

(** X1.  One change gives an observer at most one record.  In a state
    that satisfies the invariants, for an attribute or character data
    event on a node whose chain of parents the fuel covers, [handleEvent]
    returns, and the queue of every observer is its queue before the
    event followed by what [coalesced] says of the records that the walk
    dispatches to the registrations of that observer: nothing when no
    registration of it gets a record, the record with the old value when
    some registration of it gets that one, and the base record
    otherwise.  The records queued before the event stay as they were,
    and no observer comes or goes. *)
Theorem one_record_per_change (fuel : nat) (e : MutationEvent) (s : State)
    (chain : list Node) :
  wf s → records_wf s → is_mutation e → walkable s fuel (ev_target e) chain →
  ∃ s', handleEvent fuel e s = Ok tt s'
        ∧ ∀ this, queue_of s' this
                  = (λ queue, queue ++ coalesced (next_loc s) (S (next_loc s))
                                          (records_for this (dispatched_for e s chain)))
                    <$> queue_of s this.
Proof.
  intros Hwf Hrec Hmut Hwalk.
  destruct (handleEvent_returns fuel e s chain Hwf (proj1 (proj2 (proj2 Hrec)))
              (proj1 Hwalk) (proj2 Hwalk)) as (s' & Hrun & _).
  exists s'. split; [done|]. intros this.
  destruct (queue_of s this) as [queue|] eqn:Hqueue; simpl.
  - destruct (handleEvent_queue fuel e s chain this queue Hwf Hrec Hmut Hwalk Hqueue)
      as (s'' & Hrun' & Hq).
    rewrite Hrun in Hrun'. by injection Hrun' as <-.
  - pose proof (handleEvent_frame observers fuel e (λ _ _ _, eq_refl) (λ _ _ _, eq_refl) (λ _ _, eq_refl) s)
      as Hobs.
    unfold frame, exec in Hobs. rewrite Hrun in Hobs. simpl in Hobs.
    unfold queue_of in *. rewrite Hobs.
    destruct (observers s !! this) as [o|] eqn:Ho; simpl in *; [|done].
    destruct Hwf as (_ & _ & (_ & Halloc & _) & _).
    destruct (Halloc this o Ho) as [? ?]. congruence.
Qed.

(** A change of [id] on node 2, for an observer registered on node 2
    without old values and on node 1, for the subtree, with them: the one
    record that is queued is the record with the old value. *)
Lemma one_record_per_change_witness :
  ∃ s', handleEvent 2 sample_event
          (sample_chain (watch_attributes false false) (watch_attributes true true))
        = Ok tt s'
        ∧ queue_of s' 0 = Some [3].
Proof.
  destruct (one_record_per_change 2 sample_event
              (sample_chain (watch_attributes false false) (watch_attributes true true))
              [2; 1])
    as (s' & Hrun & Hqueue); [by_compute.. | ].
  exists s'. split; [exact Hrun | exact (Hqueue 0)].
Defined.

(** ** The records in the states that the module reaches *)

(** What holds of all queued objects holds after one more is stored. *)
Lemma array_store_Forall (P : Loc → Prop) b i v :
  P v →
  preserves (keeps (λ s, map_Forall (λ _ l, Forall P l) (arrays s))) (array_store b i v).
Proof.
  intros Hv s Hs. unfold exec, array_store, array_read. rewrite run_deref_bind.
  destruct (arrays s !! b) as [l|] eqn:Hl; [|done].
  pose proof (Hs _ _ Hl) as Hall. simpl in Hall.
  repeat case_decide; simpl; try done; (apply map_Forall_insert_2; [|done]).
  - by apply Forall_insert.
  - apply Forall_app. split; [done | by apply Forall_singleton].
Qed.

Lemma enqueue_Forall (P : Loc → Prop) this record :
  P record →
  preserves (keeps (λ s, map_Forall (λ _ l, Forall P l) (arrays s))) (enqueue this record).
Proof.
  intros Hrecord s Hs.
  destruct (observers s !! observer this) as [o|] eqn:Ho;
    [|by rewrite (enqueue_missing _ _ _ Ho)].
  destruct (enqueue_is_store this record s o Ho) as [-> | [i ->]]; [done|].
  by apply (array_store_Forall P).
Qed.

(** The calls other than [handleEvent] create no object. *)
Lemma call_heap_frame c :
  (∀ fuel e, c ≠ HandleEvent fuel e) →
  preserves (frame (λ s, (heap s, next_loc s))) (call c).
Proof.
  intros Hc.
  destruct c as [callback|this target options|this|this|fuel e|this record]; simpl.
  - apply preserves_bind; [apply _ | by apply new_JsMutationObserver_frame | intros _].
    apply preserves_skip, _.
  - apply observe_preserves; try apply _; try done.
    + intros r. by apply listeners_frame_add.
    + intros r. by apply listeners_frame_remove.
    + by apply nodes_push_frame.
  - apply disconnect_preserves; try apply _; try done.
    + intros r. by apply listeners_frame_remove.
    + by apply fresh_queue_frame.
  - apply preserves_bind; [apply _ | by apply takeRecords_frame | intros _].
    apply preserves_skip, _.
  - by destruct (Hc fuel e).
  - by apply enqueue_frame.
Qed.

(** The calls other than [handleEvent] and [enqueue] add no object to a
    queue: what holds of all queued objects holds after them. *)
Lemma call_queues_Forall (P : Loc → Prop) c :
  (∀ fuel e, c ≠ HandleEvent fuel e) → (∀ r record, c ≠ Enqueue r record) →
  preserves (keeps (λ s, map_Forall (λ _ l, Forall P l) (arrays s))) (call c).
Proof.
  intros Hc Hc'.
  set (I := λ s : State, map_Forall (λ _ l, Forall P l) (arrays s)).
  assert (Hweak : ∀ m : M unit, preserves (frame arrays) m → preserves (keeps I) m).
  { intros m. apply preserves_weaken. intros s s' E Hs. unfold I. by rewrite E. }
  assert (Hnew : ∀ s n, keeps I s (set_arrays (<[next_array s := []]> (arrays s)) n s)).
  { intros s n Hs. unfold I. simpl. by apply map_Forall_insert_2. }
  assert (Hqueue : ∀ this,
            preserves (keeps I) (records ← new_array; set_records_ this records)).
  { intros this s0. unfold exec. rewrite new_queue_run.
    destruct (observers s0 !! this); apply Hnew. }
  destruct c as [callback|this target options|this|this|fuel e|this record]; simpl.
  - apply (preserves_bind (keeps I)); [|intros _; apply preserves_skip, _].
    intros s0. apply Hnew.
  - apply Hweak. apply observe_preserves; try apply _; try done.
    + intros r. by apply listeners_frame_add.
    + intros r. by apply listeners_frame_remove.
    + by apply nodes_push_frame.
  - apply disconnect_preserves; try apply _; try (by intros ? ? ? ?); [|apply Hqueue].
    intros r. apply Hweak. by apply listeners_frame_remove.
  - apply (preserves_bind (keeps I)); [|intros _; apply preserves_skip, _].
    intros s0. unfold exec. destruct (observers s0 !! this) as [o|] eqn:Ho.
    + rewrite (takeRecords_run _ _ _ Ho). apply Hnew.
    + by rewrite (takeRecords_missing _ _ Ho).
  - by destruct (Hc fuel e).
  - by destruct (Hc' this record).
Qed.

(** [handleEvent] creates its two objects at the free locations, and
    queues none but these. *)
Lemma handleEvent_records fuel e :
  preserves
    (keeps (λ s, heap_allocated s ∧ queues_hold_records s
                 ∧ mutationRecordPrototype < next_loc s))
    (handleEvent fuel e).
Proof.
  set (I := λ s, heap_allocated s ∧ queues_hold_records s
                 ∧ mutationRecordPrototype < next_loc s).
  assert (Hwalk : ∀ callback s1,
            (∀ o record, callback o = Some record → mutationRecordPrototype < record) →
            I s1 →
            I (exec (forEachAncestorAndObserverEnqueueRecord fuel (ev_target e) callback)
                 s1)).
  { intros callback s1 Hcb.
    apply (walk_preserves (keeps I) (λ l, mutationRecordPrototype < l) callback Hcb).
    intros r record Hrecord s (Ha & Hr & Hn).
    pose proof (enqueue_frame (λ s, (heap s, next_loc s)) (λ _ _ _, eq_refl) r record s)
      as [= Hh Hnext].
    split; [|split].
    - unfold heap_allocated. by rewrite Hh, Hnext.
    - by apply (enqueue_Forall (λ x, mutationRecordPrototype < x)).
    - by rewrite Hnext. }
  assert (Hgrow : ∀ s o1 o2,
            I s →
            I (set_heap (<[S (next_loc s) := o2]> (<[next_loc s := o1]> (heap s)))
                 (S (S (next_loc s))) s)).
  { intros s o1 o2 (Ha & Hr & Hn). split; [|split; [done | simpl; lia]].
    unfold heap_allocated. simpl.
    apply map_Forall_insert_2; [lia|]. apply map_Forall_insert_2; [lia|].
    eapply map_Forall_impl; [exact Ha|]. simpl. intros; lia. }
  intros s0 Hs0. unfold exec. rewrite handleEvent_run.
  assert (Hs : I (stop_event e s0)) by exact Hs0.
  revert Hs. generalize (stop_event e s0). clear s0 Hs0. intros s Hs.
  unfold handleEvent_switch. repeat case_decide; [| |done].
  - rewrite run_bind, attributes_records_run. simpl.
    apply Hwalk; [|by apply Hgrow].
    intros o record Hcb. destruct Hs as (_ & _ & Hn).
    apply (builder_of_record
             {| ev_type := "DOMAttrModified"; ev_target := ev_target e;
                attrName := attrName e; namespaceURI := namespaceURI e;
                attrChange := attrChange e; prevValue := prevValue e |}) in Hcb.
    destruct Hcb as [-> | ->]; lia.
  - rewrite run_bind, characterData_records_run. simpl.
    apply Hwalk; [|by apply Hgrow].
    intros o record Hcb. destruct Hs as (_ & _ & Hn).
    apply (builder_of_record
             {| ev_type := "DOMCharacterDataModified"; ev_target := ev_target e;
                attrName := attrName e; namespaceURI := namespaceURI e;
                attrChange := attrChange e; prevValue := prevValue e |}) in Hcb.
    destruct Hcb as [-> | ->]; lia.
Qed.

Lemma call_records_wf c s :
  call_ok c s → enqueues_records c → keeps records_wf s (exec (call c) s).
Proof.
  intros Hok Hrec (Hheap & Halloc & Hin & Hhold).
  split; [by apply call_heap_wf|].
  assert (Hq : queues_in_heap (exec (call c) s)) by (by apply call_queues_in_heap).
  assert (Hframe : (∀ fuel e, c ≠ HandleEvent fuel e) → heap_allocated (exec (call c) s)).
  { intros Hc. pose proof (call_heap_frame c Hc s) as [= Hh Hn].
    unfold heap_allocated. by rewrite Hh, Hn. }
  assert (Hrest : (∀ fuel e, c ≠ HandleEvent fuel e) →
                  (∀ r record, c ≠ Enqueue r record) →
                  queues_hold_records (exec (call c) s)).
  { intros Hc Hc'.
    by apply (call_queues_Forall (λ x, mutationRecordPrototype < x) c Hc Hc'). }
  destruct c as [callback|this target options|this|this|fuel e|this record].
  5:{ destruct (handleEvent_records fuel e s) as (? & ? & _); [|done].
      split; [done|]. split; [done|]. apply Hheap. }
  1-4: by (split; [apply Hframe | split; [|apply Hrest]]).
  split; [by apply Hframe|]. split; [done|].
  by apply (enqueue_Forall (λ x, mutationRecordPrototype < x)).
Qed.

Lemma records_wf_initial parents : records_wf (initial parents).
Proof.
  split; [split; [by_compute | simpl; unfold mutationRecordPrototype; lia]|].
  split; [by_compute|]. split; apply map_Forall_empty.
Qed.

Lemma run_calls_invariants calls s :
  wf s → records_wf s → targets_match s →
  calls_ok calls s → Forall enqueues_records calls →
  wf (run_calls calls s) ∧ records_wf (run_calls calls s)
  ∧ targets_match (run_calls calls s).
Proof.
  revert s. induction calls as [|c calls IH]; intros s Hwf Hrec Ht Hok Hall; [done|].
  destruct Hok as [Hc Hok]. apply Forall_cons in Hall as [Hc' Hall]. simpl.
  apply IH; try done.
  - by apply wf_call.
  - by apply call_records_wf.
  - by apply call_targets_match.
Qed.

(** X2.  The invariants under which the properties of the module are
    stated hold in every state that it reaches from its load, by any
    sequence of calls (the constructor, [observe], [disconnect],
    [takeRecords], [handleEvent], and [enqueue] with a record) made on
    observers that exist, whether the calls return or throw: a node holds
    at most one registration of an observer, the listeners on the nodes
    are registrations, the queues of two observers are two arrays, every
    registration is in the list of its target and its observer lists that
    node, prototype chains descend, and the queues hold records that are
    objects of the heap. *)
Theorem reachable_states_wf (parents : gmap Node Node) (calls : list Call) :
  calls_ok calls (initial parents) → Forall enqueues_records calls →
  wf (run_calls calls (initial parents))
  ∧ records_wf (run_calls calls (initial parents))
  ∧ targets_match (run_calls calls (initial parents)).
Proof.
  apply run_calls_invariants.
  - apply wf_initial.
  - apply records_wf_initial.
  - apply map_Forall_empty.
Qed.

(** An observer is made, registered on node 2, sees a change there and
    is read; an [observe] with options that watch nothing throws; the
    observer disconnects. *)
Lemma reachable_states_wf_witness :
  let calls := [New 0; Observe 0 2 (watch_attributes true false);
                HandleEvent 2 sample_event; TakeRecords 0;
                Observe 0 1
                  {| childList := false; attributes := false; characterData := false;
                     subtree := true; attributeOldValue := false;
                     characterDataOldValue := false; attributeFilter := None |};
                Disconnect 0] in
  wf (run_calls calls (initial {[ 2 := 1 ]}))
  ∧ records_wf (run_calls calls (initial {[ 2 := 1 ]}))
  ∧ targets_match (run_calls calls (initial {[ 2 := 1 ]})).
Proof.
  intros calls. apply (reachable_states_wf {[ 2 := 1 ]} calls).
  - vm_compute. repeat split; by eexists.
  - by_compute.
Defined.

(** ** Which record a change gives an observer *)

Lemma elem_of_records_for this pairs record :
  record ∈ records_for this pairs ↔ ∃ r, (r, record) ∈ pairs ∧ observer r = this.
Proof.
  unfold records_for. rewrite list_elem_of_fmap. split.
  - intros ([r record'] & -> & [Hr Hin]%list_elem_of_filter). by exists r.
  - intros (r & Hin & Hr). exists (r, record). split; [done|].
    by apply list_elem_of_filter.
Qed.

Lemma elem_of_records_dispatched e s chain this record :
  record ∈ records_for this (dispatched_for e s chain) ↔ gets_record e s chain this record.
Proof.
  rewrite elem_of_records_for. unfold dispatched_for, gets_record. split.
  - intros (r & (node & ? & ? & ? & ?)%elem_of_dispatched & ?). by exists node, r.
  - intros (node & r & ? & ? & ? & ? & ?). exists r. split; [|done].
    apply elem_of_dispatched. by exists node.
Qed.

Lemma records_dispatched e s chain this :
  Forall (λ x, x = next_loc s ∨ x = S (next_loc s))
    (records_for this (dispatched_for e s chain)).
Proof.
  apply Forall_forall. intros x Hx.
  apply elem_of_records_dispatched in Hx as (node & r & _ & _ & _ & _ & Hcb).
  by apply builder_of_record in Hcb.
Qed.

(** X3.  Which record one change gives an observer, in terms of its
    registrations.  With the invariants, an event that [handleEvent] has
    a case for and fuel for the chain: if the walk meets no registration
    of the observer for which the builder returns a record, the queue of
    the observer is left as it is; if it meets one for which the builder
    returns the record with the old value, that record is appended, once,
    however many registrations of the observer the walk meets; and if it
    meets only registrations for which the builder returns the base
    record, the base record is appended, once. *)
Theorem change_reported (fuel : nat) (e : MutationEvent) (s : State)
    (chain : list Node) (this : ObserverRef) (queue : list Loc) :
  wf s → records_wf s → is_mutation e → walkable s fuel (ev_target e) chain →
  queue_of s this = Some queue →
  ∃ s', handleEvent fuel e s = Ok tt s'
        ∧ ((∀ record, ¬ gets_record e s chain this record) →
           queue_of s' this = Some queue)
        ∧ (gets_record e s chain this (S (next_loc s)) →
           queue_of s' this = Some (queue ++ [S (next_loc s)]))
        ∧ (gets_record e s chain this (next_loc s) →
           ¬ gets_record e s chain this (S (next_loc s)) →
           queue_of s' this = Some (queue ++ [next_loc s])).
Proof.
  intros Hwf Hrec Hmut Hwalk Hqueue.
  destruct (handleEvent_queue fuel e s chain this queue Hwf Hrec Hmut Hwalk Hqueue)
    as (s' & Hrun & Hq).
  exists s'. split; [done|]. rewrite Hq. unfold coalesced.
  split; [|split].
  - intros Hnone. rewrite decide_True; [by rewrite app_nil_r|].
    destruct (records_for _ _) as [|x l] eqn:E; [done|].
    destruct (Hnone x). apply elem_of_records_dispatched. rewrite E. by left.
  - intros Hold%elem_of_records_dispatched.
    rewrite decide_False by (intros E; rewrite E in Hold; by apply elem_of_nil in Hold).
    by rewrite decide_True.
  - intros Hbase%elem_of_records_dispatched Hold.
    rewrite decide_False by (intros E; rewrite E in Hbase; by apply elem_of_nil in Hbase).
    rewrite decide_False; [done|]. by rewrite elem_of_records_dispatched.
Qed.

(** The observer of [sample_chain] is registered twice on the chain of
    node 2, and only its registration on node 1 asks for old values: one
    change of node 2 gives it the record with the old value, once. *)
Lemma change_reported_witness :
  ∃ s', handleEvent 2 sample_event
          (sample_chain (watch_attributes false false) (watch_attributes true true))
        = Ok tt s'
        ∧ queue_of s' 0 = Some [3].
Proof.
  destruct (change_reported 2 sample_event
              (sample_chain (watch_attributes false false) (watch_attributes true true))
              [2; 1] 0 [])
    as (s' & Hrun & _ & Hold & _); [by_compute.. | ].
  exists s'. split; [exact Hrun|]. apply Hold.
  exists 1, {| reg_id := 1; observer := 0; target := 1;
               options := watch_attributes true true |}.
  by_compute.
Defined.

(** ** A change after [observe], and after [disconnect] *)

(** No call changes the document tree. *)
Lemma call_parentNode c : preserves (frame parentNode) (call c).
Proof.
  destruct c as [callback|this target options|this|this|fuel e|this record]; simpl.
  - apply preserves_bind; [apply _ | by apply new_JsMutationObserver_frame | intros _].
    apply preserves_skip, _.
  - apply observe_preserves; try apply _; try done.
    + intros r. by apply listeners_frame_add.
    + intros r. by apply listeners_frame_remove.
    + by apply nodes_push_frame.
  - apply disconnect_preserves; try apply _; try done.
    + intros r. by apply listeners_frame_remove.
    + by apply fresh_queue_frame.
  - apply preserves_bind; [apply _ | by apply takeRecords_frame | intros _].
    apply preserves_skip, _.
  - by apply handleEvent_frame.
  - by apply enqueue_frame.
Qed.

(** [observe] with options that pass the test, on an observer that
    exists, returns. *)
Lemma observe_returns this target init s :
  config_invalid init = false → is_Some (observers s !! this) →
  ∃ s', observe this target init s = Ok tt s'.
Proof.
  intros Hv [o Ho]. rewrite (observe_run _ _ _ _ Hv).
  destruct (_ ≫= _) as [[i r]|].
  - rewrite addListeners_total. by eexists.
  - simpl. rewrite run_bind.
    match goal with |- context [nodes_push ?a ?b ?s0] =>
      assert (∃ s', nodes_push a b s0 = Ok tt s') as [s' ->] end.
    { unfold nodes_push, get_observer. rewrite run_deref_bind.
      destruct (registrationsTable s !! target); simpl; rewrite Ho; by eexists. }
    rewrite addListeners_total. by eexists.
Qed.

(** After it the list of the target holds a registration of the observer
    with these options. *)
Lemma observe_installs this target init s :
  config_invalid init = false → is_Some (observers s !! this) →
  ∃ s' r, observe this target init s = Ok tt s'
          ∧ r ∈ default [] (registrationsTable s' !! target)
          ∧ observer r = this ∧ options r = init.
Proof.
  intros Hv Ho. destruct (observe_returns this target init s Hv Ho) as [s' Hrun].
  pose proof (observe_table this target init s Hv) as Ht.
  unfold exec in Ht. rewrite Hrun in Ht. simpl in Ht.
  destruct (registrationsTable s !! target) as [regs|] eqn:Hregs; simpl in Ht.
  - destruct (list_find _ regs) as [[i r0]|] eqn:Hf.
    + apply list_find_Some in Hf as (Hi & Hr0 & _).
      exists s', (set_options r0 init). split; [done|].
      rewrite Ht, lookup_alter_eq, Hregs. simpl. split; [|by unfold set_options].
      apply (list_elem_of_lookup_2 _ i). by rewrite list_lookup_alter_eq, Hi.
    + eexists s', _. split; [done|]. rewrite Ht, lookup_insert_eq. simpl.
      split; [apply elem_of_app; right; by apply list_elem_of_singleton | done].
  - eexists s', _. split; [done|]. rewrite Ht, lookup_insert_eq. simpl.
    split; [by apply list_elem_of_singleton | done].
Qed.

(** [observe] leaves every queue as it is. *)
Lemma observe_queue this target init s this' :
  config_invalid init = false →
  queue_of (exec (observe this target init) s) this' = queue_of s this'.
Proof.
  intros Hv. unfold queue_of.
  assert (Ha : arrays (exec (observe this target init) s) = arrays s).
  { apply (observe_preserves (frame arrays)); try apply _; try done.
    - intros r. by apply listeners_frame_add.
    - intros r. by apply listeners_frame_remove.
    - by apply nodes_push_frame. }
  rewrite Ha, (observe_observers _ _ _ _ Hv).
  destruct (registrationsTable s !! target ≫= _); [done|].
  destruct (observers s !! this) as [o|] eqn:Ho; [|done].
  destruct (decide (this' = this)) as [->|Hne].
  - by rewrite lookup_insert_eq, Ho.
  - by rewrite lookup_insert_ne.
Qed.

Lemma is_chain_head parents target chain :
  is_chain parents (Some target) chain → target ∈ chain.
Proof. destruct chain as [|n chain]; [done|]. intros [[= ->] _]. by left. Qed.

(** X4.  An observer that observes a node is told of the next change of
    that node.  With the invariants, options that [observe] accepts and
    for which the builder of the event returns a record: [observe] on the
    node returns, the event is handled, and the queue of the observer is
    the queue it had followed by exactly one record of the change, which
    is the record with the old value when the options ask for it. *)
Theorem observed_change_is_queued (fuel : nat) (e : MutationEvent) (s : State)
    (chain : list Node) (this : ObserverRef) (init : MutationObserverInit)
    (queue : list Loc) (asked : Loc) :
  wf s → records_wf s → is_mutation e → walkable s fuel (ev_target e) chain →
  queue_of s this = Some queue →
  ¬ violates_invariants init →
  builder_of e (next_loc s) (S (next_loc s)) init = Some asked →
  ∃ s1 s2 record,
    observe this (ev_target e) init s = Ok tt s1
    ∧ handleEvent fuel e s1 = Ok tt s2
    ∧ queue_of s2 this = Some (queue ++ [record])
    ∧ (record = next_loc s ∨ record = S (next_loc s))
    ∧ (asked = S (next_loc s) → record = S (next_loc s)).
Proof.
  intros Hwf Hrec Hmut [Hchain Hfuel] Hqueue Hvalid Hasked.
  assert (Hv : config_invalid init = false).
  { destruct (config_invalid init) eqn:E; [|done].
    by apply config_invalid_spec in E. }
  assert (Ho : is_Some (observers s !! this)).
  { unfold queue_of in Hqueue. by destruct (observers s !! this). }
  destruct (observe_installs this (ev_target e) init s Hv Ho)
    as (s1 & r & Hrun1 & Hr & Hthis & Hopt).
  pose proof (wf_call (Observe this (ev_target e) init) s Hwf Ho) as Hwf1.
  pose proof (call_records_wf (Observe this (ev_target e) init) s Ho I Hrec) as Hrec1.
  pose proof (call_parentNode (Observe this (ev_target e) init) s) as Hp.
  pose proof (call_heap_frame (Observe this (ev_target e) init)
                (λ _ _, ltac:(discriminate)) s) as Hn.
  pose proof (observe_queue this (ev_target e) init s this Hv) as Hq1.
  unfold frame, exec in Hwf1, Hrec1, Hp, Hn, Hq1. simpl in Hwf1, Hrec1, Hp, Hn.
  rewrite Hrun1 in Hwf1, Hrec1, Hp, Hn, Hq1. simpl in Hwf1, Hrec1, Hp, Hn, Hq1.
  injection Hn as _ Hn. rewrite Hqueue in Hq1.
  destruct (handleEvent_queue fuel e s1 chain this queue Hwf1 Hrec1 Hmut)
    as (s2 & Hrun2 & Hq2); [split; [by rewrite Hp | done] | done |].
  rewrite Hn in Hq2.
  assert (Hin : asked ∈ records_for this (dispatched_for e s1 chain)).
  { apply elem_of_records_dispatched. exists (ev_target e), r.
    split; [by apply (is_chain_head (parentNode s))|]. split; [done|].
    split; [done|]. split; [by left|]. by rewrite Hn, Hopt. }
  pose proof (records_dispatched e s1 chain this) as Hall. rewrite Hn in Hall.
  unfold coalesced in Hq2.
  rewrite decide_False in Hq2
    by (intros E; rewrite E in Hin; by apply elem_of_nil in Hin).
  destruct (decide (S (next_loc s) ∈ records_for this (dispatched_for e s1 chain)))
    as [Hold|Hold].
  - exists s1, s2, (S (next_loc s)). repeat split; auto.
  - exists s1, s2, (next_loc s). repeat split; auto. intros ->. done.
Qed.

(** Observer 0 of [sample_first], registered on node 1, observes node 2
    for attributes with old values; the next change of [id] on node 2
    gives it the record with the old value. *)
Lemma observed_change_is_queued_witness :
  ∃ s1 s2,
    observe 0 2 (watch_attributes true false) sample_first = Ok tt s1
    ∧ handleEvent 2 sample_event s1 = Ok tt s2
    ∧ queue_of s2 0 = Some [3].
Proof.
  destruct (observed_change_is_queued 2 sample_event sample_first [2; 1] 0
              (watch_attributes true false) [] 3)
    as (s1 & s2 & record & Hrun1 & Hrun2 & Hq & _ & Hold).
  - by_compute.
  - by_compute.
  - by_compute.
  - by_compute.
  - by_compute.
  - rewrite <- config_invalid_spec. by vm_compute.
  - by vm_compute.
  - exists s1, s2. split; [exact Hrun1|]. split; [exact Hrun2|].
    rewrite Hq. by rewrite Hold.
Defined.

(** [disconnect] of an observer that exists returns; after it no list
    of the table holds a registration of the observer, and the queue of
    the observer is empty. *)
Lemma disconnect_run this s :
  one_per_observer s → nodes_listed s → is_Some (observers s !! this) →
  ∃ s', disconnect this s = Ok tt s'
        ∧ (∀ node r, r ∈ default [] (registrationsTable s' !! node) → observer r ≠ this)
        ∧ queue_of s' this = Some [].
Proof.
  intros Hone [Hnodes Hregs] [o Ho].
  destruct (disconnect_nodes_run this (nodes_ o) s Hone (Hnodes _ _ Ho))
    as (s1 & Hrun & Htab & Hobs & Harr & Hnext).
  unfold disconnect, get_observer. rewrite run_deref_bind, Ho. rewrite run_bind.
  change (forEach (nodes_ o) _ s) with (forEach (nodes_ o) (disconnect_node this) s).
  rewrite Hrun, new_queue_run, Hobs, Ho.
  eexists. split; [reflexivity|]. unfold fresh_queue, queue_of. simpl.
  split; [|rewrite lookup_insert_eq; simpl; rewrite Harr, Hnext; apply lookup_insert_eq].
  intros node r Hr Hthis. rewrite Htab in Hr.
  rewrite foldl_alter_lookup in Hr by apply filter_idemp.
  destruct (registrationsTable s !! node) as [regs|] eqn:Ht; simpl in Hr;
    [|case_decide; by apply elem_of_nil in Hr].
  case_decide as Hin.
  - simpl in Hr. by apply list_elem_of_filter in Hr as [? _].
  - simpl in Hr. specialize (Hregs node regs Ht). rewrite Forall_forall in Hregs.
    specialize (Hregs r Hr). unfold lists_node in Hregs.
    rewrite Hthis, Ho in Hregs. done.
Qed.

(** X5.  An observer that has disconnected is told of nothing.  With the
    invariants, [disconnect] of an observer that exists returns, and a
    change that is handled after it leaves the queue of the observer
    empty: whatever was queued is gone, and no registration of the
    observer is left on the chain of the changed node to queue a record
    for it. *)
Theorem disconnected_gets_nothing (fuel : nat) (e : MutationEvent) (s : State)
    (chain : list Node) (this : ObserverRef) :
  wf s → records_wf s → is_mutation e → walkable s fuel (ev_target e) chain →
  is_Some (observers s !! this) →
  ∃ s1 s2, disconnect this s = Ok tt s1
           ∧ handleEvent fuel e s1 = Ok tt s2
           ∧ queue_of s2 this = Some [].
Proof.
  intros Hwf Hrec Hmut [Hchain Hfuel] Ho.
  destruct (disconnect_run this s (proj1 Hwf) (proj1 (proj2 (proj2 (proj2 Hwf)))) Ho)
    as (s1 & Hrun1 & Hnone & Hq1).
  pose proof (wf_call (Disconnect this) s Hwf Ho) as Hwf1.
  pose proof (call_records_wf (Disconnect this) s Ho I Hrec) as Hrec1.
  pose proof (call_parentNode (Disconnect this) s) as Hp.
  unfold frame, exec in Hwf1, Hrec1, Hp. simpl in Hwf1, Hrec1, Hp.
  rewrite Hrun1 in Hwf1, Hrec1, Hp. simpl in Hwf1, Hrec1, Hp.
  destruct (handleEvent_queue fuel e s1 chain this [] Hwf1 Hrec1 Hmut)
    as (s2 & Hrun2 & Hq2); [split; [by rewrite Hp | done] | done |].
  exists s1, s2. split; [done|]. split; [done|]. rewrite Hq2.
  unfold coalesced. rewrite decide_True; [done|].
  destruct (records_for _ _) as [|x l] eqn:E; [done|].
  assert (Hx : x ∈ records_for this (dispatched_for e s1 chain))
    by (rewrite E; by left).
  apply elem_of_records_dispatched in Hx as (node & r & _ & Hr & Hthis & _).
  by destruct (Hnone node r Hr).
Qed.

(** Observer 0 of [sample_observed], registered on node 1 for the
    subtree, disconnects; a change of node 2 gives it nothing. *)
Lemma disconnected_gets_nothing_witness :
  ∃ s1 s2, disconnect 0 sample_observed = Ok tt s1
           ∧ handleEvent 2 sample_event s1 = Ok tt s2
           ∧ queue_of s2 0 = Some [].
Proof.
  apply (disconnected_gets_nothing 2 sample_event sample_observed [2; 1] 0);
    by_compute.
Defined.

(** ** No listener is ever detached *)

#[global] Instance listeners_grow_refl : Reflexive listeners_grow.
Proof. intros s Hl. by split. Qed.

#[global] Instance listeners_grow_trans : Transitive listeners_grow.
Proof.
  intros s1 s2 s3 H12 H23 Hl.
  destruct (H12 Hl) as [Hl2 Hp12]. destruct (H23 Hl2) as [Hl3 Hp23].
  split; [done|]. intros node. etrans; [apply Hp12 | apply Hp23].
Qed.

Lemma listeners_grow_frame s s' : frame eventListeners s s' → listeners_grow s s'.
Proof.
  unfold frame, listeners_grow, listeners_are_registrations, listeners_of.
  intros E Hl. by rewrite E.
Qed.

Lemma add_listener_grows node type id capture s :
  listeners_grow s (add_listener node (type, RegistrationRef id, capture) s).
Proof.
  intros Hl. split; [by apply add_listener_registrations|].
  intros node'. unfold add_listener. case_decide; [done|].
  unfold listeners_of at 2. simpl.
  destruct (decide (node' = node)) as [->|Hne].
  - rewrite lookup_insert_eq. simpl. by apply prefix_app_r.
  - by rewrite lookup_insert_ne.
Qed.

Lemma addListeners_grows r : preserves listeners_grow (addListeners r).
Proof.
  unfold addListeners, addEventListener.
  repeat preserves_step; try done; apply add_listener_grows.
Qed.

Lemma removeListeners_grows r : preserves listeners_grow (removeListeners r).
Proof. intros s Hl. unfold exec. by rewrite (removeListeners_noop r s Hl). Qed.

Lemma call_listeners_grow c : preserves listeners_grow (call c).
Proof.
  assert (Hweak : ∀ m : M unit,
            preserves (frame eventListeners) m → preserves listeners_grow m).
  { intros m. apply preserves_weaken. apply listeners_grow_frame. }
  destruct c as [callback|this target options|this|this|fuel e|this record]; simpl.
  - apply Hweak.
    apply preserves_bind; [apply _ | by apply new_JsMutationObserver_frame | intros _].
    apply preserves_skip, _.
  - apply observe_preserves; try apply _.
    + apply addListeners_grows.
    + apply removeListeners_grows.
    + intros t s. by apply listeners_grow_frame.
    + intros n s. by apply listeners_grow_frame.
    + apply Hweak. by apply nodes_push_frame.
  - apply disconnect_preserves; try apply _.
    + apply removeListeners_grows.
    + intros node i s. by apply listeners_grow_frame.
    + apply Hweak. by apply fresh_queue_frame.
  - apply Hweak.
    apply preserves_bind; [apply _ | by apply takeRecords_frame | intros _].
    apply preserves_skip, _.
  - apply Hweak. by apply handleEvent_frame.
  - apply Hweak. by apply enqueue_frame.
Qed.

(** X6.  The module never detaches a listener.  From a state in which
    the listeners on the nodes are registrations, as they are in every
    state that the module reaches, no sequence of calls takes a listener
    off a node: after the calls every node has the listeners it had, in
    their order, followed by those that [observe] has attached since.
    [removeListeners] names the observer and not the registration, so
    [disconnect] and a repeat [observe] leave the listeners of the
    registration on the node. *)
Theorem listeners_never_detached (calls : list Call) (s : State) (node : Node) :
  listeners_are_registrations s →
  listeners_of s node `prefix_of` listeners_of (run_calls calls s) node.
Proof.
  revert s. induction calls as [|c calls IH]; intros s Hl; [done|].
  destruct (call_listeners_grow c s Hl) as [Hl' Hp]. simpl.
  etrans; [apply Hp | by apply IH].
Qed.

(** Both observers of [sample_observed] disconnect, and their two
    listeners stay on node 1. *)
Lemma listeners_never_detached_witness :
  [("DOMAttrModified", RegistrationRef 0, true);
   ("DOMAttrModified", RegistrationRef 1, true)]
  `prefix_of` listeners_of (run_calls [Disconnect 0; Disconnect 1] sample_observed) 1.
Proof.
  apply (listeners_never_detached [Disconnect 0; Disconnect 1] sample_observed 1).
  by_compute.
Defined.

(** ** What [observe] attaches *)

Lemma add_listener_attached node entry s :
  entry ∈ listeners_of (add_listener node entry s) node.
Proof.
  unfold add_listener. case_decide; [done|].
  unfold listeners_of at 1. simpl. rewrite lookup_insert_eq. simpl.
  apply elem_of_app. right. by apply list_elem_of_singleton.
Qed.

Lemma add_listener_keeps node entry node' entry' s :
  entry' ∈ listeners_of s node' →
  entry' ∈ listeners_of (add_listener node entry s) node'.
Proof.
  intros Hin. unfold add_listener. case_decide; [done|].
  unfold listeners_of at 1. simpl.
  destruct (decide (node' = node)) as [->|Hne].
  - rewrite lookup_insert_eq. simpl. apply elem_of_app. by left.
  - by rewrite lookup_insert_ne.
Qed.

(** [addListeners] attaches the registration for the kinds of change
    that its options watch. *)
Lemma addListeners_attaches r s :
  (attributes (options r) = true →
   ("DOMAttrModified", RegistrationRef (reg_id r), true)
   ∈ listeners_of (exec (addListeners r) s) (target r))
  ∧ (characterData (options r) = true →
     ("DOMCharacterDataModified", RegistrationRef (reg_id r), true)
     ∈ listeners_of (exec (addListeners r) s) (target r)).
Proof.
  unfold exec, addListeners, addEventListener, modify, skip, ret. rewrite run_bind.
  destruct (attributes (options r)), (characterData (options r)); simpl;
    (split; [intros Ha | intros Hc]); try done;
    try apply add_listener_attached.
  apply add_listener_keeps, add_listener_attached.
Qed.

(** With options that watch neither attributes nor character data it
    attaches nothing. *)
Lemma addListeners_unwatched r s :
  attributes (options r) = false → characterData (options r) = false →
  addListeners r s = Ok tt s.
Proof. intros Ha Hc. unfold addListeners. rewrite run_bind. by rewrite Ha, Hc. Qed.

Lemma nodes_push_run this node s o :
  observers s !! this = Some o →
  nodes_push this node s
  = Ok tt (set_observers
             (<[this := {| callback_ := callback_ o; nodes_ := nodes_ o ++ [node];
                           records_ := records_ o |}]> (observers s))
             (next_observer s) s).
Proof. intros Ho. unfold nodes_push, get_observer. by rewrite run_deref_bind, Ho. Qed.

(** X7.  The first [observe] of an observer on a node.  With options
    that pass the test, on an observer that exists and has no
    registration in the list of the node, [observe] returns; it has put a
    new registration of the observer, with these options, at the end of
    the list of the node (a list that starts empty if the node had none),
    has put the node at the end of the node list of the observer, whose
    queue it leaves alone, and has attached the registration to the node
    as listener for the attribute event if the options watch attributes
    and for the character data event if they watch character data. *)
Theorem first_observe_registers (this : ObserverRef) (target : Node)
    (init : MutationObserverInit) (s : State) (o : JsMutationObserver) :
  ¬ violates_invariants init →
  observers s !! this = Some o →
  (∀ r, r ∈ default [] (registrationsTable s !! target) → observer r ≠ this) →
  ∃ s', observe this target init s = Ok tt s'
        ∧ registrationsTable s'
          = <[target := default [] (registrationsTable s !! target)
                        ++ [{| reg_id := next_registration s; observer := this;
                               target := target; options := init |}]]>
              (registrationsTable s)
        ∧ observers s'
          = <[this := {| callback_ := callback_ o; nodes_ := nodes_ o ++ [target];
                         records_ := records_ o |}]> (observers s)
        ∧ (attributes init = true →
           ("DOMAttrModified", RegistrationRef (next_registration s), true)
           ∈ listeners_of s' target)
        ∧ (characterData init = true →
           ("DOMCharacterDataModified", RegistrationRef (next_registration s), true)
           ∈ listeners_of s' target).
Proof.
  intros Hvalid Ho Hnone.
  assert (Hv : config_invalid init = false).
  { destruct (config_invalid init) eqn:E; [|done].
    by apply config_invalid_spec in E. }
  assert (Hf : registrationsTable s !! target ≫= list_find (λ r, observer r = this)
               = None).
  { destruct (registrationsTable s !! target) as [regs|]; simpl in *; [|done].
    apply list_find_None, Forall_forall. intros r Hr. by apply Hnone. }
  destruct (observe_returns this target init s Hv (mk_is_Some _ _ Ho)) as [s' Hrun].
  pose proof (observe_table this target init s Hv) as Ht.
  pose proof (observe_observers this target init s Hv) as Hobs.
  pose proof (observe_run this target init s Hv) as Hr.
  unfold exec in Ht, Hobs. rewrite Hrun in Ht, Hobs, Hr. simpl in Ht, Hobs.
  rewrite Hf in Ht, Hobs, Hr. rewrite Ho in Hobs.
  exists s'. split; [done|]. split; [done|]. split; [done|].
  cbv zeta in Hr. rewrite run_bind in Hr.
  erewrite nodes_push_run in Hr
    by (destruct (registrationsTable s !! target); simpl; exact Ho).
  rewrite addListeners_total in Hr. injection Hr as ->.
  apply (addListeners_attaches
           {| reg_id := next_registration s; observer := this;
              target := target; options := init |}).
Qed.

(** The first [observe] in a document, for attributes. *)
Lemma first_observe_registers_witness :
  ∃ s', observe 0 1 (watch_attributes true true)
          (exec (new_JsMutationObserver 0) (initial {[ 2 := 1 ]})) = Ok tt s'
        ∧ registrationsTable s' !! 1 = Some [sample_registration]
        ∧ listeners_of s' 1 = [("DOMAttrModified", RegistrationRef 0, true)].
Proof.
  destruct (first_observe_registers 0 1 (watch_attributes true true)
              (exec (new_JsMutationObserver 0) (initial {[ 2 := 1 ]}))
              {| callback_ := 0; nodes_ := []; records_ := 0 |})
    as (s' & Hrun & Ht & _).
  - rewrite <- config_invalid_spec. by vm_compute.
  - by vm_compute.
  - intros r Hr. vm_compute in Hr. by apply elem_of_nil in Hr.
  - exists s'. split; [exact Hrun|]. split; [by rewrite Ht|].
    pose proof (f_equal state_of Hrun) as E. simpl in E. rewrite <- E.
    by vm_compute.
Defined.

(** X8.  Observing the child list alone changes nothing that a change
    could be reported through.  In a state whose listeners are
    registrations, options that pass the test and watch neither
    attributes nor character data (so they watch the child list) are
    accepted by [observe], which attaches no listener to any node, and
    for such options the builder of no event returns a record. *)
Theorem childList_only_is_inert (this : ObserverRef) (target : Node)
    (init : MutationObserverInit) (s : State) :
  listeners_are_registrations s → is_Some (observers s !! this) →
  ¬ violates_invariants init →
  attributes init = false → characterData init = false →
  ∃ s', observe this target init s = Ok tt s'
        ∧ eventListeners s' = eventListeners s
        ∧ ∀ e record recordWithOldValue,
            builder_of e record recordWithOldValue init = None.
Proof.
  intros Hl [o Ho] Hvalid Ha Hc.
  assert (Hv : config_invalid init = false).
  { destruct (config_invalid init) eqn:E; [|done].
    by apply config_invalid_spec in E. }
  assert (Hbuild : ∀ e record recordWithOldValue,
            builder_of e record recordWithOldValue init = None).
  { intros e record recordWithOldValue.
    unfold builder_of. case_decide.
    - unfold attributes_callback. by rewrite Ha.
    - unfold characterData_callback. by rewrite Hc. }
  rewrite (observe_run _ _ _ _ Hv).
  destruct (_ ≫= _) as [[i r]|].
  - unfold exec. rewrite (removeListeners_noop r s Hl). simpl.
    rewrite addListeners_unwatched by done. by eexists.
  - cbv zeta. rewrite run_bind.
    erewrite nodes_push_run
      by (destruct (registrationsTable s !! target); simpl; exact Ho).
    rewrite addListeners_unwatched by done.
    eexists. split; [done|]. split; [|done]. by destruct (registrationsTable s !! target).
Qed.

(** Observer 0 of [sample_first] observes the child list of node 2. *)
Lemma childList_only_is_inert_witness :
  ∃ s', observe 0 2
          {| childList := true; attributes := false; characterData := false;
             subtree := true; attributeOldValue := false;
             characterDataOldValue := false; attributeFilter := None |}
          sample_first = Ok tt s'
        ∧ eventListeners s' = eventListeners sample_first.
Proof.
  destruct (childList_only_is_inert 0 2
              {| childList := true; attributes := false; characterData := false;
                 subtree := true; attributeOldValue := false;
                 characterDataOldValue := false; attributeFilter := None |}
              sample_first)
    as (s' & Hrun & Hl & _).
  - by_compute.
  - by_compute.
  - rewrite <- config_invalid_spec. by vm_compute.
  - reflexivity.
  - reflexivity.
  - exists s'. by split.
Defined.

(** ** Records read as [MutationRecord]s *)

Lemma get_prop_S fuel h l k :
  get_prop (S fuel) h l k
  = match h !! l with
    | None => None
    | Some o =>
        match obj_props o !! k with
        | Some v => Some v
        | None =>
            match obj_proto o with
            | Some p => get_prop fuel h p k
            | None => None
            end
        end
    end.
Proof. done. Qed.

(** Reading a property of the two records of a change: the base record
    has it or reads it from [mutationRecordPrototype]; the record with
    the old value has it or reads it as the base record does. *)
Lemma get_prop_records base n on osn k :
  base !! objectPrototype = Some objectPrototype_obj →
  base !! mutationRecordPrototype = Some mutationRecordPrototype_obj →
  mutationRecordPrototype < n →
  obj_proto on = Some mutationRecordPrototype → obj_proto osn = Some n →
  let h := <[S n := osn]> (<[n := on]> base) in
  get_prop 4 h n k
  = match obj_props on !! k with
    | Some v => Some v
    | None => obj_props mutationRecordPrototype_obj !! k
    end
  ∧ get_prop 4 h (S n) k
    = match obj_props osn !! k with
      | Some v => Some v
      | None => get_prop 4 h n k
      end.
Proof.
  intros H0 H1 Hn Hon Hosn h. unfold mutationRecordPrototype, objectPrototype in *.
  assert (Hh0 : h !! 0 = Some objectPrototype_obj).
  { unfold h. by rewrite !lookup_insert_ne by lia. }
  assert (Hh1 : h !! 1 = Some mutationRecordPrototype_obj).
  { unfold h. by rewrite !lookup_insert_ne by lia. }
  assert (Hhn : h !! n = Some on).
  { unfold h. rewrite lookup_insert_ne by lia. by rewrite lookup_insert_eq. }
  assert (HhSn : h !! S n = Some osn).
  { unfold h. by rewrite lookup_insert_eq. }
  assert (Hbase : ∀ fuel, get_prop (S (S (S fuel))) h n k
                          = match obj_props on !! k with
                            | Some v => Some v
                            | None => obj_props mutationRecordPrototype_obj !! k
                            end).
  { intros fuel. cbn [get_prop]. rewrite Hhn, Hon, Hh1.
    destruct (obj_props on !! k); [done|].
    destruct (obj_props mutationRecordPrototype_obj !! k); [done|].
    change (obj_proto mutationRecordPrototype_obj) with (Some 0).
    cbn iota. rewrite Hh0.
    change (obj_props objectPrototype_obj) with (∅ : gmap string Value).
    by rewrite lookup_empty. }
  split; [apply Hbase|].
  rewrite (Hbase 1), (get_prop_S 3 h (S n)), HhSn, Hosn. by rewrite (Hbase 0).
Qed.

(** What depends on the heap alone is after [handleEvent] as it is after
    the two records have been created: the walk creates and changes no
    object. *)
Lemma handleEvent_heap_part {X} (f : State → X) fuel e s :
  (∀ a n s, f (set_arrays a n s) = f s) →
  f (exec (handleEvent fuel e) s)
  = if decide (ev_type e = "DOMAttrModified")
    then f (exec (attributes_records e) (stop_event e s))
    else if decide (ev_type e = "DOMCharacterDataModified")
         then f (exec (characterData_records e) (stop_event e s))
         else f (stop_event e s).
Proof.
  intros Hf. unfold exec at 1. rewrite handleEvent_run.
  generalize (stop_event e s). intros s0.
  unfold handleEvent_switch. repeat case_decide; [| |done].
  - rewrite run_bind. unfold exec. destruct (attributes_records e s0) as [r s1|]; [|done].
    by apply (ancestor_loop_frame f fuel (Some (ev_target e)) (ev_target e)).
  - rewrite run_bind. unfold exec. destruct (characterData_records e s0) as [r s1|]; [|done].
    by apply (ancestor_loop_frame f fuel (Some (ev_target e)) (ev_target e)).
Qed.

Lemma handleEvent_heap fuel e s :
  heap (exec (handleEvent fuel e) s)
  = if decide (ev_type e = "DOMAttrModified")
    then heap (exec (attributes_records e) s)
    else if decide (ev_type e = "DOMCharacterDataModified")
         then heap (exec (characterData_records e) s)
         else heap s.
Proof.
  rewrite (handleEvent_heap_part heap) by done. unfold exec.
  by rewrite !attributes_records_run, !characterData_records_run.
Qed.

(** X9.  The records of a change read as [MutationRecord]s.  In a state
    whose two prototype objects are as the module made them, after
    [handleEvent] for an attribute or character data event, whether the
    walk returns or not: the base record reads [type], [target] and, for
    an attribute, [attributeName] and [attributeNamespace] as assigned;
    it reads [oldValue] and every field that the module does not assign
    as [null], through [mutationRecordPrototype]; the record with the
    old value reads every property but [oldValue] as the base record
    does, and reads [oldValue] as the previous value of the event, or as
    [null] for the addition of an attribute. *)
Theorem records_read_as_mutation_records (fuel : nat) (e : MutationEvent) (s : State) :
  prototypes_intact s → heap_wf s → is_mutation e →
  let h := heap (exec (handleEvent fuel e) s) in
  let record := next_loc s in
  let recordWithOldValue := S (next_loc s) in
  let attribute := bool_decide (ev_type e = "DOMAttrModified") in
  get_prop 4 h record "type"
  = Some (VString (if attribute then "attributes" else "characterData"))
  ∧ get_prop 4 h record "target" = Some (VNode (ev_target e))
  ∧ get_prop 4 h record "attributeName"
    = Some (if attribute then VString (attrName e) else VNull)
  ∧ get_prop 4 h record "attributeNamespace"
    = Some (if attribute then value_of_namespace (namespaceURI e) else VNull)
  ∧ get_prop 4 h record "oldValue" = Some VNull
  ∧ Forall (λ k, get_prop 4 h record k = Some VNull) unset_fields
  ∧ (∀ k, k ≠ "oldValue" → get_prop 4 h recordWithOldValue k = get_prop 4 h record k)
  ∧ get_prop 4 h recordWithOldValue "oldValue"
    = Some (if attribute && bool_decide (attrChange e = ADDITION) then VNull
            else VString (prevValue e)).
Proof.
  intros [H0 H1] [_ Hn] Hmut h record recordWithOldValue attribute.
  subst h attribute record recordWithOldValue. rewrite handleEvent_heap.
  destruct (decide (ev_type e = "DOMAttrModified")) as [Ha|Ha].
  - rewrite bool_decide_true by done. unfold exec.
    rewrite attributes_records_run. cbn [state_of heap set_heap].
    match goal with |- context [<[S (next_loc s) := ?osn]> (<[next_loc s := ?on]> _)] =>
      pose proof (λ k, get_prop_records (heap s) (next_loc s) on osn k H0 H1 Hn
                         eq_refl eq_refl) as Hread end.
    cbv zeta in Hread.
    repeat split;
      try (rewrite (proj1 (Hread _)); by vm_compute).
    + unfold unset_fields. repeat constructor; rewrite (proj1 (Hread _)); by vm_compute.
    + intros k Hk. rewrite (proj2 (Hread k)). cbn [obj_props].
      by rewrite lookup_singleton_ne.
    + rewrite (proj2 (Hread _)). cbn [obj_props]. rewrite lookup_singleton_eq.
      simpl. by destruct (decide (attrChange e = ADDITION));
        [rewrite bool_decide_true | rewrite bool_decide_false].
  - rewrite bool_decide_false by done. rewrite decide_True by (by destruct Hmut).
    unfold exec. rewrite characterData_records_run. cbn [state_of heap set_heap].
    match goal with |- context [<[S (next_loc s) := ?osn]> (<[next_loc s := ?on]> _)] =>
      pose proof (λ k, get_prop_records (heap s) (next_loc s) on osn k H0 H1 Hn
                         eq_refl eq_refl) as Hread end.
    cbv zeta in Hread.
    repeat split;
      try (rewrite (proj1 (Hread _)); by vm_compute).
    + unfold unset_fields. repeat constructor; rewrite (proj1 (Hread _)); by vm_compute.
    + intros k Hk. rewrite (proj2 (Hread k)). cbn [obj_props].
      by rewrite lookup_singleton_ne.
    + rewrite (proj2 (Hread _)). cbn [obj_props]. by rewrite lookup_singleton_eq.
Qed.

(** The records of a change of character data, read in
    [sample_observed]: the record with the old value reads its type from
    the base record, and the base record reads [addedNodes] from
    [mutationRecordPrototype]. *)
Lemma records_read_as_mutation_records_witness :
  let h := heap (exec (handleEvent 2 sample_text_event) sample_observed) in
  get_prop 4 h 3 "type" = Some (VString "characterData")
  ∧ get_prop 4 h 3 "oldValue" = Some (VString "before")
  ∧ get_prop 4 h 2 "oldValue" = Some VNull
  ∧ get_prop 4 h 2 "addedNodes" = Some VNull.
Proof.
  assert (Hp : prototypes_intact sample_observed) by (split; by vm_compute).
  assert (Hw : heap_wf sample_observed) by by_compute.
  assert (Hm : is_mutation sample_text_event) by by_compute.
  pose proof (records_read_as_mutation_records 2 sample_text_event sample_observed
                Hp Hw Hm) as H.
  cbv zeta in H. destruct H as (Htype & _ & _ & _ & Hold & Hunset & Hsame & Hext).
  cbv zeta. split; [|split; [exact Hext | split; [exact Hold|]]].
  - exact (eq_trans (Hsame "type" ltac:(done)) Htype).
  - by apply Forall_cons in Hunset as [? _].
Defined.

(** ** What a change leaves alone *)

(** The objects that there are stay as they are, and the free locations
    do not come back. *)
Lemma handleEvent_old_objects fuel e s :
  next_loc s ≤ next_loc (exec (handleEvent fuel e) s)
  ∧ ∀ l, l < next_loc s → heap (exec (handleEvent fuel e) s) !! l = heap s !! l.
Proof.
  pose proof (handleEvent_heap_part (λ s, (heap s, next_loc s)) fuel e s
                (λ _ _ _, eq_refl)) as E.
  unfold exec at 2 3 in E.
  rewrite attributes_records_run, characterData_records_run in E.
  cbn [state_of heap set_heap next_loc stop_event] in E.
  repeat case_decide; injection E as Hh Hn; rewrite Hh, Hn; (split; [lia|]);
    intros l Hl; by rewrite ?lookup_insert_ne by lia.
Qed.

(** The event is stopped, once, whatever the handler does next. *)
Lemma handleEvent_stopped fuel e s :
  stopped (exec (handleEvent fuel e) s) = stopped s ++ [e].
Proof.
  rewrite (handleEvent_heap_part stopped) by done. unfold exec.
  rewrite attributes_records_run, characterData_records_run.
  by repeat case_decide.
Qed.

(** X10.  What handling an event changes, and what it leaves alone.
    After [handleEvent], whether it returns or not, the event has been
    stopped: it is the last of the events on which
    [stopImmediatePropagation] has been called, and the ones before it
    are as they were; this holds for an event of any type, and for an
    event that the [switch] has no case for it is all that the handler
    does.  The table of registrations, the listeners on the nodes, the
    observers with their node lists and queue references, and the
    document tree are what they were, and every object that was in the
    heap, so every record that was created for an earlier change, is
    unchanged. *)
Theorem handleEvent_leaves_registrations (fuel : nat) (e : MutationEvent) (s : State) :
  let s' := exec (handleEvent fuel e) s in
  stopped s' = stopped s ++ [e]
  ∧ (¬ is_mutation e → handleEvent fuel e s = Ok tt (stop_event e s))
  ∧ registrationsTable s' = registrationsTable s
  ∧ eventListeners s' = eventListeners s
  ∧ observers s' = observers s
  ∧ parentNode s' = parentNode s
  ∧ ∀ l o, heap s !! l = Some o → l < next_loc s → heap s' !! l = Some o.
Proof.
  cbv zeta. split; [|split; [|split; [|split; [|split; [|split]]]]].
  - apply handleEvent_stopped.
  - intros Hother. rewrite handleEvent_run. unfold handleEvent_switch, is_mutation in *.
    repeat case_decide; tauto.
  - apply (handleEvent_frame registrationsTable fuel e (λ _ _ _, eq_refl)
             (λ _ _ _, eq_refl) (λ _ _, eq_refl)).
  - apply (handleEvent_frame eventListeners fuel e (λ _ _ _, eq_refl)
             (λ _ _ _, eq_refl) (λ _ _, eq_refl)).
  - apply (handleEvent_frame observers fuel e (λ _ _ _, eq_refl)
             (λ _ _ _, eq_refl) (λ _ _, eq_refl)).
  - apply (handleEvent_frame parentNode fuel e (λ _ _ _, eq_refl)
             (λ _ _ _, eq_refl) (λ _ _, eq_refl)).
  - intros l o Hl Hlt. by rewrite (proj2 (handleEvent_old_objects fuel e s) l Hlt).
Qed.

(** An event of a type that the [switch] has no case for is stopped all
    the same, and nothing else happens. *)
Lemma handleEvent_leaves_registrations_witness :
  handleEvent 2 sample_foreign_event sample_observed
  = Ok tt (stop_event sample_foreign_event sample_observed)
  ∧ stopped (exec (handleEvent 2 sample_event) sample_observed) = [sample_event].
Proof.
  split.
  - apply (handleEvent_leaves_registrations 2 sample_foreign_event sample_observed).
    by_compute.
  - apply (handleEvent_leaves_registrations 2 sample_event sample_observed).
Defined.

Lemma call_old_objects c s :
  next_loc s ≤ next_loc (exec (call c) s)
  ∧ ∀ l, l < next_loc s → heap (exec (call c) s) !! l = heap s !! l.
Proof.
  assert (Hframe : (∀ fuel e, c ≠ HandleEvent fuel e) →
                   next_loc s ≤ next_loc (exec (call c) s)
                   ∧ ∀ l, l < next_loc s → heap (exec (call c) s) !! l = heap s !! l).
  { intros Hc. pose proof (call_heap_frame c Hc s) as [= Hh Hn].
    rewrite Hh, Hn. by split. }
  destruct c as [callback|this target options|this|this|fuel e|this record];
    try (by apply Hframe).
  apply handleEvent_old_objects.
Qed.

(** X11.  No call changes an object that exists.  Whatever sequence of
    calls follows, returning or throwing, the objects of the heap stay
    as they are: a record that [handleEvent] has created, and that
    [takeRecords] may have handed out, is never modified, and neither
    are [mutationRecordPrototype] and [Object.prototype]. *)
Theorem objects_are_never_modified (calls : list Call) (s : State) (l : Loc) :
  l < next_loc s →
  heap (run_calls calls s) !! l = heap s !! l.
Proof.
  revert s. induction calls as [|c calls IH]; intros s Hl; [done|].
  destruct (call_old_objects c s) as [Hn Hh]. simpl.
  rewrite IH by lia. by apply Hh.
Qed.

(** [mutationRecordPrototype] after the calls of a session is the object
    that the module made when it was loaded. *)
Lemma objects_are_never_modified_witness :
  heap (run_calls [New 0; Observe 0 2 (watch_attributes true false);
                   HandleEvent 2 sample_event; TakeRecords 0;
                   HandleEvent 2 sample_text_event; Disconnect 0]
          (initial {[ 2 := 1 ]})) !! mutationRecordPrototype
  = Some mutationRecordPrototype_obj.
Proof.
  rewrite (objects_are_never_modified _ (initial {[ 2 := 1 ]}) mutationRecordPrototype).
  - reflexivity.
  - simpl. unfold mutationRecordPrototype. lia.
Defined.

(** ** The constructor *)

(** X12.  A new observer is on its own.  With the invariants, the
    constructor returns a reference that named no observer before; the
    new observer has the callback it was given, an empty node list and
    an empty queue; every other observer is as it was, with the queue it
    had; and the table of registrations and the listeners are
    untouched. *)
Theorem new_observer_is_fresh (callback : nat) (s : State) :
  wf s →
  ∃ this s',
    new_JsMutationObserver callback s = Ok this s'
    ∧ observers s !! this = None
    ∧ (∃ o, observers s' !! this = Some o ∧ callback_ o = callback ∧ nodes_ o = [])
    ∧ queue_of s' this = Some []
    ∧ (∀ other, other ≠ this →
         observers s' !! other = observers s !! other
         ∧ queue_of s' other = queue_of s other)
    ∧ registrationsTable s' = registrationsTable s
    ∧ eventListeners s' = eventListeners s.
Proof.
  intros (_ & _ & (Harr & Hq & _) & _ & Hobs).
  eexists _, _. split; [reflexivity|]. simpl.
  split; [|split; [|split; [|split; [|done]]]].
  - destruct (observers s !! next_observer s) as [o|] eqn:E; [|done].
    specialize (Hobs _ _ E). simpl in Hobs. lia.
  - rewrite lookup_insert_eq. by eexists.
  - unfold queue_of. simpl. rewrite lookup_insert_eq. simpl. apply lookup_insert_eq.
  - intros other Hother. unfold queue_of. simpl.
    rewrite lookup_insert_ne by done. split; [done|].
    destruct (observers s !! other) as [o|] eqn:E; simpl; [|done].
    destruct (Hq _ _ E) as [l Hl]. pose proof (Harr _ _ Hl) as Hlt. simpl in Hlt.
    rewrite lookup_insert_ne by lia. done.
Qed.

(** A second observer in [sample_first], whose first observer keeps its
    registration. *)
Lemma new_observer_is_fresh_witness :
  ∃ this s', new_JsMutationObserver 7 sample_first = Ok this s'
             ∧ queue_of s' this = Some []
             ∧ registrationsTable s' = registrationsTable sample_first.
Proof.
  destruct (new_observer_is_fresh 7 sample_first)
    as (this & s' & Hrun & _ & _ & Hq & _ & Ht & _); [by_compute|].
  by exists this, s'.
Defined.

(** * The walk and the queues *)

(** [enqueue] on the queue of the observer of the registration: the queue
    becomes what [enqueued] says. *)
Lemma enqueue_queue this record s o queue :
  observers s !! observer this = Some o →
  arrays s !! records_ o = Some queue →
  Forall (λ x, is_Some (heap s !! x)) queue →
  is_Some (heap s !! record) →
  ∃ s', enqueue this record s = Ok tt s'
        ∧ arrays s' !! records_ o = Some (enqueued (heap s) queue record).
Proof.
  intros Ho Ha Hall [orecord Hr].
  destruct queue as [|l init _] using rev_ind.
  - rewrite (enqueue_empty _ _ _ _ Ho Ha). eexists. split; [done|].
    unfold store_array. simpl. by rewrite lookup_insert_eq.
  - apply Forall_app in Hall as [_ Hlast].
    apply Forall_singleton in Hlast as [olast Hl].
    rewrite (enqueue_nonempty _ _ _ _ _ _ _ _ Ho Ha Hl Hr).
    unfold enqueued, proto_of. rewrite last_snoc, Hl, Hr. simpl.
    destruct (decide (record = l)); [exists s; split; [reflexivity | exact Ha]|].
    destruct (decide (Some record = obj_proto olast)) as [E|E].
    + rewrite (decide_True (P := obj_proto olast = Some record)) by done.
      exists s; split; [reflexivity | exact Ha].
    + rewrite (decide_False (P := obj_proto olast = Some record))
        by (intros E'; apply E; by rewrite E').
      destruct (decide (obj_proto orecord = Some l)); eexists; (split; [done|]);
        unfold store_array; simpl; rewrite lookup_insert_eq; [|done].
      by rewrite insert_snoc_last.
Qed.

(** The enqueues of a walk, seen from the queue of observer [this]: the
    records of its registrations are enqueued one after the other, and
    the enqueues for the other observers leave its queue alone. *)
Lemma enqueue_pairs_queue H O this o pairs cur queue :
  heap cur = H → observers cur = O → O !! this = Some o →
  queues_wf cur → queues_in_heap cur →
  arrays cur !! records_ o = Some queue →
  Forall (λ p, is_Some (O !! observer p.1) ∧ is_Some (H !! p.2)) pairs →
  ∃ s', forEach pairs enqueue_pair cur = Ok tt s'
        ∧ observers s' = O
        ∧ arrays s' !! records_ o
          = Some (foldl (enqueued H) queue (records_for this pairs)).
Proof.
  revert cur queue. induction pairs as [|[r record] pairs IH];
    intros cur queue Hh Ho Hthis Hwf Hheap Ha Hall.
  - by exists cur.
  - apply Forall_cons in Hall as [[[ok Hok] Hrec] Hall]. simpl in Hok, Hrec.
    destruct (enqueue_step H O cur r record ok Hh Ho Hwf Hheap Hok Hrec)
      as (s1 & Hrun & Hh1 & Ho1 & Hwf1 & Hheap1 & Hother).
    assert (Hnext : ∃ queue',
              arrays s1 !! records_ o = Some queue'
              ∧ foldl (enqueued H) queue (records_for this ((r, record) :: pairs))
                = foldl (enqueued H) queue' (records_for this pairs)).
    { unfold records_for. rewrite filter_cons. simpl.
      destruct (decide (observer r = this)) as [Hr|Hr].
      - destruct (enqueue_queue r record cur o queue) as (s1' & Hrun' & Ha').
        + by rewrite Ho, Hr.
        + done.
        + by apply (Hheap (records_ o)).
        + by rewrite Hh.
        + rewrite Hrun in Hrun'. injection Hrun' as <-.
          exists (enqueued H queue record). by rewrite <- Hh.
      - exists queue. split; [|done].
        rewrite Hother; [done|]. intros E. apply Hr.
        destruct Hwf as (_ & _ & Hsep). unfold queues_separate in Hsep.
        rewrite Ho in Hsep.
        symmetry. by apply (Hsep this o Hthis (observer r) ok Hok). }
    destruct Hnext as (queue' & Ha1 & ->).
    destruct (IH s1 queue' Hh1 Ho1 Hthis Hwf1 Hheap1 Ha1 Hall) as (s' & Hrun' & Hrest).
    exists s'. split; [|done]. simpl. rewrite run_bind.
    unfold enqueue_pair at 1. simpl. by rewrite Hrun.
Qed.

Lemma NoDup_all_eq {A} (l : list A) (a : A) :
  NoDup l → (∀ x, x ∈ l → x = a) → a ∈ l → l = [a].
Proof.
  intros Hnd Hall Hin. destruct l as [|x [|y l]].
  - by apply elem_of_nil in Hin.
  - f_equal. apply Hall. by left.
  - exfalso. apply NoDup_cons in Hnd as [Hx _]. apply Hx.
    rewrite (Hall x) by (by left). rewrite <- (Hall y) by (right; by left). by left.
Qed.

(** C3.  The walk from a changed node [target] up its chain of parents
    runs [enqueue], node by node and registration by registration, with
    the record that the builder returns for the options of every
    registration that is found at [target] itself or has [subtree] set,
    and for no other.  In a state that satisfies the invariants, with a
    builder that returns objects of the heap, the walk returns, and the
    queue of an observer after it is its queue before it with these
    records of its registrations enqueued, in the order of the walk.  So
    an observer whose registrations on the chain are all skipped, being
    on another node than the changed one and without [subtree], or get
    no record from the builder, has its queue left as it was; and an
    observer with one registration on the chain, at the changed node or
    with [subtree], has the record that the builder returns for it
    enqueued. *)
Theorem ancestor_walk_dispatch (fuel : nat) (target : Node)
    (callback : MutationObserverInit → option Loc) (s : State) (chain : list Node) :
  is_chain (parentNode s) (Some target) chain →
  length chain ≤ fuel →
  let pairs := dispatched (registrationsTable s) target callback chain in
  forEachAncestorAndObserverEnqueueRecord fuel target callback s
  = forEach pairs enqueue_pair s
  ∧ (∀ r record,
       (r, record) ∈ pairs
       ↔ ∃ node, node ∈ chain ∧ r ∈ default [] (registrationsTable s !! node)
                 ∧ (node = target ∨ subtree (options r) = true)
                 ∧ callback (options r) = Some record)
  ∧ (∀ r record,
       subtree (options r) = false →
       r ∉ default [] (registrationsTable s !! target) →
       (r, record) ∉ pairs)
  ∧ (∀ node r record,
       node ∈ chain → r ∈ default [] (registrationsTable s !! node) →
       subtree (options r) = true → callback (options r) = Some record →
       (r, record) ∈ pairs)
  ∧ (∀ this queue,
       wf s → targets_match s → queues_in_heap s →
       (∀ o record, callback o = Some record → is_Some (heap s !! record)) →
       queue_of s this = Some queue →
       ∃ s', forEachAncestorAndObserverEnqueueRecord fuel target callback s = Ok tt s'
             ∧ queue_of s' this
               = Some (foldl (enqueued (heap s)) queue (records_for this pairs))
             ∧ ((∀ node r,
                   node ∈ chain → r ∈ default [] (registrationsTable s !! node) →
                   observer r = this →
                   (node ≠ target ∧ subtree (options r) = false)
                   ∨ callback (options r) = None) →
                queue_of s' this = Some queue)
             ∧ (∀ node r record,
                  node ∈ chain → r ∈ default [] (registrationsTable s !! node) →
                  observer r = this →
                  node = target ∨ subtree (options r) = true →
                  callback (options r) = Some record →
                  (∀ node' r',
                     node' ∈ chain → r' ∈ default [] (registrationsTable s !! node') →
                     observer r' = this → r' = r) →
                  queue_of s' this = Some (enqueued (heap s) queue record))).
Proof.
  intros Hc Hf pairs.
  assert (Hrun : forEachAncestorAndObserverEnqueueRecord fuel target callback s
                 = forEach pairs enqueue_pair s) by (by apply ancestor_loop_run).
  split; [done|]. split; [|split; [|split]].
  - intros r record. apply elem_of_dispatched.
  - intros r record Hsub Hnot Hin.
    apply elem_of_dispatched in Hin as (node & _ & Hr & [-> | Hs] & _); [done|congruence].
  - intros node r record Hn Hr Hsub Hcb. apply elem_of_dispatched.
    exists node. unfold applies. auto.
  - intros this queue (Hone & _ & Hq & [_ Hlisted] & _) Htargets Hheap Hcb Hqueue.
    unfold queue_of in Hqueue.
    destruct (observers s !! this) as [o|] eqn:Hthis; simpl in Hqueue; [|done].
    assert (Hpairs : Forall (λ p, is_Some (observers s !! observer p.1)
                                  ∧ is_Some (heap s !! p.2)) pairs).
    { apply Forall_forall. intros [r record] Hin.
      apply elem_of_dispatched in Hin as (node & _ & Hr & _ & Hrec). simpl. split.
      - destruct (registrationsTable s !! node) as [regs|] eqn:Hnode; simpl in Hr;
          [|by apply elem_of_nil in Hr].
        specialize (Hlisted node regs Hnode). rewrite Forall_forall in Hlisted.
        specialize (Hlisted r Hr). unfold lists_node in Hlisted.
        by destruct (observers s !! observer r).
      - by apply (Hcb (options r)). }
    destruct (enqueue_pairs_queue (heap s) (observers s) this o pairs s queue
                eq_refl eq_refl Hthis Hq Hheap Hqueue Hpairs)
      as (s' & Hrun' & Ho' & Ha').
    assert (Hq' : queue_of s' this
                  = Some (foldl (enqueued (heap s)) queue (records_for this pairs))).
    { unfold queue_of. by rewrite Ho', Hthis. }
    exists s'. rewrite Hrun. split; [done|]. split; [done|]. split.
    + intros Hskip. rewrite Hq'.
      destruct (records_for this pairs) as [|x l] eqn:E; [done|].
      assert (Hx : x ∈ records_for this pairs) by (rewrite E; by left).
      apply elem_of_records_for in Hx as (r & Hin & Hr).
      apply elem_of_dispatched in Hin as (node & Hnode & Hreg & Happ & Hrec).
      destruct (Hskip node r Hnode Hreg Hr) as [[Hne Hsub]|Hnone]; [|congruence].
      destruct Happ as [-> | Hsub']; [done | congruence].
    + intros node r record Hnode Hreg Hr Happ Hrec Huniq. rewrite Hq'.
      unfold records_for.
      rewrite (NoDup_all_eq (filter (λ p, observer p.1 = this) pairs) (r, record));
        [done| | |].
      * apply NoDup_filter. eapply NoDup_fmap_1.
        by apply (dispatched_once s target callback chain).
      * intros [r' record'] [Hr' Hin]%list_elem_of_filter. simpl in Hr'.
        apply elem_of_dispatched in Hin as (node' & Hnode' & Hreg' & _ & Hrec').
        rewrite (Huniq node' r' Hnode' Hreg' Hr') in Hrec' |- *. congruence.
      * apply list_elem_of_filter. split; [done|].
        apply elem_of_dispatched. by exists node.
Qed.

(** In [sample_walk] observer 0 is registered on node 1 for the subtree
    and observer 1 on node 1 alone.  The walk for a change of node 2,
    the child of node 1, returns; the record is enqueued for observer 0,
    and the queue of observer 1 is left empty. *)
Lemma ancestor_walk_dispatch_witness :
  ∃ s', forEachAncestorAndObserverEnqueueRecord 2 2 (attributes_callback "id" None 2 3)
          sample_walk = Ok tt s'
        ∧ queue_of s' 0 = Some [3]
        ∧ queue_of s' 1 = Some [].
Proof.
  assert (Hc : is_chain (parentNode sample_walk) (Some 2) [2; 1]) by by_compute.
  assert (Hf : length [2; 1] ≤ 2) by (simpl; lia).
  destruct (ancestor_walk_dispatch 2 2 (attributes_callback "id" None 2 3) sample_walk
              [2; 1] Hc Hf) as (_ & _ & _ & _ & Hqueues).
  assert (Hwf : wf sample_walk) by by_compute.
  assert (Ht : targets_match sample_walk) by by_compute.
  assert (Hh : queues_in_heap sample_walk) by by_compute.
  assert (Hcb : ∀ o record, attributes_callback "id" None 2 3 o = Some record →
                            is_Some (heap sample_walk !! record)).
  { intros o record. unfold attributes_callback.
    repeat case_match; intros [= <-]; by_compute. }
  destruct (Hqueues 0 [] Hwf Ht Hh Hcb eq_refl) as (s' & Hrun & _ & _ & Hreach).
  destruct (Hqueues 1 [] Hwf Ht Hh Hcb eq_refl) as (s'' & Hrun' & _ & Hmiss & _).
  exists s'. split; [exact Hrun|]. split.
  - apply (Hreach 1 {| reg_id := 0; observer := 0; target := 1;
                       options := watch_attributes true true |} 3);
      try by_compute; try reflexivity.
    intros node' r' Hnode' Hr' Hobs.
    apply elem_of_cons in Hnode' as [-> | Hnode'].
    + vm_compute in Hr'. by apply elem_of_nil in Hr'.
    + apply list_elem_of_singleton in Hnode' as ->. vm_compute in Hr'.
      apply elem_of_cons in Hr' as [-> | Hr']; [done|].
      apply list_elem_of_singleton in Hr' as ->. done.
  - rewrite Hrun in Hrun'. injection Hrun' as <-.
    apply Hmiss. intros node r Hnode Hr Hobs.
    apply elem_of_cons in Hnode as [-> | Hnode].
    + vm_compute in Hr. by apply elem_of_nil in Hr.
    + apply list_elem_of_singleton in Hnode as ->. vm_compute in Hr.
      apply elem_of_cons in Hr as [-> | Hr]; [done|].
      apply list_elem_of_singleton in Hr as ->. left. by split.
Defined.
